(** * Brick breaker: the simulation core, embedded and verified

    A shallow embedding of the game classes [Paddle], [Ball], [Brick],
    [BrickManager] and [Game] (TypeScript), followed by the properties of
    the simulation core that the specification states about them.

    Conventions of the embedding.
    - A JavaScript [number] that holds a coordinate, a size or a velocity is
      a real number ([R]): arithmetic is exact, so rounding, NaN and the
      infinities of IEEE doubles are outside the model.  [Math.max],
      [Math.min], [Math.abs], [Math.sqrt], [Math.sin], [Math.cos] and
      [Math.PI] are [Rmax], [Rmin], [Rabs], [sqrt], [sin], [cos] and [PI].
    - A [number] that only ever holds an integer (score, lives, stage,
      combo, durability, brick score, loop counters) is a [Z] or a [nat];
      the combo multiplier (1, 1.5, 2) is a rational and [Math.floor] of the
      product is [Qfloor].
    - A method that mutates [this] is a function from the object to the new
      object; a method that also returns a value returns a pair.
    - [Math.random()] is an input: the two draws of [launch] are arguments.
    - Rendering, the observer callbacks, the high-score cache and the
      scheduling of animation frames do not touch the simulation state and
      are left out; a frame callback is the function [gameLoop].
    - Where rounding decides a property (the speed of the ball), the
      arithmetic is taken with its rounding ([Rounded]) and evaluated
      in binary64 ([Double]). *)

From Stdlib Require Import Reals Lra Lia ZArith QArith Qround.
From Stdlib Require Import Bool String List.
From Stdlib Require PrimFloat.
Import ListNotations.

Set Implicit Arguments.

(* ================================================================= *)
(** ** Numbers: the comparisons of the source as booleans *)

Module Num.
Local Open Scope R_scope.

(** [a <= b], [a < b], [a >= b], [a > b], [a === b] on numbers. *)
Definition leb (a b : R) : bool := if Rle_dec a b then true else false.
Definition ltb (a b : R) : bool := if Rlt_dec a b then true else false.
Definition geb (a b : R) : bool := leb b a.
Definition gtb (a b : R) : bool := ltb b a.
Definition eqb (a b : R) : bool := if Req_dec_T a b then true else false.

End Num.

(* ================================================================= *)
(** ** types.ts *)

Record Position := { px : R; py : R }.
Record Velocity := { dx : R; dy : R }.

Inductive GameState := idle | playing | paused | gameover | clear | scores.

Definition GameState_eqb (a b : GameState) : bool :=
  match a, b with
  | idle, idle | playing, playing | paused, paused
  | gameover, gameover | clear, clear | scores, scores => true
  | _, _ => false
  end.

Inductive BrickType := normal | hard | special.

Record BrickConfig := {
  bc_type : BrickType;
  bc_durability : Z;
  bc_score : Z
}.

Record GameConfig := {
  canvas_width : R;
  canvas_height : R;
  paddle_width : R;
  paddle_height : R;
  paddle_speed : R;
  ball_radius : R;
  ball_initialSpeed : R;
  ball_maxSpeed : R;
  brick_width : R;
  brick_height : R;
  brick_rows : nat;
  brick_cols : nat;
  brick_gap : R;
  brick_topOffset : R;
  cfg_lives : Z;
  cfg_maxLives : Z
}.

Definition DEFAULT_CONFIG : GameConfig := {|
  canvas_width := 800;
  canvas_height := 600;
  paddle_width := 100;
  paddle_height := 15;
  paddle_speed := 8;
  ball_radius := 8;
  ball_initialSpeed := 5;
  ball_maxSpeed := 10;
  brick_width := 75;
  brick_height := 20;
  brick_rows := 5;
  brick_cols := 10;
  brick_gap := 2;
  brick_topOffset := 50;
  cfg_lives := 3;
  cfg_maxLives := 5
|}.

Definition BRICK_CONFIGS (t : BrickType) : BrickConfig :=
  match t with
  | normal => {| bc_type := normal; bc_durability := 1; bc_score := 10 |}
  | hard => {| bc_type := hard; bc_durability := 2; bc_score := 25 |}
  | special => {| bc_type := special; bc_durability := 1; bc_score := 50 |}
  end.

(* ================================================================= *)
(** ** Paddle.ts *)

Module Paddle.
Local Open Scope R_scope.

Record t := {
  position : Position;
  width : R;
  height : R;
  speed : R;
  canvasWidth : R;
  canvasHeight : R;
  direction : R
}.

Definition with_position (p : t) (pos : Position) : t :=
  {| position := pos; width := width p; height := height p; speed := speed p;
     canvasWidth := canvasWidth p; canvasHeight := canvasHeight p;
     direction := direction p |}.

Definition with_direction (p : t) (d : R) : t :=
  {| position := position p; width := width p; height := height p;
     speed := speed p; canvasWidth := canvasWidth p;
     canvasHeight := canvasHeight p; direction := d |}.

(** [constructor(config)]: bottom centre of the canvas, not moving. *)
Definition new (config : GameConfig) : t :=
  {| position := {| px := (canvas_width config - paddle_width config) / 2;
                    py := canvas_height config - 50 |};
     width := paddle_width config;
     height := paddle_height config;
     speed := paddle_speed config;
     canvasWidth := canvas_width config;
     canvasHeight := canvas_height config;
     direction := 0 |}.

Definition reset (p : t) : t :=
  with_direction
    (with_position p {| px := (canvasWidth p - width p) / 2;
                        py := canvasHeight p - 50 |})
    0.

Definition setDirection (dir : R) (p : t) : t := with_direction p dir.

Definition setPositionX (mouseX : R) (p : t) : t :=
  let newX := mouseX - width p / 2 in
  let newX := Rmax 0 (Rmin newX (canvasWidth p - width p)) in
  with_position p {| px := newX; py := py (position p) |}.

Definition update (p : t) : t :=
  if Num.eqb (direction p) 0 then p
  else
    let newX := px (position p) + direction p * speed p in
    let newX := Rmax 0 (Rmin newX (canvasWidth p - width p)) in
    with_position p {| px := newX; py := py (position p) |}.

Definition getX (p : t) : R := px (position p).
Definition getY (p : t) : R := py (position p).
Definition getWidth (p : t) : R := width p.
Definition getHeight (p : t) : R := height p.
Definition getCenterX (p : t) : R := px (position p) + width p / 2.

(** The operations a client of the class can perform. *)
Inductive op :=
| OpReset
| OpSetDirection (dir : R)
| OpSetPositionX (mouseX : R)
| OpUpdate.

Definition run (o : op) (p : t) : t :=
  match o with
  | OpReset => reset p
  | OpSetDirection d => setDirection d p
  | OpSetPositionX x => setPositionX x p
  | OpUpdate => update p
  end.

(** The states a paddle built from [config] can be in. *)
Inductive reachable (config : GameConfig) : t -> Prop :=
| reach_new : reachable config (new config)
| reach_run o p : reachable config p -> reachable config (run o p).

(** The bound of the data model: [0 <= x <= canvasWidth - width]. *)
Definition in_bounds (p : t) : Prop :=
  0 <= getX p <= canvasWidth p - width p.

End Paddle.

(* ================================================================= *)
(** ** Ball.ts *)

Module Ball.
Local Open Scope R_scope.

Record t := {
  position : Position;
  velocity : Velocity;
  radius : R;
  initialSpeed : R;
  maxSpeed : R;
  canvasWidth : R;
  canvasHeight : R;
  launched : bool
}.

Definition with_position (b : t) (pos : Position) : t :=
  {| position := pos; velocity := velocity b; radius := radius b;
     initialSpeed := initialSpeed b; maxSpeed := maxSpeed b;
     canvasWidth := canvasWidth b; canvasHeight := canvasHeight b;
     launched := launched b |}.

Definition with_velocity (b : t) (v : Velocity) : t :=
  {| position := position b; velocity := v; radius := radius b;
     initialSpeed := initialSpeed b; maxSpeed := maxSpeed b;
     canvasWidth := canvasWidth b; canvasHeight := canvasHeight b;
     launched := launched b |}.

Definition with_launched (b : t) (l : bool) : t :=
  {| position := position b; velocity := velocity b; radius := radius b;
     initialSpeed := initialSpeed b; maxSpeed := maxSpeed b;
     canvasWidth := canvasWidth b; canvasHeight := canvasHeight b;
     launched := l |}.

Definition with_x (b : t) (x : R) : t :=
  with_position b {| px := x; py := py (position b) |}.
Definition with_y (b : t) (y : R) : t :=
  with_position b {| px := px (position b); py := y |}.
Definition with_dx (b : t) (d : R) : t :=
  with_velocity b {| dx := d; dy := dy (velocity b) |}.
Definition with_dy (b : t) (d : R) : t :=
  with_velocity b {| dx := dx (velocity b); dy := d |}.

Definition x (b : t) : R := px (position b).
Definition y (b : t) : R := py (position b).
Definition vx (b : t) : R := dx (velocity b).
Definition vy (b : t) : R := dy (velocity b).

Definition new (config : GameConfig) : t :=
  {| position := {| px := 0; py := 0 |};
     velocity := {| dx := 0; dy := 0 |};
     radius := ball_radius config;
     initialSpeed := ball_initialSpeed config;
     maxSpeed := ball_maxSpeed config;
     canvasWidth := canvas_width config;
     canvasHeight := canvas_height config;
     launched := false |}.

Definition reset (paddle : Paddle.t) (b : t) : t :=
  with_launched
    (with_velocity
       (with_position b {| px := Paddle.getCenterX paddle;
                           py := Paddle.getY paddle - radius b - 1 |})
       {| dx := 0; dy := 0 |})
    false.

(** [launch()]; [r1] and [r2] are the two draws of [Math.random()]. *)
Definition launch (r1 r2 : R) (b : t) : t :=
  if launched b then b
  else
    let angle := (r1 * 60 + 60) * (PI / 180) in
    with_launched
      (with_velocity b
         {| dx := initialSpeed b * cos angle * (if Num.gtb r2 0.5 then 1 else -1);
            dy := - initialSpeed b * sin angle |})
      true.

(** The result of [update]: the string ['playing'] or ['lost']. *)
Inductive result := ResPlaying | ResLost.

(** The blocks of [update], in the order of the source. *)

(** Position update. *)
Definition integrate (b : t) : t :=
  let b := with_x b (x b + vx b) in
  with_y b (y b + vy b).

(** Left and right walls. *)
Definition bounceSideWalls (b : t) : t :=
  if Num.leb (x b - radius b) 0 then
    let b := with_x b (radius b) in
    with_dx b (Rabs (vx b))
  else if Num.geb (x b + radius b) (canvasWidth b) then
    let b := with_x b (canvasWidth b - radius b) in
    with_dx b (- Rabs (vx b))
  else b.

(** Top wall. *)
Definition bounceTopWall (b : t) : t :=
  if Num.leb (y b - radius b) 0 then
    let b := with_y b (radius b) in
    with_dy b (Rabs (vy b))
  else b.

Definition checkPaddleCollision (paddle : Paddle.t) (b : t) : t :=
  let paddleX := Paddle.getX paddle in
  let paddleY := Paddle.getY paddle in
  let paddleWidth := Paddle.getWidth paddle in
  let paddleHeight := Paddle.getHeight paddle in
  if Num.gtb (vy b) 0
     && Num.geb (y b + radius b) paddleY
     && Num.leb (y b + radius b) (paddleY + paddleHeight)
     && Num.geb (x b) paddleX
     && Num.leb (x b) (paddleX + paddleWidth)
  then
    let hitPosition := (x b - paddleX) / paddleWidth in
    let angle := (hitPosition - 0.5) * PI * 0.7 in
    let speed := sqrt (vx b * vx b + vy b * vy b) in
    let newSpeed := Rmin (speed * 1.02) (maxSpeed b) in
    let b := with_dx b (newSpeed * sin angle) in
    let b := with_dy b (- newSpeed * cos angle) in
    with_y b (paddleY - radius b)
  else b.

Definition update (paddle : Paddle.t) (b : t) : result * t :=
  if negb (launched b) then
    let b := with_x b (Paddle.getCenterX paddle) in
    let b := with_y b (Paddle.getY paddle - radius b - 1) in
    (ResPlaying, b)
  else
    let b := integrate b in
    let b := bounceSideWalls b in
    let b := bounceTopWall b in
    if Num.gtb (y b - radius b) (canvasHeight b) then (ResLost, b)
    else (ResPlaying, checkPaddleCollision paddle b).

Definition checkBrickCollision
    (brickX brickY brickWidth brickHeight : R) (b : t) : bool * t :=
  let closestX := Rmax brickX (Rmin (x b) (brickX + brickWidth)) in
  let closestY := Rmax brickY (Rmin (y b) (brickY + brickHeight)) in
  let distanceX := x b - closestX in
  let distanceY := y b - closestY in
  let distance := sqrt (distanceX * distanceX + distanceY * distanceY) in
  if Num.ltb distance (radius b) then
    let overlapX := radius b - Rabs distanceX in
    let overlapY := radius b - Rabs distanceY in
    if Num.ltb overlapX overlapY then
      let b := with_dx b (- vx b) in
      let b := with_x b (x b + (if Num.gtb distanceX 0 then overlapX else - overlapX)) in
      (true, b)
    else
      let b := with_dy b (- vy b) in
      let b := with_y b (y b + (if Num.gtb distanceY 0 then overlapY else - overlapY)) in
      (true, b)
  else (false, b).

Definition isLaunched (b : t) : bool := launched b.

(** The speed magnitude [sqrt(dx^2 + dy^2)]. *)
Definition speed (b : t) : R := sqrt (vx b * vx b + vy b * vy b).

(** The operations a client of the class can perform. *)
Inductive op :=
| OpReset (paddle : Paddle.t)
| OpLaunch (r1 r2 : R)
| OpUpdate (paddle : Paddle.t)
| OpCheckBrickCollision (brickX brickY brickWidth brickHeight : R).

Definition run (o : op) (b : t) : t :=
  match o with
  | OpReset p => reset p b
  | OpLaunch r1 r2 => launch r1 r2 b
  | OpUpdate p => snd (update p b)
  | OpCheckBrickCollision bx by_ bw bh => snd (checkBrickCollision bx by_ bw bh b)
  end.

Inductive reachable (config : GameConfig) : t -> Prop :=
| reach_new : reachable config (new config)
| reach_run o b : reachable config b -> reachable config (run o b).

End Ball.

(* ================================================================= *)
(** ** Brick.ts *)

Module Brick.
Local Open Scope Z_scope.

Record t := {
  position : Position;
  width : R;
  height : R;
  config : BrickConfig;
  durability : Z;
  destroyed : bool
}.

Definition new (x y width height : R) (type : BrickType) : t :=
  {| position := {| px := x; py := y |};
     width := width;
     height := height;
     config := BRICK_CONFIGS type;
     durability := bc_durability (BRICK_CONFIGS type);
     destroyed := false |}.

Definition with_durability (b : t) (d : Z) : t :=
  {| position := position b; width := width b; height := height b;
     config := config b; durability := d; destroyed := destroyed b |}.

Definition with_destroyed (b : t) (d : bool) : t :=
  {| position := position b; width := width b; height := height b;
     config := config b; durability := durability b; destroyed := d |}.

(** [hit()]: the returned flag and the brick after the call. *)
Definition hit (b : t) : bool * t :=
  let b := with_durability b (durability b - 1) in
  if durability b <=? 0 then (true, with_destroyed b true)
  else (false, b).

Definition isDestroyed (b : t) : bool := destroyed b.
Definition getScore (b : t) : Z := bc_score (config b).
Definition getX (b : t) : R := px (position b).
Definition getY (b : t) : R := py (position b).
Definition getWidth (b : t) : R := width b.
Definition getHeight (b : t) : R := height b.

(** The bricks a client can hold: a new brick, hit any number of times. *)
Inductive reachable : t -> Prop :=
| reach_new x y w h ty : reachable (new x y w h ty)
| reach_hit b : reachable b -> reachable (snd (hit b)).

End Brick.

(** Array update [a[i] = v] inside the bounds of the array. *)
Fixpoint list_set {A : Type} (i : nat) (v : A) (l : list A) : list A :=
  match l, i with
  | [], _ => []
  | _ :: tl, O => v :: tl
  | hd :: tl, S i' => hd :: list_set i' v tl
  end.

Module BrickManager.
Local Open Scope R_scope.

Record t := {
  bricks : list Brick.t;
  brickWidth : R;
  brickHeight : R;
  rows : nat;
  cols : nat;
  gap : R;
  topOffset : R;
  canvasWidth : R
}.

Definition new (brickWidth brickHeight : R) (rows cols : nat)
    (gap topOffset canvasWidth : R) : t :=
  {| bricks := []; brickWidth := brickWidth; brickHeight := brickHeight;
     rows := rows; cols := cols; gap := gap; topOffset := topOffset;
     canvasWidth := canvasWidth |}.

Definition with_bricks (m : t) (bs : list Brick.t) : t :=
  {| bricks := bs; brickWidth := brickWidth m; brickHeight := brickHeight m;
     rows := rows m; cols := cols m; gap := gap m; topOffset := topOffset m;
     canvasWidth := canvasWidth m |}.

Definition getBrickType (stage : Z) (row _col : nat) : BrickType :=
  if (stage =? 1)%Z then normal
  else if (stage =? 2)%Z then
    (if (row <? 2)%nat then hard else normal)
  else if (row =? 0)%nat then special
  else if (row <? 2)%nat then hard
  else normal.

(** [createBricks(stage)]: the two nested loops push the bricks row by
    row, each row from column 0 upwards. *)
Definition createBricks (stage : Z) (m : t) : t :=
  let totalWidth := INR (cols m) * (brickWidth m + gap m) - gap m in
  let startX := (canvasWidth m - totalWidth) / 2 in
  with_bricks m
    (flat_map
       (fun row =>
          map
            (fun col =>
               let x := startX + INR col * (brickWidth m + gap m) in
               let y := topOffset m + INR row * (brickHeight m + gap m) in
               let type := getBrickType stage row col in
               Brick.new x y (brickWidth m) (brickHeight m) type)
            (seq 0 (cols m)))
       (seq 0 (rows m))).

(** [getActiveBricks()] returns an array of references to the bricks that
    are not destroyed, in the order of [bricks]; a reference is the index
    of the brick in [bricks], so that a [hit()] through the reference is
    an update of the shared brick. *)
Definition getActiveBricks (m : t) : list nat :=
  filter
    (fun i =>
       match nth_error (bricks m) i with
       | Some brick => negb (Brick.isDestroyed brick)
       | None => false
       end)
    (seq 0 (length (bricks m))).

Definition getRemainingCount (m : t) : nat := length (getActiveBricks m).

End BrickManager.

(* ================================================================= *)
(** ** Game.ts *)

Module Game.
Local Open Scope string_scope.
Local Open Scope Z_scope.

Record t := {
  config : GameConfig;
  state : GameState;
  previousState : GameState;
  paddle : Paddle.t;
  ball : Ball.t;
  brickManager : BrickManager.t;
  score : Z;
  lives : Z;
  stage : Z;
  combo : Z;
  keys : string -> bool
}.

Definition with_state (g : t) (s : GameState) : t :=
  {| config := config g; state := s; previousState := previousState g;
     paddle := paddle g; ball := ball g; brickManager := brickManager g;
     score := score g; lives := lives g; stage := stage g; combo := combo g;
     keys := keys g |}.

Definition with_previousState (g : t) (s : GameState) : t :=
  {| config := config g; state := state g; previousState := s;
     paddle := paddle g; ball := ball g; brickManager := brickManager g;
     score := score g; lives := lives g; stage := stage g; combo := combo g;
     keys := keys g |}.

Definition with_paddle (g : t) (p : Paddle.t) : t :=
  {| config := config g; state := state g; previousState := previousState g;
     paddle := p; ball := ball g; brickManager := brickManager g;
     score := score g; lives := lives g; stage := stage g; combo := combo g;
     keys := keys g |}.

Definition with_ball (g : t) (b : Ball.t) : t :=
  {| config := config g; state := state g; previousState := previousState g;
     paddle := paddle g; ball := b; brickManager := brickManager g;
     score := score g; lives := lives g; stage := stage g; combo := combo g;
     keys := keys g |}.

Definition with_brickManager (g : t) (m : BrickManager.t) : t :=
  {| config := config g; state := state g; previousState := previousState g;
     paddle := paddle g; ball := ball g; brickManager := m;
     score := score g; lives := lives g; stage := stage g; combo := combo g;
     keys := keys g |}.

Definition with_score (g : t) (n : Z) : t :=
  {| config := config g; state := state g; previousState := previousState g;
     paddle := paddle g; ball := ball g; brickManager := brickManager g;
     score := n; lives := lives g; stage := stage g; combo := combo g;
     keys := keys g |}.

Definition with_lives (g : t) (n : Z) : t :=
  {| config := config g; state := state g; previousState := previousState g;
     paddle := paddle g; ball := ball g; brickManager := brickManager g;
     score := score g; lives := n; stage := stage g; combo := combo g;
     keys := keys g |}.

Definition with_stage (g : t) (n : Z) : t :=
  {| config := config g; state := state g; previousState := previousState g;
     paddle := paddle g; ball := ball g; brickManager := brickManager g;
     score := score g; lives := lives g; stage := n; combo := combo g;
     keys := keys g |}.

Definition with_combo (g : t) (n : Z) : t :=
  {| config := config g; state := state g; previousState := previousState g;
     paddle := paddle g; ball := ball g; brickManager := brickManager g;
     score := score g; lives := lives g; stage := stage g; combo := n;
     keys := keys g |}.

Definition with_keys (g : t) (k : string -> bool) : t :=
  {| config := config g; state := state g; previousState := previousState g;
     paddle := paddle g; ball := ball g; brickManager := brickManager g;
     score := score g; lives := lives g; stage := stage g; combo := combo g;
     keys := k |}.

(** [keys[code] = v]. *)
Definition set_key (code : string) (v : bool) (k : string -> bool)
  : string -> bool :=
  fun c => if String.eqb c code then v else k c.

(** [constructor(canvas, config)]. *)
Definition new (config : GameConfig) : t :=
  {| config := config;
     state := idle;
     previousState := idle;
     paddle := Paddle.new config;
     ball := Ball.new config;
     brickManager :=
       BrickManager.new (brick_width config) (brick_height config)
         (brick_rows config) (brick_cols config) (brick_gap config)
         (brick_topOffset config) (canvas_width config);
     score := 0;
     lives := cfg_lives config;
     stage := 1;
     combo := 0;
     keys := fun _ => false |}.

Definition initStage (n : Z) (g : t) : t :=
  let g := with_stage g n in
  let g := with_brickManager g (BrickManager.createBricks n (brickManager g)) in
  let g := with_paddle g (Paddle.reset (paddle g)) in
  let g := with_ball g (Ball.reset (paddle g) (ball g)) in
  with_combo g 0.

Definition handleBallLost (g : t) : t :=
  let g := with_lives g (lives g - 1) in
  let g := with_combo g 0 in
  if lives g <=? 0 then with_state g gameover
  else with_ball g (Ball.reset (paddle g) (ball g)).

Definition handleStageClear (g : t) : t :=
  if stage g >=? 3 then with_state g clear
  else initStage (stage g + 1) g.

(** The combo bonus of [checkBrickCollisions]: 2 from a combo of 10,
    1.5 from a combo of 5, 1 below. *)
Definition comboMultiplier (combo : Z) : Q :=
  if combo >=? 10 then 2%Q
  else if combo >=? 5 then (3 # 2)%Q
  else 1%Q.

(** The body of [if (hit) { ... }] in [checkBrickCollisions] for the
    brick behind reference [i]: damage it, and score it when destroyed. *)
Definition resolveHit (i : nat) (brick : Brick.t) (g : t) : t :=
  let (destroyed, brick') := Brick.hit brick in
  let g :=
    with_brickManager g
      (BrickManager.with_bricks (brickManager g)
         (list_set i brick' (BrickManager.bricks (brickManager g)))) in
  if destroyed then
    let g := with_combo g (combo g + 1) in
    let multiplier := comboMultiplier (combo g) in
    let points := Qfloor (inject_Z (Brick.getScore brick') * multiplier) in
    with_score g (score g + points)
  else g.

(** The [for ... of] loop of [checkBrickCollisions] over the array of
    active bricks, with its [break] after the first hit. *)
Fixpoint scanBricks (activeBricks : list nat) (g : t) : t :=
  match activeBricks with
  | [] => g
  | i :: rest =>
      match nth_error (BrickManager.bricks (brickManager g)) i with
      | None => scanBricks rest g
      | Some brick =>
          let (hit, ball') :=
            Ball.checkBrickCollision (Brick.getX brick) (Brick.getY brick)
              (Brick.getWidth brick) (Brick.getHeight brick) (ball g) in
          let g := with_ball g ball' in
          if hit then resolveHit i brick g
          else scanBricks rest g
      end
  end.

Definition checkBrickCollisions (g : t) : t :=
  let activeBricks := BrickManager.getActiveBricks (brickManager g) in
  scanBricks activeBricks g.

Definition update (g : t) : t :=
  let g := with_paddle g (Paddle.update (paddle g)) in
  let (ballResult, ball') := Ball.update (paddle g) (ball g) in
  let g := with_ball g ball' in
  match ballResult with
  | Ball.ResLost => handleBallLost g
  | Ball.ResPlaying =>
      let g := checkBrickCollisions g in
      if (BrickManager.getRemainingCount (brickManager g) =? 0)%nat
      then handleStageClear g
      else g
  end.

(** One frame callback. *)
Definition gameLoop (g : t) : t :=
  if negb (GameState_eqb (state g) playing) then g else update g.

Definition start (g : t) : t :=
  if negb (GameState_eqb (state g) idle) then g
  else
    let g := with_state g playing in
    let g := initStage (stage g) g in
    gameLoop g.

Definition pause (g : t) : t :=
  if negb (GameState_eqb (state g) playing) then g
  else with_state g paused.

Definition resume (g : t) : t :=
  if negb (GameState_eqb (state g) paused) then g
  else
    let g := with_state g playing in
    gameLoop g.

Definition quit (g : t) : t :=
  if negb (GameState_eqb (state g) paused)
     && negb (GameState_eqb (state g) gameover)
     && negb (GameState_eqb (state g) clear)
  then g
  else
    let g := with_state g idle in
    let g := with_score g 0 in
    let g := with_lives g (cfg_lives (config g)) in
    let g := with_stage g 1 in
    let g := with_combo g 0 in
    let g := with_paddle g (Paddle.reset (paddle g)) in
    with_ball g (Ball.reset (paddle g) (ball g)).

Definition restart (g : t) : t :=
  let g := with_state g idle in
  let g := with_score g 0 in
  let g := with_lives g (cfg_lives (config g)) in
  let g := with_stage g 1 in
  let g := with_combo g 0 in
  let g := with_paddle g (Paddle.reset (paddle g)) in
  with_ball g (Ball.reset (paddle g) (ball g)).

(** [Space] and a click share this: start from [idle], launch while
    [playing] with the ball still on the paddle. *)
Definition startOrLaunch (r1 r2 : R) (g : t) : t :=
  if GameState_eqb (state g) idle then start g
  else if GameState_eqb (state g) playing && negb (Ball.isLaunched (ball g))
  then with_ball g (Ball.launch r1 r2 (ball g))
  else g.

(** [handleKeyDown(e)] with [code = e.code]; [r1], [r2] are the random
    draws a launch would use. *)
Definition handleKeyDown (code : string) (r1 r2 : R) (g : t) : t :=
  let g := with_keys g (set_key code true (keys g)) in
  if (code =? "KeyS")%string && GameState_eqb (state g) scores then
    with_state g (previousState g)
  else if (code =? "KeyS")%string
          && (GameState_eqb (state g) idle
              || GameState_eqb (state g) gameover
              || GameState_eqb (state g) clear) then
    let g := with_previousState g (state g) in
    with_state g scores
  else if GameState_eqb (state g) scores then
    (if (code =? "Escape")%string then with_state g (previousState g) else g)
  else
    let g :=
      if (code =? "ArrowLeft")%string || (code =? "KeyA")%string then
        with_paddle g (Paddle.setDirection (-1)%R (paddle g))
      else if (code =? "ArrowRight")%string || (code =? "KeyD")%string then
        with_paddle g (Paddle.setDirection 1%R (paddle g))
      else g in
    let g := if (code =? "Space")%string then startOrLaunch r1 r2 g else g in
    let g :=
      if (code =? "Escape")%string || (code =? "KeyP")%string then
        (if GameState_eqb (state g) playing then pause g
         else if GameState_eqb (state g) paused then resume g
         else g)
      else g in
    let g :=
      if (code =? "KeyQ")%string then
        (if GameState_eqb (state g) paused
            || GameState_eqb (state g) gameover
            || GameState_eqb (state g) clear
         then quit g else g)
      else g in
    let g :=
      if (code =? "Escape")%string then
        (if GameState_eqb (state g) gameover || GameState_eqb (state g) clear
         then quit g else g)
      else g in
    if (code =? "KeyR")%string then
      (if GameState_eqb (state g) gameover || GameState_eqb (state g) clear
       then restart g else g)
    else g.

Definition handleKeyUp (code : string) (g : t) : t :=
  let g := with_keys g (set_key code false (keys g)) in
  if (code =? "ArrowLeft")%string || (code =? "KeyA")%string then
    (if negb (keys g "ArrowRight") && negb (keys g "KeyD")
     then with_paddle g (Paddle.setDirection 0%R (paddle g))
     else with_paddle g (Paddle.setDirection 1%R (paddle g)))
  else if (code =? "ArrowRight")%string || (code =? "KeyD")%string then
    (if negb (keys g "ArrowLeft") && negb (keys g "KeyA")
     then with_paddle g (Paddle.setDirection 0%R (paddle g))
     else with_paddle g (Paddle.setDirection (-1)%R (paddle g)))
  else g.

(** [handleMouseMove(e)] with [mouseX = e.clientX - rect.left]. *)
Definition handleMouseMove (mouseX : R) (g : t) : t :=
  if negb (GameState_eqb (state g) playing) then g
  else with_paddle g (Paddle.setPositionX mouseX (paddle g)).

Definition handleClick (r1 r2 : R) (g : t) : t := startOrLaunch r1 r2 g.

(** What the host delivers to the controller: the four input events and
    the frame callback. *)
Inductive event :=
| KeyDown (code : string) (r1 r2 : R)
| KeyUp (code : string)
| MouseMove (mouseX : R)
| Click (r1 r2 : R)
| Frame.

Definition step (e : event) (g : t) : t :=
  match e with
  | KeyDown code r1 r2 => handleKeyDown code r1 r2 g
  | KeyUp code => handleKeyUp code g
  | MouseMove mouseX => handleMouseMove mouseX g
  | Click r1 r2 => handleClick r1 r2 g
  | Frame => gameLoop g
  end.

(** The states of a controller built from [config]. *)
Inductive reachable (config : GameConfig) : t -> Prop :=
| reach_new : reachable config (new config)
| reach_step e g : reachable config g -> reachable config (step e g).

Definition run_events (es : list event) (g : t) : t :=
  fold_left (fun g e => step e g) es g.

End Game.

(* ================================================================= *)
(** * Properties *)

(** ** Comparisons *)

Module NumFacts.
Local Open Scope R_scope.

Lemma leb_true a b : a <= b -> Num.leb a b = true.
Proof.
  intro H; unfold Num.leb; destruct (Rle_dec a b); [reflexivity | contradiction].
Qed.

Lemma leb_false a b : b < a -> Num.leb a b = false.
Proof. intro H; unfold Num.leb; destruct (Rle_dec a b); [lra | reflexivity]. Qed.

Lemma ltb_true a b : a < b -> Num.ltb a b = true.
Proof.
  intro H; unfold Num.ltb; destruct (Rlt_dec a b); [reflexivity | contradiction].
Qed.

Lemma ltb_false a b : b <= a -> Num.ltb a b = false.
Proof. intro H; unfold Num.ltb; destruct (Rlt_dec a b); [lra | reflexivity]. Qed.

Lemma eqb_true a b : a = b -> Num.eqb a b = true.
Proof.
  intro H; unfold Num.eqb; destruct (Req_dec_T a b); [reflexivity | contradiction].
Qed.

Lemma eqb_false a b : a <> b -> Num.eqb a b = false.
Proof.
  intro H; unfold Num.eqb; destruct (Req_dec_T a b); [contradiction | reflexivity].
Qed.

Lemma ltb_spec a b : reflect (a < b) (Num.ltb a b).
Proof. unfold Num.ltb; destruct (Rlt_dec a b); constructor; assumption. Qed.

Lemma gtb_spec a b : reflect (b < a) (Num.gtb a b).
Proof. apply ltb_spec. Qed.

(** Clamping into an interval that is not empty. *)
Lemma clamp_bounds lo hi v : lo <= hi -> lo <= Rmax lo (Rmin v hi) <= hi.
Proof.
  intro H. split.
  - apply Rmax_l.
  - apply Rmax_lub; [assumption | apply Rmin_r].
Qed.

End NumFacts.

(** Decide the comparisons of a goal at concrete numbers. *)
Ltac num_decide :=
  unfold Num.geb, Num.gtb;
  repeat first
    [ rewrite NumFacts.leb_true by lra
    | rewrite NumFacts.leb_false by lra
    | rewrite NumFacts.ltb_true by lra
    | rewrite NumFacts.ltb_false by lra
    | rewrite NumFacts.eqb_true by lra
    | rewrite NumFacts.eqb_false by lra ].

(** Reduce the field reads and writes of a ball or paddle given as an
    explicit record. *)
Ltac ball_fields :=
  cbv [Ball.with_x Ball.with_y Ball.with_dx Ball.with_dy Ball.with_position
       Ball.with_velocity Ball.with_launched Ball.x Ball.y Ball.vx Ball.vy
       Ball.position Ball.velocity Ball.radius Ball.initialSpeed Ball.maxSpeed
       Ball.canvasWidth Ball.canvasHeight Ball.launched px py dx dy
       Paddle.getX Paddle.getY Paddle.getWidth Paddle.getHeight
       Paddle.getCenterX Paddle.position Paddle.width Paddle.height
       andb orb negb fst snd].

(** Reduce the field reads of a brick given by its constructor. *)
Ltac brick_fields :=
  cbv [Brick.getX Brick.getY Brick.getWidth Brick.getHeight Brick.new
       Brick.position Brick.width Brick.height px py].

(* ================================================================= *)
(** ** Paddle: the position bound *)

Module PaddleFacts.
Local Open Scope R_scope.
Import Paddle.

(** The readonly fields keep the values of the configuration. *)
Definition configured (config : GameConfig) (p : t) : Prop :=
  width p = paddle_width config /\ canvasWidth p = canvas_width config.

Lemma run_configured config o p : configured config p -> configured config (run o p).
Proof.
  intros [Hw Hc]. unfold configured.
  destruct o; simpl; try (split; assumption).
  unfold update. destruct (Num.eqb (direction p) 0); simpl; split; assumption.
Qed.

Lemma reachable_configured config p : reachable config p -> configured config p.
Proof.
  induction 1 as [| o p _ IH].
  - split; reflexivity.
  - apply run_configured, IH.
Qed.

Lemma setPositionX_in_bounds mouseX p :
  width p <= canvasWidth p -> in_bounds (setPositionX mouseX p).
Proof.
  intro H. unfold in_bounds, setPositionX, getX. simpl.
  apply NumFacts.clamp_bounds. lra.
Qed.

Lemma update_in_bounds p :
  width p <= canvasWidth p -> in_bounds p -> in_bounds (update p).
Proof.
  intros H Hp. unfold update.
  destruct (Num.eqb (direction p) 0); [assumption |].
  unfold in_bounds, getX. simpl.
  apply NumFacts.clamp_bounds. lra.
Qed.

Lemma reset_in_bounds p : width p <= canvasWidth p -> in_bounds (reset p).
Proof. intro H. unfold in_bounds, reset, getX. simpl. lra. Qed.

Lemma run_in_bounds o p :
  width p <= canvasWidth p -> in_bounds p -> in_bounds (run o p).
Proof.
  intros H Hp. destruct o; simpl.
  - apply reset_in_bounds, H.
  - exact Hp.
  - apply setPositionX_in_bounds, H.
  - apply update_in_bounds; assumption.
Qed.

End PaddleFacts.



(* ================================================================= *)
(** ** Brick: hits and destruction *)

Module BrickFacts.
Local Open Scope Z_scope.
Import Brick.

Lemma hit_durability b : durability (snd (hit b)) = durability b - 1.
Proof.
  unfold hit. simpl. destruct (durability b - 1 <=? 0); reflexivity.
Qed.

Lemma hit_flag b : fst (hit b) = (durability b - 1 <=? 0).
Proof.
  unfold hit. simpl. destruct (durability b - 1 <=? 0); reflexivity.
Qed.

Lemma hit_destroyed b :
  destroyed (snd (hit b)) = (durability b - 1 <=? 0) || destroyed b.
Proof.
  unfold hit. simpl. destruct (durability b - 1 <=? 0); reflexivity.
Qed.

Lemma hit_config b : config (snd (hit b)) = config b.
Proof.
  unfold hit. simpl. destruct (durability b - 1 <=? 0); reflexivity.
Qed.

Lemma hit_changes b : snd (hit b) <> b.
Proof.
  intro H. apply (f_equal durability) in H. rewrite hit_durability in H. lia.
Qed.

(** A brick is marked destroyed only once its durability is used up. *)
Lemma reachable_destroyed b :
  reachable b -> destroyed b = true -> durability b <= 0.
Proof.
  induction 1 as [x y w h ty | b Hb IH]; intro Hd.
  - discriminate.
  - rewrite hit_destroyed in Hd. rewrite hit_durability.
    destruct (Z.leb_spec (durability b - 1) 0) as [Hle | Hgt]; [exact Hle |].
    simpl in Hd. specialize (IH Hd). lia.
Qed.

End BrickFacts.

(** C10.  [hit()] is not a no-op on a destroyed brick.  It always
    decrements the durability, and it returns [true] exactly when the
    durability after the decrement is at most 0; a destroyed flag that is
    set stays set.  So for a brick already marked destroyed (durability
    used up), one more direct [hit()] leaves a negative durability and
    signals "destroyed" again. *)
Theorem hit_on_destroyed_brick (b : Brick.t) :
  (fst (Brick.hit b) = true <-> (Brick.durability (snd (Brick.hit b)) <= 0)%Z)
  /\ Brick.durability (snd (Brick.hit b)) = (Brick.durability b - 1)%Z
  /\ (Brick.isDestroyed b = true -> Brick.isDestroyed (snd (Brick.hit b)) = true)
  /\ (Brick.reachable b -> Brick.isDestroyed b = true ->
      fst (Brick.hit b) = true
      /\ (Brick.durability (snd (Brick.hit b)) < 0)%Z
      /\ snd (Brick.hit b) <> b).
Proof.
  split; [| split; [| split]].
  - rewrite BrickFacts.hit_flag, BrickFacts.hit_durability. apply Z.leb_le.
  - apply BrickFacts.hit_durability.
  - unfold Brick.isDestroyed. intro Hd.
    rewrite BrickFacts.hit_destroyed, Hd. apply orb_true_r.
  - intros Hreach Hd.
    pose proof (BrickFacts.reachable_destroyed Hreach Hd) as Hle.
    split; [| split].
    + rewrite BrickFacts.hit_flag. apply Z.leb_le. lia.
    + rewrite BrickFacts.hit_durability. lia.
    + apply BrickFacts.hit_changes.
Qed.

(** A normal brick, destroyed by its first hit and hit once more: the
    second hit reports "destroyed" again and the durability is -1. *)
Lemma hit_on_destroyed_brick_witness :
  let b := snd (Brick.hit (Brick.new 0 0 75 20 normal)) in
  Brick.isDestroyed b = true
  /\ fst (Brick.hit b) = true
  /\ (Brick.durability (snd (Brick.hit b)) < 0)%Z
  /\ snd (Brick.hit b) <> b.
Proof.
  intro b.
  assert (Hr : Brick.reachable b) by (apply Brick.reach_hit, Brick.reach_new).
  assert (Hd : Brick.isDestroyed b = true) by reflexivity.
  split; [exact Hd |].
  exact (proj2 (proj2 (proj2 (hit_on_destroyed_brick b))) Hr Hd).
Defined.

(* ================================================================= *)
(** ** Game: quit, restart and the scoreboard *)

Module GameFacts.
Local Open Scope Z_scope.
Import Game.

Lemma quit_restart g :
  state g = paused \/ state g = gameover \/ state g = clear ->
  quit g = restart g.
Proof.
  intros [H | [H | H]]; unfold quit; rewrite H; reflexivity.
Qed.

End GameFacts.

(** C8.  From [paused], [gameover] and [clear], [quit] and [restart] are
    the same state transformer, and the state they produce is the full
    reset: state [idle], score 0, the configured lives, stage 1, combo 0,
    the paddle centred at the bottom with no movement intent and the ball
    resting on it, unlaunched, with zero velocity. *)
Theorem quit_restart_same_reset (g : Game.t) :
  Game.state g = paused \/ Game.state g = gameover \/ Game.state g = clear ->
  Game.quit g = Game.restart g
  /\ Game.state (Game.quit g) = idle
  /\ Game.score (Game.quit g) = 0%Z
  /\ Game.lives (Game.quit g) = cfg_lives (Game.config g)
  /\ Game.stage (Game.quit g) = 1%Z
  /\ Game.combo (Game.quit g) = 0%Z
  /\ Game.paddle (Game.quit g) = Paddle.reset (Game.paddle g)
  /\ Game.ball (Game.quit g) = Ball.reset (Paddle.reset (Game.paddle g)) (Game.ball g)
  /\ Paddle.position (Game.paddle (Game.quit g))
     = {| px := (Paddle.canvasWidth (Game.paddle g) - Paddle.width (Game.paddle g)) / 2;
          py := Paddle.canvasHeight (Game.paddle g) - 50 |}
  /\ Paddle.direction (Game.paddle (Game.quit g)) = 0%R
  /\ Ball.velocity (Game.ball (Game.quit g)) = {| dx := 0; dy := 0 |}
  /\ Ball.launched (Game.ball (Game.quit g)) = false
  /\ Ball.position (Game.ball (Game.quit g))
     = {| px := Paddle.getCenterX (Paddle.reset (Game.paddle g));
          py := Paddle.getY (Paddle.reset (Game.paddle g))
                - Ball.radius (Game.ball g) - 1 |}.
Proof.
  intro H. rewrite (GameFacts.quit_restart g H).
  unfold Game.restart. simpl. repeat split.
Qed.

Lemma quit_restart_same_reset_witness :
  let g := Game.with_combo
             (Game.with_score (Game.with_state (Game.new DEFAULT_CONFIG) gameover) 120)
             7 in
  Game.quit g = Game.restart g /\ Game.score (Game.quit g) = 0%Z.
Proof.
  intro g.
  assert (H : Game.state g = paused \/ Game.state g = gameover \/ Game.state g = clear)
    by (right; left; reflexivity).
  split.
  - exact (proj1 (quit_restart_same_reset g H)).
  - exact (proj1 (proj2 (proj2 (quit_restart_same_reset g H)))).
Defined.

Module ScoreboardFacts.
Import Game.

(** The fields of the match that the scoreboard overlay must not touch. *)
Definition same_match (g g' : t) : Prop :=
  paddle g' = paddle g /\ ball g' = ball g
  /\ brickManager g' = brickManager g /\ score g' = score g
  /\ lives g' = lives g /\ stage g' = stage g /\ combo g' = combo g
  /\ config g' = config g.

Lemma enter_scores r1 r2 g :
  state g = idle \/ state g = gameover \/ state g = clear ->
  handleKeyDown "KeyS" r1 r2 g
  = with_state
      (with_previousState (with_keys g (set_key "KeyS" true (keys g))) (state g))
      scores.
Proof.
  intros [H | [H | H]]; unfold handleKeyDown; simpl; rewrite H; reflexivity.
Qed.

Lemma leave_scores_toggle r1 r2 g :
  state g = scores ->
  handleKeyDown "KeyS" r1 r2 g
  = with_state (with_keys g (set_key "KeyS" true (keys g))) (previousState g).
Proof. intro H. unfold handleKeyDown; simpl; rewrite H; reflexivity. Qed.

Lemma leave_scores_cancel r1 r2 g :
  state g = scores ->
  handleKeyDown "Escape" r1 r2 g
  = with_state (with_keys g (set_key "Escape" true (keys g))) (previousState g).
Proof. intro H. unfold handleKeyDown; simpl; rewrite H; reflexivity. Qed.

End ScoreboardFacts.

(** C9.  From [idle], [gameover] and [clear] the scoreboard key enters
    [scores]; pressing it again, or the cancel key, returns to the state
    the overlay was entered from (from [gameover] back to [gameover], not
    to [idle]) and leaves the match untouched. *)
Theorem scoreboard_round_trip (g : Game.t) (r1 r2 r1' r2' : R) :
  Game.state g = idle \/ Game.state g = gameover \/ Game.state g = clear ->
  let g1 := Game.handleKeyDown "KeyS" r1 r2 g in
  Game.state g1 = scores
  /\ Game.previousState g1 = Game.state g
  /\ Game.state (Game.handleKeyDown "KeyS" r1' r2' g1) = Game.state g
  /\ Game.state (Game.handleKeyDown "Escape" r1' r2' g1) = Game.state g
  /\ ScoreboardFacts.same_match g (Game.handleKeyDown "KeyS" r1' r2' g1)
  /\ ScoreboardFacts.same_match g (Game.handleKeyDown "Escape" r1' r2' g1).
Proof.
  intros H g1. subst g1.
  rewrite (ScoreboardFacts.enter_scores r1 r2 g H).
  rewrite ScoreboardFacts.leave_scores_toggle by reflexivity.
  rewrite ScoreboardFacts.leave_scores_cancel by reflexivity.
  unfold ScoreboardFacts.same_match. simpl. repeat split.
Qed.

(** Entered from [gameover], the overlay returns to [gameover]. *)
Lemma scoreboard_round_trip_witness :
  let g := Game.with_state (Game.new DEFAULT_CONFIG) gameover in
  Game.state
    (Game.handleKeyDown "Escape" 0 0 (Game.handleKeyDown "KeyS" 0 0 g))
  = gameover
  /\ Game.state
       (Game.handleKeyDown "KeyS" 0 0 (Game.handleKeyDown "KeyS" 0 0 g))
     = gameover.
Proof.
  intro g.
  assert (H : Game.state g = idle \/ Game.state g = gameover \/ Game.state g = clear)
    by (right; left; reflexivity).
  pose proof (scoreboard_round_trip g 0 0 0 0 H) as (_ & _ & Ht & Hc & _).
  split; [exact Hc | exact Ht].
Defined.

(* ================================================================= *)
(** ** Ball: the per-tick update *)

Module BallFacts.
Local Open Scope R_scope.
Import Ball.

(** The ball after position integration and wall reflection. *)
Definition afterWalls (b : t) : t :=
  bounceTopWall (bounceSideWalls (integrate b)).

Lemma update_launched paddle b :
  launched b = true ->
  update paddle b
  = if Num.gtb (y (afterWalls b) - radius (afterWalls b)) (canvasHeight (afterWalls b))
    then (ResLost, afterWalls b)
    else (ResPlaying, checkPaddleCollision paddle (afterWalls b)).
Proof. intro H. unfold update. rewrite H. reflexivity. Qed.

Lemma afterWalls_radius b : radius (afterWalls b) = radius b.
Proof.
  unfold afterWalls, bounceTopWall, bounceSideWalls.
  repeat match goal with |- context [if ?c then _ else _] => destruct c end;
    reflexivity.
Qed.

Lemma afterWalls_canvasHeight b : canvasHeight (afterWalls b) = canvasHeight b.
Proof.
  unfold afterWalls, bounceTopWall, bounceSideWalls.
  repeat match goal with |- context [if ?c then _ else _] => destruct c end;
    reflexivity.
Qed.

(** Away from the side walls and the top wall, integration is all that
    happens before the loss test. *)
Lemma afterWalls_free b :
  0 < x b + vx b - radius b ->
  x b + vx b + radius b < canvasWidth b ->
  0 < y b + vy b - radius b ->
  afterWalls b = integrate b.
Proof.
  intros H1 H2 H3. unfold afterWalls.
  assert (E1 : bounceSideWalls (integrate b) = integrate b).
  { unfold bounceSideWalls, integrate, x, y, vx, vy in *. simpl.
    num_decide. reflexivity. }
  rewrite E1. unfold bounceTopWall, integrate, x, y, vx, vy in *. simpl.
  num_decide. reflexivity.
Qed.

(** The paddle is not touched by a ball that moves up or is still above
    it. *)
Lemma checkPaddleCollision_clear paddle b :
  vy b <= 0 \/ y b + radius b < Paddle.getY paddle ->
  checkPaddleCollision paddle b = b.
Proof.
  intros [H | H]; unfold checkPaddleCollision; num_decide;
    repeat match goal with
           | |- context [Num.ltb ?a ?c] => destruct (Num.ltb a c)
           | |- context [Num.leb ?a ?c] => destruct (Num.leb a c)
           end; reflexivity.
Qed.

(** A launched ball in free flight: one Euler step and nothing else. *)
Lemma update_free_flight paddle b :
  launched b = true ->
  0 < x b + vx b - radius b ->
  x b + vx b + radius b < canvasWidth b ->
  0 < y b + vy b - radius b ->
  y b + vy b - radius b <= canvasHeight b ->
  vy b <= 0 \/ y b + vy b + radius b < Paddle.getY paddle ->
  update paddle b = (ResPlaying, integrate b).
Proof.
  intros Hl H1 H2 H3 H4 H5.
  rewrite update_launched by exact Hl.
  rewrite afterWalls_free by assumption.
  assert (E : Num.gtb (y (integrate b) - radius (integrate b))
                (canvasHeight (integrate b)) = false).
  { unfold integrate, x, y, vx, vy in *. simpl. num_decide. reflexivity. }
  rewrite E. f_equal. apply checkPaddleCollision_clear.
  unfold integrate, x, y, vx, vy in *. simpl. exact H5.
Qed.

(** A ball in flight near the bottom of the default canvas. *)
Definition lowBall : t :=
  {| position := {| px := 400; py := 593 |};
     velocity := {| dx := 0; dy := 5 |};
     radius := 8; initialSpeed := 5; maxSpeed := 10;
     canvasWidth := 800; canvasHeight := 600;
     launched := true |}.

Lemma afterWalls_lowBall :
  afterWalls lowBall = with_y lowBall 598.
Proof.
  rewrite afterWalls_free by (unfold lowBall; ball_fields; lra).
  unfold integrate, lowBall. ball_fields. do 2 f_equal; lra.
Qed.

End BallFacts.

(** C1, as the code has it.  For a launched ball, [update(paddle)] returns
    ['lost'] exactly when, after position integration and wall reflection,
    the ball's top edge [y - radius] is strictly below the canvas height,
    that is once the whole ball has left the canvas; and when it returns
    ['lost'] the ball is left as integration and wall reflection made it:
    no paddle-collision check, no further change of position or
    velocity. *)
Theorem update_lost_signal (paddle : Paddle.t) (b : Ball.t) :
  Ball.launched b = true ->
  let b' := Ball.bounceTopWall (Ball.bounceSideWalls (Ball.integrate b)) in
  (fst (Ball.update paddle b) = Ball.ResLost
   <-> (Ball.canvasHeight b < Ball.y b' - Ball.radius b)%R)
  /\ (fst (Ball.update paddle b) = Ball.ResLost -> snd (Ball.update paddle b) = b')
  /\ (fst (Ball.update paddle b) = Ball.ResPlaying ->
      snd (Ball.update paddle b) = Ball.checkPaddleCollision paddle b').
Proof.
  intros Hl b'. fold (BallFacts.afterWalls b) in b'. subst b'.
  rewrite (BallFacts.update_launched paddle b Hl).
  rewrite BallFacts.afterWalls_radius, BallFacts.afterWalls_canvasHeight.
  destruct (NumFacts.gtb_spec
              (Ball.y (BallFacts.afterWalls b) - Ball.radius b)
              (Ball.canvasHeight b)) as [Hgt | Hle]; simpl.
  - repeat split; intros; try assumption; try reflexivity; discriminate.
  - repeat split; intros; try discriminate; try reflexivity. contradiction.
Qed.

(** A ball whose top edge is 601 after the move, on the default canvas
    of height 600: lost. *)
Lemma update_lost_signal_witness :
  let b := Ball.with_y BallFacts.lowBall 604 in
  fst (Ball.update (Paddle.new DEFAULT_CONFIG) b) = Ball.ResLost.
Proof.
  intro b.
  assert (Hl : Ball.launched b = true) by reflexivity.
  apply (proj1 (update_lost_signal (Paddle.new DEFAULT_CONFIG) b Hl)).
  fold (BallFacts.afterWalls b).
  rewrite BallFacts.afterWalls_free
    by (unfold b, BallFacts.lowBall; ball_fields; lra).
  unfold Ball.integrate, b, BallFacts.lowBall. ball_fields. lra.
Defined.

(** C1, as the specification words it, fails: on the default canvas
    (height 600) a ball of radius 8 moving down from [y = 593] at 5 per
    tick has its bottom edge at 606 after the move, past the canvas
    height, yet [update] answers ['playing'] (its top edge, 590, is still
    on the canvas). *)
Lemma update_lost_signal_bottom_edge_counterexample :
  let paddle := Paddle.new DEFAULT_CONFIG in
  let b := BallFacts.lowBall in
  let b' := Ball.bounceTopWall (Ball.bounceSideWalls (Ball.integrate b)) in
  Ball.launched b = true
  /\ (Ball.canvasHeight b < Ball.y b' + Ball.radius b)%R
  /\ fst (Ball.update paddle b) = Ball.ResPlaying
  /\ ~ (fst (Ball.update paddle b) = Ball.ResLost
        <-> (Ball.canvasHeight b < Ball.y b' + Ball.radius b)%R).
Proof.
  intros paddle b b'.
  assert (Hb' : b' = Ball.with_y BallFacts.lowBall 598)
    by apply BallFacts.afterWalls_lowBall.
  assert (Hedge : (Ball.canvasHeight b < Ball.y b' + Ball.radius b)%R).
  { rewrite Hb'. unfold Ball.y, b, BallFacts.lowBall. simpl. lra. }
  assert (Hres : fst (Ball.update paddle b) = Ball.ResPlaying).
  { rewrite BallFacts.update_launched by reflexivity.
    fold b. fold b' in Hb'. change (BallFacts.afterWalls b) with b'.
    rewrite Hb'. unfold Ball.y, BallFacts.lowBall. simpl.
    num_decide. reflexivity. }
  split; [reflexivity |]. split; [exact Hedge |]. split; [exact Hres |].
  intros [_ Hback]. specialize (Hback Hedge). rewrite Hres in Hback. discriminate.
Qed.

(* ================================================================= *)
(** ** Ball: the speed magnitude *)

Module BallSpeed.
Local Open Scope R_scope.
Import Ball.














(** The invariant of a ball built from [config]. *)
Definition inv (config : GameConfig) (b : t) : Prop :=
  initialSpeed b = ball_initialSpeed config
  /\ maxSpeed b = ball_maxSpeed config
  /\ (launched b = true -> initialSpeed b <= speed b <= maxSpeed b).

Section Invariant.
Variable config : GameConfig.
Hypothesis Hconfig : 0 < ball_initialSpeed config <= ball_maxSpeed config.









End Invariant.

End BallSpeed.

(* ================================================================= *)
(** ** Ball: the speed under rounding *)

(** The ball once more, with the rounding of the arithmetic written
    out.  Every [+], [-], [*], [/] and [Math.sqrt] of the source is
    followed by [rnd], the rounding of the exact result to a [number];
    [Math.sin], [Math.cos] and [Math.PI] are what the library returns;
    the literals [0.7] and [1.02], which are not representable, are
    rounded.  Comparisons, [Math.abs], [Math.min], [Math.max] and the
    unary minus are exact on [number]s.  With [rnd] the identity and
    the exact [sin], [cos] and [PI] this is [Ball].  Overflow, underflow
    and NaN are not modelled. *)
Module Rounded.
Local Open Scope R_scope.
Import Ball.

Section Arithmetic.
Variable rnd : R -> R.
Variables Math_sin Math_cos : R -> R.
Variable Math_PI : R.

Definition add (a b : R) : R := rnd (a + b).
Definition sub (a b : R) : R := rnd (a - b).
Definition mul (a b : R) : R := rnd (a * b).
Definition div (a b : R) : R := rnd (a / b).
Definition Math_sqrt (a : R) : R := rnd (sqrt a).

(** [paddle.getCenterX()]: [this.position.x + this.width / 2]. *)
Definition getCenterX (paddle : Paddle.t) : R :=
  add (Paddle.getX paddle) (div (Paddle.getWidth paddle) 2).

Definition reset (paddle : Paddle.t) (b : t) : t :=
  with_launched
    (with_velocity
       (with_position b {| px := getCenterX paddle;
                           py := sub (sub (Paddle.getY paddle) (radius b)) 1 |})
       {| dx := 0; dy := 0 |})
    false.

Definition launch (r1 r2 : R) (b : t) : t :=
  if launched b then b
  else
    let angle := mul (add (mul r1 60) 60) (div Math_PI 180) in
    with_launched
      (with_velocity b
         {| dx := mul (mul (initialSpeed b) (Math_cos angle))
                      (if Num.gtb r2 0.5 then 1 else -1);
            dy := mul (- initialSpeed b) (Math_sin angle) |})
      true.

Definition integrate (b : t) : t :=
  let b := with_x b (add (x b) (vx b)) in
  with_y b (add (y b) (vy b)).

Definition bounceSideWalls (b : t) : t :=
  if Num.leb (sub (x b) (radius b)) 0 then
    let b := with_x b (radius b) in
    with_dx b (Rabs (vx b))
  else if Num.geb (add (x b) (radius b)) (canvasWidth b) then
    let b := with_x b (sub (canvasWidth b) (radius b)) in
    with_dx b (- Rabs (vx b))
  else b.

Definition bounceTopWall (b : t) : t :=
  if Num.leb (sub (y b) (radius b)) 0 then
    let b := with_y b (radius b) in
    with_dy b (Rabs (vy b))
  else b.

Definition checkPaddleCollision (paddle : Paddle.t) (b : t) : t :=
  let paddleX := Paddle.getX paddle in
  let paddleY := Paddle.getY paddle in
  let paddleWidth := Paddle.getWidth paddle in
  let paddleHeight := Paddle.getHeight paddle in
  if Num.gtb (vy b) 0
     && Num.geb (add (y b) (radius b)) paddleY
     && Num.leb (add (y b) (radius b)) (add paddleY paddleHeight)
     && Num.geb (x b) paddleX
     && Num.leb (x b) (add paddleX paddleWidth)
  then
    let hitPosition := div (sub (x b) paddleX) paddleWidth in
    let angle := mul (mul (sub hitPosition 0.5) Math_PI) (rnd 0.7) in
    let speed := Math_sqrt (add (mul (vx b) (vx b)) (mul (vy b) (vy b))) in
    let newSpeed := Rmin (mul speed (rnd 1.02)) (maxSpeed b) in
    let b := with_dx b (mul newSpeed (Math_sin angle)) in
    let b := with_dy b (mul (- newSpeed) (Math_cos angle)) in
    with_y b (sub paddleY (radius b))
  else b.

Definition update (paddle : Paddle.t) (b : t) : result * t :=
  if negb (launched b) then
    let b := with_x b (getCenterX paddle) in
    let b := with_y b (sub (sub (Paddle.getY paddle) (radius b)) 1) in
    (ResPlaying, b)
  else
    let b := integrate b in
    let b := bounceSideWalls b in
    let b := bounceTopWall b in
    if Num.gtb (sub (y b) (radius b)) (canvasHeight b) then (ResLost, b)
    else (ResPlaying, checkPaddleCollision paddle b).

Definition checkBrickCollision
    (brickX brickY brickWidth brickHeight : R) (b : t) : bool * t :=
  let closestX := Rmax brickX (Rmin (x b) (add brickX brickWidth)) in
  let closestY := Rmax brickY (Rmin (y b) (add brickY brickHeight)) in
  let distanceX := sub (x b) closestX in
  let distanceY := sub (y b) closestY in
  let distance :=
    Math_sqrt (add (mul distanceX distanceX) (mul distanceY distanceY)) in
  if Num.ltb distance (radius b) then
    let overlapX := sub (radius b) (Rabs distanceX) in
    let overlapY := sub (radius b) (Rabs distanceY) in
    if Num.ltb overlapX overlapY then
      let b := with_dx b (- vx b) in
      let b := with_x b (add (x b) (if Num.gtb distanceX 0 then overlapX else - overlapX)) in
      (true, b)
    else
      let b := with_dy b (- vy b) in
      let b := with_y b (add (y b) (if Num.gtb distanceY 0 then overlapY else - overlapY)) in
      (true, b)
  else (false, b).

Definition run (o : op) (b : t) : t :=
  match o with
  | OpReset p => reset p b
  | OpLaunch r1 r2 => launch r1 r2 b
  | OpUpdate p => snd (update p b)
  | OpCheckBrickCollision bx by_ bw bh => snd (checkBrickCollision bx by_ bw bh b)
  end.

Inductive reachable (config : GameConfig) : t -> Prop :=
| reach_new : reachable config (new config)
| reach_run o b : reachable config b -> reachable config (run o b).

End Arithmetic.

(** Without rounding error the rounded ball is the ball. *)
Lemma exact_run o b : run (fun x => x) sin cos PI o b = Ball.run o b.
Proof. destruct o; reflexivity. Qed.

Lemma exact_reachable config b :
  reachable (fun x => x) sin cos PI config b <-> Ball.reachable config b.
Proof.
  split; induction 1 as [| o b _ IH].
  - apply Ball.reach_new.
  - rewrite exact_run. apply Ball.reach_run, IH.
  - apply reach_new.
  - rewrite <- exact_run. apply reach_run, IH.
Qed.

End Rounded.

Module RoundedFacts.
Local Open Scope R_scope.
Import Ball.

(** The tolerance on the speed bounds, for a unit roundoff [u]. *)
Definition tol (u : R) : R := 32 * u.

Section Analysis.
Variable u : R.
Variable rnd : R -> R.
Variables Math_sin Math_cos : R -> R.
Variable Math_PI : R.

(** Every operation rounds with a relative error of at most [u]; the
    library sine and cosine are accurate to [2 * u]. *)
Hypothesis Hu : 0 <= u <= / 4096.
Hypothesis Hrnd : forall x, Rabs (rnd x - x) <= u * Rabs x.
Hypothesis Hsin : forall x, Rabs (Math_sin x - sin x) <= 2 * u.
Hypothesis Hcos : forall x, Rabs (Math_cos x - cos x) <= 2 * u.





Lemma rnd_abs x : Rabs (rnd x) <= Rabs x * (1 + u).
Proof.
  pose proof (Hrnd x) as H.
  replace (rnd x) with ((rnd x - x) + x) by ring.
  eapply Rle_trans; [apply Rabs_triang |]. lra.
Qed.










(** *** The invariant *)

Variable config : GameConfig.
Hypothesis Hconfig : 0 < ball_initialSpeed config <= ball_maxSpeed config.

Definition inv (b : t) : Prop :=
  initialSpeed b = ball_initialSpeed config
  /\ maxSpeed b = ball_maxSpeed config
  /\ (launched b = true ->
      ball_initialSpeed config * (1 - tol u) <= speed b
      <= ball_maxSpeed config * (1 + tol u)).








(** The walls of [update], before the paddle. *)
Definition afterWalls (b : t) : t :=
  Rounded.bounceTopWall rnd (Rounded.bounceSideWalls rnd (Rounded.integrate rnd b)).







End Analysis.

End RoundedFacts.



(* ================================================================= *)
(** ** Ball: the speed in doubles *)

(** The velocity computations of [launch] and of the paddle bounce in
    binary64, the arithmetic of a JavaScript [number].  [Math.cos] and
    [Math.sin] are library calls: their results for the angle are
    arguments. *)
Module Double.
Import PrimFloat.
Local Open Scope float_scope.

Definition Math_PI : float := 0x1.921fb54442d18p+1.


(** The velocity [launch] stores; [cosAngle] and [sinAngle] are
    [Math.cos(angle)] and [Math.sin(angle)]. *)
Definition launchVelocity (initialSpeed cosAngle sinAngle r2 : float)
  : float * float :=
  (initialSpeed * cosAngle * (if 0.5 <? r2 then 1 else -1),
   - initialSpeed * sinAngle).

(** [Math.sqrt(dx * dx + dy * dy)]. *)
Definition speed (v : float * float) : float :=
  sqrt (fst v * fst v + snd v * snd v).

(** [Math.min] on two numbers that are not NaN. *)
Definition Math_min (a b : float) : float := if a <? b then a else b.

(** [(hitPosition - 0.5) * Math.PI * 0.7]. *)
Definition bounceAngle (x paddleX paddleWidth : float) : float :=
  ((x - paddleX) / paddleWidth - 0.5) * Math_PI * 0x1.6666666666666p-1.

(** The velocity a paddle bounce stores; [sinAngle] and [cosAngle] are
    [Math.sin(angle)] and [Math.cos(angle)]. *)
Definition bounceVelocity (maxSpeed sinAngle cosAngle : float)
    (v : float * float) : float * float :=
  let newSpeed := Math_min (speed v * 0x1.051eb851eb852p+0) maxSpeed in
  (newSpeed * sinAngle, - newSpeed * cosAngle).

(** The default speeds, and two runs: a launch with the draws 0.1875
    and 0.75, and a bounce of a ball of velocity (6, 8) on the default
    paddle (x = 350, width 100) at x = 380. *)
Definition initialSpeed : float := 5.
Definition maxSpeed : float := 10.

Definition draw2 : float := 0.75.
(** [Math.cos] and [Math.sin] of [launchAngle draw1]. *)
Definition launchCos : float := 0x1.49276d5c7bb4ap-2.
Definition launchSin : float := 0x1.e4d406a38e9aap-1.
Definition launched : float * float :=
  launchVelocity initialSpeed launchCos launchSin draw2.

Definition incoming : float * float := (6, 8).
Definition paddleX : float := 350.
Definition paddleWidth : float := 100.
(** [Math.sin] and [Math.cos] of [bounceAngle hitX paddleX paddleWidth]. *)
Definition bounceSin : float := -0x1.b3ff7c925819bp-2.
Definition bounceCos : float := 0x1.cf457dcdc158cp-1.
Definition bounced : float * float :=
  bounceVelocity maxSpeed bounceSin bounceCos incoming.



End Double.


(* ================================================================= *)
(** ** Game: the brick collision scan *)

Module ListFacts.

Lemma list_set_length {A} i (v : A) l : length (list_set i v l) = length l.
Proof.
  revert i. induction l as [| hd tl IH]; intros [| i]; simpl; try reflexivity.
  now rewrite IH.
Qed.

Lemma nth_error_list_set_eq {A} i (v : A) l :
  (i < length l)%nat -> nth_error (list_set i v l) i = Some v.
Proof.
  revert i. induction l as [| hd tl IH]; intros [| i] H; simpl in *; try lia.
  - reflexivity.
  - apply IH. lia.
Qed.

Lemma nth_error_list_set_neq {A} i j (v : A) l :
  j <> i -> nth_error (list_set i v l) j = nth_error l j.
Proof.
  revert i j. induction l as [| hd tl IH]; intros [| i] [| j] H; simpl;
    try reflexivity; try congruence.
  apply IH. congruence.
Qed.

(** In a filtered range, what stands before an element is all that the
    filter keeps below it. *)
Lemma filter_seq_prefix (f : nat -> bool) n :
  forall a pre i post,
    filter f (seq a n) = pre ++ i :: post ->
    forall j, (a <= j < i)%nat -> f j = true -> In j pre.
Proof.
  induction n as [| n IH]; intros a pre i post Heq j Hj Hf; simpl in Heq.
  - destruct pre; discriminate.
  - destruct (f a) eqn:Hfa.
    + destruct pre as [| p pre']; simpl in Heq.
      * injection Heq as Hi _. lia.
      * injection Heq as Hp Hrest. subst p.
        destruct (Nat.eq_dec j a) as [-> | Hne]; [left; reflexivity | right].
        apply (IH (S a) pre' i post Hrest); [lia | exact Hf].
    + destruct (Nat.eq_dec j a) as [-> | Hne]; [congruence |].
      apply (IH (S a) pre i post Heq); [lia | exact Hf].
Qed.

End ListFacts.

Module ScanFacts.
Local Open Scope Z_scope.
Import Game.

(** The answer and the effect of [ball.checkBrickCollision] for a brick. *)
Definition collides (ball : Ball.t) (brick : Brick.t) : bool :=
  fst (Ball.checkBrickCollision (Brick.getX brick) (Brick.getY brick)
         (Brick.getWidth brick) (Brick.getHeight brick) ball).

Definition bounced (ball : Ball.t) (brick : Brick.t) : Ball.t :=
  snd (Ball.checkBrickCollision (Brick.getX brick) (Brick.getY brick)
         (Brick.getWidth brick) (Brick.getHeight brick) ball).

Definition bricksOf (g : t) : list Brick.t := BrickManager.bricks (brickManager g).

(** Brick [i] is the first active brick, in array order, that the ball
    overlaps. *)
Definition first_hit (g : t) (i : nat) (brick : Brick.t) : Prop :=
  nth_error (bricksOf g) i = Some brick
  /\ Brick.isDestroyed brick = false
  /\ collides (ball g) brick = true
  /\ forall j bj, (j < i)%nat -> nth_error (bricksOf g) j = Some bj ->
                  Brick.isDestroyed bj = false -> collides (ball g) bj = false.

(** The ball overlaps no active brick. *)
Definition no_hit (g : t) : Prop :=
  forall j bj, nth_error (bricksOf g) j = Some bj ->
               Brick.isDestroyed bj = false -> collides (ball g) bj = false.

Lemma miss_keeps_ball ball brick :
  collides ball brick = false -> bounced ball brick = ball.
Proof.
  unfold collides, bounced, Ball.checkBrickCollision.
  repeat match goal with
         | |- context [if Num.ltb ?a ?c then _ else _] => destruct (Num.ltb a c)
         end; simpl; intro H; try discriminate; reflexivity.
Qed.

Lemma with_ball_same g : with_ball g (ball g) = g.
Proof. destruct g; reflexivity. Qed.

Lemma active_ref m i :
  In i (BrickManager.getActiveBricks m) ->
  exists brick, nth_error (BrickManager.bricks m) i = Some brick
                /\ Brick.isDestroyed brick = false.
Proof.
  unfold BrickManager.getActiveBricks. intro H.
  apply filter_In in H as [_ H].
  destruct (nth_error (BrickManager.bricks m) i) as [brick |]; [| discriminate].
  exists brick. split; [reflexivity |]. now apply negb_true_iff.
Qed.

Lemma ref_active m i brick :
  nth_error (BrickManager.bricks m) i = Some brick ->
  Brick.isDestroyed brick = false ->
  In i (BrickManager.getActiveBricks m).
Proof.
  intros Hn Hd. unfold BrickManager.getActiveBricks.
  apply filter_In. split.
  - apply in_seq. split; [lia |]. simpl. apply nth_error_Some. congruence.
  - rewrite Hn, Hd. reflexivity.
Qed.

(** What the loop does on a list of references: nothing when the ball
    misses every referenced brick; otherwise it resolves the first
    referenced brick the ball overlaps and stops. *)
Inductive scan_outcome (refs : list nat) (g : t) : t -> Prop :=
| scan_miss :
    (forall i brick, In i refs -> nth_error (bricksOf g) i = Some brick ->
                     collides (ball g) brick = false) ->
    scan_outcome refs g g
| scan_hit pre i post brick :
    refs = pre ++ i :: post ->
    nth_error (bricksOf g) i = Some brick ->
    collides (ball g) brick = true ->
    (forall j bj, In j pre -> nth_error (bricksOf g) j = Some bj ->
                  collides (ball g) bj = false) ->
    scan_outcome refs g
      (resolveHit i brick (with_ball g (bounced (ball g) brick))).

Lemma scanBricks_outcome refs g : scan_outcome refs g (scanBricks refs g).
Proof.
  induction refs as [| i rest IH]; simpl.
  - apply scan_miss. intros ? ? [].
  - fold (bricksOf g).
    destruct (nth_error (bricksOf g) i) as [brick |] eqn:Hn.
    + pose proof (miss_keeps_ball (ball g) brick) as Hmiss.
      unfold collides, bounced in Hmiss.
      destruct (Ball.checkBrickCollision (Brick.getX brick) (Brick.getY brick)
                  (Brick.getWidth brick) (Brick.getHeight brick) (ball g))
        as [hit ball'] eqn:Hc.
      simpl in Hmiss. destruct hit.
      * replace ball' with (bounced (ball g) brick)
          by (unfold bounced; rewrite Hc; reflexivity).
        apply (@scan_hit (i :: rest) g [] i rest brick); try reflexivity.
        -- exact Hn.
        -- unfold collides. rewrite Hc. reflexivity.
        -- intros ? ? [].
      * rewrite (Hmiss eq_refl), with_ball_same.
        destruct IH as [Hall | pre k post bk Hrefs Hk Hck Hpre].
        -- apply scan_miss. intros j bj [<- | Hj] Hbj.
           ++ assert (bj = brick) by congruence. subst bj.
              unfold collides. rewrite Hc. reflexivity.
           ++ apply (Hall j bj Hj Hbj).
        -- apply (@scan_hit (i :: rest) g (i :: pre) k post bk); try assumption.
           ++ rewrite Hrefs. reflexivity.
           ++ intros j bj [<- | Hj] Hbj.
              ** assert (bj = brick) by congruence. subst bj.
                 unfold collides. rewrite Hc. reflexivity.
              ** apply (Hpre j bj Hj Hbj).
    + destruct IH as [Hall | pre k post bk Hrefs Hk Hck Hpre].
      * apply scan_miss. intros j bj [<- | Hj] Hbj; [congruence |].
        apply (Hall j bj Hj Hbj).
      * apply (@scan_hit (i :: rest) g (i :: pre) k post bk); try assumption.
        -- rewrite Hrefs. reflexivity.
        -- intros j bj [<- | Hj] Hbj; [congruence |]. apply (Hpre j bj Hj Hbj).
Qed.

(** The two outcomes of [checkBrickCollisions]. *)
Lemma checkBrickCollisions_cases g :
  (no_hit g /\ checkBrickCollisions g = g)
  \/ exists i brick,
       first_hit g i brick
       /\ checkBrickCollisions g
          = resolveHit i brick (with_ball g (bounced (ball g) brick)).
Proof.
  unfold checkBrickCollisions.
  destruct (scanBricks_outcome (BrickManager.getActiveBricks (brickManager g)) g)
    as [Hall | pre i post brick Hrefs Hn Hc Hpre].
  - left. split; [| reflexivity].
    intros j bj Hj Hd. apply (Hall j bj); [| exact Hj].
    apply (ref_active _ _ Hj Hd).
  - right. exists i, brick. split; [| reflexivity].
    assert (Hin : In i (BrickManager.getActiveBricks (brickManager g)))
      by (rewrite Hrefs; apply in_elt).
    destruct (active_ref _ _ Hin) as (b' & Hb' & Hd').
    unfold bricksOf in Hn. assert (b' = brick) by congruence. subst b'.
    repeat split; try assumption.
    intros j bj Hlt Hj Hd. apply (Hpre j bj); [| exact Hj].
    unfold BrickManager.getActiveBricks in Hrefs.
    eapply ListFacts.filter_seq_prefix; [exact Hrefs | lia |].
    unfold bricksOf in Hj. cbv beta. rewrite Hj, Hd. reflexivity.
Qed.

Lemma first_hit_unique g i brick i' brick' :
  first_hit g i brick -> first_hit g i' brick' -> i = i' /\ brick = brick'.
Proof.
  intros (Hn & Hd & Hc & Hpre) (Hn' & Hd' & Hc' & Hpre').
  destruct (Nat.lt_trichotomy i i') as [Hlt | [-> | Hlt]].
  - rewrite (Hpre' i brick Hlt Hn Hd) in Hc. discriminate.
  - split; [reflexivity | congruence].
  - rewrite (Hpre i' brick' Hlt Hn' Hd') in Hc'. discriminate.
Qed.

Lemma checkBrickCollisions_first_hit g i brick :
  first_hit g i brick ->
  checkBrickCollisions g
  = resolveHit i brick (with_ball g (bounced (ball g) brick)).
Proof.
  intro H. destruct (checkBrickCollisions_cases g) as [[Hno _] | (i' & b' & H' & E)].
  - destruct H as (Hn & Hd & Hc & _). rewrite (Hno i brick Hn Hd) in Hc. discriminate.
  - destruct (first_hit_unique H' H) as [-> ->]. exact E.
Qed.

(** The effect of resolving a hit on the fields of the match. *)
Lemma resolveHit_bricks i brick g :
  bricksOf (resolveHit i brick g) = list_set i (snd (Brick.hit brick)) (bricksOf g).
Proof.
  unfold resolveHit. destruct (Brick.hit brick) as [[|] brick']; reflexivity.
Qed.

Lemma resolveHit_destroyed i brick g :
  fst (Brick.hit brick) = true ->
  combo (resolveHit i brick g) = combo g + 1
  /\ score (resolveHit i brick g)
     = score g + Qfloor (inject_Z (Brick.getScore brick)
                         * comboMultiplier (combo g + 1)).
Proof.
  unfold resolveHit. pose proof (BrickFacts.hit_config brick) as Hcfg.
  destruct (Brick.hit brick) as [d brick']. simpl in *. intros ->. simpl.
  unfold Brick.getScore. rewrite Hcfg. split; reflexivity.
Qed.

Lemma resolveHit_damaged i brick g :
  fst (Brick.hit brick) = false ->
  combo (resolveHit i brick g) = combo g /\ score (resolveHit i brick g) = score g.
Proof.
  unfold resolveHit. destruct (Brick.hit brick) as [d brick']. simpl.
  intros ->. split; reflexivity.
Qed.

End ScanFacts.

Module UpdateFacts.
Local Open Scope Z_scope.
Import Game.

(** The first half of [update]: the paddle and the ball have moved. *)
Definition ballResult (g : t) : Ball.result :=
  fst (Ball.update (Paddle.update (paddle g)) (ball g)).

Definition afterBall (g : t) : t :=
  with_ball (with_paddle g (Paddle.update (paddle g)))
    (snd (Ball.update (Paddle.update (paddle g)) (ball g))).

(** The second half when the ball is still in play. *)
Definition afterScan (g : t) : t := checkBrickCollisions (afterBall g).

Lemma update_lost g :
  ballResult g = Ball.ResLost -> update g = handleBallLost (afterBall g).
Proof.
  unfold update, ballResult, afterBall.
  cbn [paddle ball with_paddle].
  destruct (Ball.update (Paddle.update (paddle g)) (ball g)) as [r b'].
  cbn [fst snd]. intros ->. reflexivity.
Qed.

Lemma update_alive g :
  ballResult g = Ball.ResPlaying ->
  update g
  = if (BrickManager.getRemainingCount (brickManager (afterScan g)) =? 0)%nat
    then handleStageClear (afterScan g)
    else afterScan g.
Proof.
  unfold update, ballResult, afterScan, afterBall.
  cbn [paddle ball with_paddle].
  destruct (Ball.update (Paddle.update (paddle g)) (ball g)) as [r b'].
  cbn [fst snd]. intros ->. reflexivity.
Qed.

Lemma ballResult_cases g :
  ballResult g = Ball.ResLost \/ ballResult g = Ball.ResPlaying.
Proof. destruct (ballResult g); [right | left]; reflexivity. Qed.

Lemma handleBallLost_brickManager g :
  brickManager (handleBallLost g) = brickManager g.
Proof.
  unfold handleBallLost. cbn [lives with_combo with_lives].
  destruct (lives g - 1 <=? 0); reflexivity.
Qed.

End UpdateFacts.

(** C3.  The collision scan of a tick resolves at most one brick.  Either
    the ball overlaps no active brick and the scan changes nothing, or
    the first active brick (in array order) that reports a hit receives
    one [hit()] (its durability drops by one) and every other brick is
    left as it was, whatever else the ball overlaps.  [update] runs the
    scan once and does not damage a brick anywhere else: the brick field
    after a tick is the field before it (ball lost), the field after the
    scan, or a freshly generated field (stage advance). *)
Theorem one_brick_resolved_per_tick (g : Game.t) :
  let g' := Game.checkBrickCollisions g in
  length (ScanFacts.bricksOf g') = length (ScanFacts.bricksOf g)
  /\ ((ScanFacts.no_hit g /\ g' = g)
      \/ exists i brick,
           ScanFacts.first_hit g i brick
           /\ nth_error (ScanFacts.bricksOf g') i = Some (snd (Brick.hit brick))
           /\ Brick.durability (snd (Brick.hit brick))
              = (Brick.durability brick - 1)%Z
           /\ snd (Brick.hit brick) <> brick
           /\ forall j, j <> i ->
                nth_error (ScanFacts.bricksOf g') j
                = nth_error (ScanFacts.bricksOf g) j)
  /\ (let g1 := UpdateFacts.afterBall g in
      let g2 := Game.checkBrickCollisions g1 in
      Game.brickManager g1 = Game.brickManager g
      /\ (Game.brickManager (Game.update g) = Game.brickManager g
          \/ Game.brickManager (Game.update g) = Game.brickManager g2
          \/ Game.brickManager (Game.update g)
             = BrickManager.createBricks (Game.stage g2 + 1)
                 (Game.brickManager g2))).
Proof.
  intro g'. subst g'. split; [| split].
  - destruct (ScanFacts.checkBrickCollisions_cases g) as [[_ ->] | (i & brick & _ & ->)];
      [reflexivity |].
    rewrite ScanFacts.resolveHit_bricks. apply ListFacts.list_set_length.
  - destruct (ScanFacts.checkBrickCollisions_cases g) as [[Hno E] | (i & brick & Hfh & E)].
    + left. split; assumption.
    + right. exists i, brick. rewrite E, ScanFacts.resolveHit_bricks.
      split; [exact Hfh |]. split; [| split; [| split]].
      * apply ListFacts.nth_error_list_set_eq.
        destruct Hfh as (Hn & _). apply nth_error_Some.
        unfold ScanFacts.bricksOf in *. simpl. congruence.
      * apply BrickFacts.hit_durability.
      * apply BrickFacts.hit_changes.
      * intros j Hj. apply ListFacts.nth_error_list_set_neq, Hj.
  - intros g1 g2. split; [reflexivity |].
    destruct (UpdateFacts.ballResult_cases g) as [Hr | Hr].
    + left. rewrite (UpdateFacts.update_lost g Hr).
      rewrite UpdateFacts.handleBallLost_brickManager. reflexivity.
    + right. rewrite (UpdateFacts.update_alive g Hr).
      fold g1 g2. unfold UpdateFacts.afterScan. fold g1 g2.
      destruct (BrickManager.getRemainingCount (Game.brickManager g2) =? 0)%nat;
        [| left; reflexivity].
      unfold Game.handleStageClear.
      destruct (Game.stage g2 >=? 3)%Z; [left | right]; reflexivity.
Qed.

(** C4.  When the scan destroys a brick, the combo counter is incremented
    first and the score then grows by [floor(brickScore * multiplier)],
    the multiplier being chosen from the new combo: 2 from 10 on, 1.5
    from 5 on, 1 below; so a combo of 4 scores at x1, of 5 at x1.5, of 10
    at x2. *)
Theorem combo_score_on_destroy (g : Game.t) (i : nat) (brick : Brick.t) :
  ScanFacts.first_hit g i brick ->
  fst (Brick.hit brick) = true ->
  let g' := Game.checkBrickCollisions g in
  Game.combo g' = (Game.combo g + 1)%Z
  /\ (exists multiplier : Q,
        Game.score g'
        = (Game.score g
           + Qfloor (inject_Z (Brick.getScore brick) * multiplier))%Z
        /\ multiplier = Game.comboMultiplier (Game.combo g')
        /\ ((10 <= Game.combo g')%Z -> multiplier = 2%Q)
        /\ ((5 <= Game.combo g' < 10)%Z -> multiplier = (3 # 2)%Q)
        /\ ((Game.combo g' < 5)%Z -> multiplier = 1%Q))
  /\ Game.comboMultiplier 4 = 1%Q
  /\ Game.comboMultiplier 5 = (3 # 2)%Q
  /\ Game.comboMultiplier 10 = 2%Q.
Proof.
  intros Hfh Hd g'. subst g'.
  rewrite (ScanFacts.checkBrickCollisions_first_hit Hfh).
  destruct (@ScanFacts.resolveHit_destroyed i brick
              (Game.with_ball g (ScanFacts.bounced (Game.ball g) brick)) Hd)
    as [Hc Hs].
  rewrite Hc, Hs. simpl Game.combo. simpl Game.score.
  split; [reflexivity |]. split; [| repeat split].
  exists (Game.comboMultiplier (Game.combo g + 1)).
  split; [reflexivity |]. split; [reflexivity |].
  unfold Game.comboMultiplier.
  destruct (Z.geb_spec (Game.combo g + 1) 10);
    destruct (Z.geb_spec (Game.combo g + 1) 5);
    repeat split; intros; try reflexivity; lia.
Qed.

(* ================================================================= *)
(** ** Game: stage clear *)

Module StageFacts.
Local Open Scope Z_scope.
Import Game.

(** The scan only touches the ball, one brick, the combo and the score. *)
Lemma checkBrickCollisions_other g :
  state (checkBrickCollisions g) = state g
  /\ lives (checkBrickCollisions g) = lives g
  /\ stage (checkBrickCollisions g) = stage g
  /\ paddle (checkBrickCollisions g) = paddle g
  /\ config (checkBrickCollisions g) = config g.
Proof.
  destruct (ScanFacts.checkBrickCollisions_cases g) as [[_ ->] | (i & brick & _ & ->)].
  - repeat split.
  - unfold resolveHit. destruct (Brick.hit brick) as [[|] brick']; repeat split.
Qed.

Lemma afterScan_other g :
  state (UpdateFacts.afterScan g) = state g
  /\ lives (UpdateFacts.afterScan g) = lives g
  /\ stage (UpdateFacts.afterScan g) = stage g
  /\ paddle (UpdateFacts.afterScan g) = Paddle.update (paddle g).
Proof.
  unfold UpdateFacts.afterScan.
  destruct (checkBrickCollisions_other (UpdateFacts.afterBall g))
    as (-> & -> & -> & -> & _).
  repeat split.
Qed.



End StageFacts.


(* ================================================================= *)
(** ** Game: the combo counter *)

Module ComboFacts.
Local Open Scope Z_scope.
Import Game.

(** The operations of the controller: its event handlers and its
    methods. *)
Inductive op :=
| OpHandleKeyDown (code : string) (r1 r2 : R)
| OpHandleKeyUp (code : string)
| OpHandleMouseMove (mouseX : R)
| OpHandleClick (r1 r2 : R)
| OpStart
| OpInitStage (n : Z)
| OpPause
| OpResume
| OpQuit
| OpRestart
| OpGameLoop
| OpUpdate
| OpHandleBallLost
| OpHandleStageClear
| OpCheckBrickCollisions.

Definition run (o : op) (g : t) : t :=
  match o with
  | OpHandleKeyDown code r1 r2 => handleKeyDown code r1 r2 g
  | OpHandleKeyUp code => handleKeyUp code g
  | OpHandleMouseMove mouseX => handleMouseMove mouseX g
  | OpHandleClick r1 r2 => handleClick r1 r2 g
  | OpStart => start g
  | OpInitStage n => initStage n g
  | OpPause => pause g
  | OpResume => resume g
  | OpQuit => quit g
  | OpRestart => restart g
  | OpGameLoop => gameLoop g
  | OpUpdate => update g
  | OpHandleBallLost => handleBallLost g
  | OpHandleStageClear => handleStageClear g
  | OpCheckBrickCollisions => checkBrickCollisions g
  end.








End ComboFacts.

Module ComboPaths.
Local Open Scope Z_scope.
Import Game.

(** The blocks of [handleKeyDown] that follow the scoreboard handling,
    one per [if] of the source, in order. *)
Definition keyMove (code : string) (g : t) : t :=
  if (code =? "ArrowLeft")%string || (code =? "KeyA")%string then
    with_paddle g (Paddle.setDirection (-1)%R (paddle g))
  else if (code =? "ArrowRight")%string || (code =? "KeyD")%string then
    with_paddle g (Paddle.setDirection 1%R (paddle g))
  else g.

Definition keySpace (code : string) (r1 r2 : R) (g : t) : t :=
  if (code =? "Space")%string then startOrLaunch r1 r2 g else g.

Definition keyPause (code : string) (g : t) : t :=
  if (code =? "Escape")%string || (code =? "KeyP")%string then
    (if GameState_eqb (state g) playing then pause g
     else if GameState_eqb (state g) paused then resume g
     else g)
  else g.

Definition keyQuit (code : string) (g : t) : t :=
  if (code =? "KeyQ")%string then
    (if GameState_eqb (state g) paused
        || GameState_eqb (state g) gameover
        || GameState_eqb (state g) clear
     then quit g else g)
  else g.

Definition keyEscapeQuit (code : string) (g : t) : t :=
  if (code =? "Escape")%string then
    (if GameState_eqb (state g) gameover || GameState_eqb (state g) clear
     then quit g else g)
  else g.

Definition keyRestart (code : string) (g : t) : t :=
  if (code =? "KeyR")%string then
    (if GameState_eqb (state g) gameover || GameState_eqb (state g) clear
     then restart g else g)
  else g.

Definition keyGameplay (code : string) (r1 r2 : R) (g : t) : t :=
  keyRestart code
    (keyEscapeQuit code
       (keyQuit code (keyPause code (keySpace code r1 r2 (keyMove code g))))).

Lemma handleKeyDown_blocks code r1 r2 g :
  handleKeyDown code r1 r2 g
  = let g := with_keys g (set_key code true (keys g)) in
    if (code =? "KeyS")%string && GameState_eqb (state g) scores then
      with_state g (previousState g)
    else if (code =? "KeyS")%string
            && (GameState_eqb (state g) idle
                || GameState_eqb (state g) gameover
                || GameState_eqb (state g) clear) then
      with_state (with_previousState g (state g)) scores
    else if GameState_eqb (state g) scores then
      (if (code =? "Escape")%string then with_state g (previousState g) else g)
    else keyGameplay code r1 r2 g.
Proof. reflexivity. Qed.

End ComboPaths.

(* ================================================================= *)
(** ** Ball against a brick: two positions *)

Module BrickGeometry.
Local Open Scope R_scope.
Import Ball.

(** The ball centre lies inside the brick: a hit, resolved as a vertical
    bounce that moves the ball up by its radius. *)
Lemma checkBrickCollision_inside bx by_ bw bh b :
  bx <= x b <= bx + bw -> by_ <= y b <= by_ + bh -> 0 < radius b ->
  checkBrickCollision bx by_ bw bh b
  = (true, with_y (with_dy b (- vy b)) (y b - radius b)).
Proof.
  intros Hx Hy Hr. unfold checkBrickCollision. cbv zeta.
  rewrite (Rmin_left (x b)) by lra. rewrite (Rmax_right bx) by lra.
  rewrite (Rmin_left (y b)) by lra. rewrite (Rmax_right by_) by lra.
  replace (x b - x b) with 0 by ring. replace (y b - y b) with 0 by ring.
  replace (0 * 0 + 0 * 0) with 0 by ring.
  rewrite sqrt_0, Rabs_R0. num_decide.
  f_equal. unfold with_y, y. simpl. do 2 f_equal. lra.
Qed.

(** The ball is under the brick, at least a radius below its bottom
    edge: no hit. *)
Lemma checkBrickCollision_below bx by_ bw bh b :
  bx <= x b <= bx + bw -> 0 <= bh -> 0 <= radius b ->
  by_ + bh + radius b <= y b ->
  checkBrickCollision bx by_ bw bh b = (false, b).
Proof.
  intros Hx Hh Hr Hy. unfold checkBrickCollision. cbv zeta.
  rewrite (Rmin_left (x b)) by lra. rewrite (Rmax_right bx) by lra.
  rewrite (Rmin_right (y b)) by lra. rewrite (Rmax_right by_) by lra.
  replace (x b - x b) with 0 by ring.
  replace (0 * 0 + (y b - (by_ + bh)) * (y b - (by_ + bh)))
    with ((y b - (by_ + bh)) * (y b - (by_ + bh))) by ring.
  rewrite sqrt_square by lra. num_decide. reflexivity.
Qed.

End BrickGeometry.

(* ================================================================= *)
(** ** A run of the controller *)

Module Trace.
Local Open Scope R_scope.

(** A small configuration: a 100 x 100 canvas and one row of two bricks
    right above the ball. *)
Definition tinyConfig : GameConfig := {|
  canvas_width := 100;
  canvas_height := 100;
  paddle_width := 20;
  paddle_height := 5;
  paddle_speed := 1;
  ball_radius := 2;
  ball_initialSpeed := 5;
  ball_maxSpeed := 10;
  brick_width := 10;
  brick_height := 10;
  brick_rows := 1;
  brick_cols := 2;
  brick_gap := 0;
  brick_topOffset := 30;
  cfg_lives := 3;
  cfg_maxLives := 5
|}.

Definition tinyPaddle : Paddle.t := Paddle.new tinyConfig.

(** The ball of the run: always at [x = 50], moving vertically. *)
Definition ballAt (y vy : R) (l : bool) : Ball.t :=
  {| Ball.position := {| px := 50; py := y |};
     Ball.velocity := {| dx := 0; dy := vy |};
     Ball.radius := 2; Ball.initialSpeed := 5; Ball.maxSpeed := 10;
     Ball.canvasWidth := 100; Ball.canvasHeight := 100;
     Ball.launched := l |}.

Definition brickA : Brick.t := Brick.new 40 30 10 10 normal.
Definition brickB : Brick.t := Brick.new 50 30 10 10 normal.

Definition fieldOf (bs : list Brick.t) : BrickManager.t :=
  {| BrickManager.bricks := bs;
     BrickManager.brickWidth := 10; BrickManager.brickHeight := 10;
     BrickManager.rows := 1; BrickManager.cols := 2;
     BrickManager.gap := 0; BrickManager.topOffset := 30;
     BrickManager.canvasWidth := 100 |}.

Definition mk (st : GameState) (b : Ball.t) (bs : list Brick.t)
    (sc cb stg : Z) (ks : string -> bool) : Game.t :=
  {| Game.config := tinyConfig; Game.state := st; Game.previousState := idle;
     Game.paddle := tinyPaddle; Game.ball := b;
     Game.brickManager := fieldOf bs;
     Game.score := sc; Game.lives := 3; Game.stage := stg; Game.combo := cb;
     Game.keys := ks |}.

Definition noKeys : string -> bool := fun _ => false.

Lemma paddle_update_tiny : Paddle.update tinyPaddle = tinyPaddle.
Proof.
  unfold Paddle.update, tinyPaddle, Paddle.new.
  cbv [Paddle.direction]. num_decide. reflexivity.
Qed.

Lemma paddle_reset_tiny : Paddle.reset tinyPaddle = tinyPaddle.
Proof. reflexivity. Qed.

Lemma ball_reset_tiny b :
  Ball.radius b = 2 -> Ball.initialSpeed b = 5 -> Ball.maxSpeed b = 10 ->
  Ball.canvasWidth b = 100 -> Ball.canvasHeight b = 100 ->
  Ball.reset tinyPaddle b = ballAt 47 0 false.
Proof.
  intros H1 H2 H3 H4 H5. unfold Ball.reset, ballAt, Ball.with_launched,
    Ball.with_velocity, Ball.with_position. simpl.
  rewrite H1, H2, H3, H4, H5. unfold Paddle.getCenterX, Paddle.getY. simpl.
  do 2 f_equal; lra.
Qed.

Lemma createBricks_tiny n bs :
  (n = 1)%Z ->
  BrickManager.createBricks n (fieldOf bs) = fieldOf [brickA; brickB].
Proof.
  intros ->. unfold BrickManager.createBricks, fieldOf, BrickManager.with_bricks.
  simpl. unfold brickA, brickB.
  f_equal. repeat f_equal; lra.
Qed.

(** Under the bricks: no active brick is touched. *)
Lemma no_hit_below st y vy l bs sc cb stg ks :
  42 <= y ->
  (forall j bj, nth_error bs j = Some bj ->
                Brick.getY bj = 30 /\ Brick.getHeight bj = 10
                /\ Brick.getX bj <= 50 <= Brick.getX bj + Brick.getWidth bj) ->
  Game.checkBrickCollisions (mk st (ballAt y vy l) bs sc cb stg ks)
  = mk st (ballAt y vy l) bs sc cb stg ks.
Proof.
  intros Hy Hbs.
  destruct (ScanFacts.checkBrickCollisions_cases (mk st (ballAt y vy l) bs sc cb stg ks))
    as [[_ E] | (i & brick & (Hn & _ & Hc & _) & _)]; [exact E |].
  exfalso. destruct (Hbs i brick Hn) as (Hby & Hbh & Hbx).
  unfold ScanFacts.collides in Hc.
  rewrite BrickGeometry.checkBrickCollision_below in Hc;
    try discriminate; simpl; unfold Ball.x, Ball.y; simpl; lra.
Qed.


Lemma ball_follow_tiny :
  Ball.update tinyPaddle (ballAt 47 0 false) = (Ball.ResPlaying, ballAt 47 0 false).
Proof.
  unfold Ball.update, ballAt. ball_fields. f_equal.
  unfold tinyPaddle, Paddle.new. simpl. do 2 f_equal; lra.
Qed.

Lemma ball_launch_tiny :
  Ball.launch (1/2) 0 (ballAt 47 0 false) = ballAt 47 (-5) true.
Proof.
  unfold Ball.launch, ballAt. ball_fields.
  replace ((1 / 2 * 60 + 60) * (PI / 180)) with (PI / 2) by field.
  rewrite cos_PI2, sin_PI2. repeat f_equal; lra.
Qed.

(** A launched ball of the run in free flight. *)
Lemma ball_flight_tiny y vy y' :
  y' = y + vy ->
  2 < y + vy -> y + vy - 2 <= 100 -> vy <= 0 \/ y + vy + 2 < 50 ->
  Ball.update tinyPaddle (ballAt y vy true)
  = (Ball.ResPlaying, ballAt y' vy true).
Proof.
  intros -> H1 H2 H3.
  rewrite BallFacts.update_free_flight;
    try reflexivity;
    try (unfold ballAt, tinyPaddle, Paddle.new; ball_fields; simpl; lra).
  f_equal. unfold Ball.integrate, ballAt. ball_fields. repeat f_equal; lra.
Qed.

(** One frame of the run while the ball stays in play. *)
Lemma frame_tiny b b' bs sc cb stg ks :
  Ball.update tinyPaddle b = (Ball.ResPlaying, b') ->
  UpdateFacts.ballResult (mk playing b bs sc cb stg ks) = Ball.ResPlaying
  /\ UpdateFacts.afterScan (mk playing b bs sc cb stg ks)
     = Game.checkBrickCollisions (mk playing b' bs sc cb stg ks).
Proof.
  intro H. split.
  - unfold UpdateFacts.ballResult. cbn [Game.paddle Game.ball mk].
    rewrite paddle_update_tiny, H. reflexivity.
  - unfold UpdateFacts.afterScan, UpdateFacts.afterBall.
    cbn [Game.paddle Game.ball mk]. rewrite paddle_update_tiny, H. reflexivity.
Qed.

Lemma update_tiny b b' bs sc cb stg ks :
  Ball.update tinyPaddle b = (Ball.ResPlaying, b') ->
  Game.update (mk playing b bs sc cb stg ks)
  = let g2 := Game.checkBrickCollisions (mk playing b' bs sc cb stg ks) in
    if (BrickManager.getRemainingCount (Game.brickManager g2) =? 0)%nat
    then Game.handleStageClear g2 else g2.
Proof.
  intro H. destruct (@frame_tiny b b' bs sc cb stg ks H) as [Hr Ha].
  rewrite (UpdateFacts.update_alive _ Hr), Ha. reflexivity.
Qed.

Lemma initStage_tiny st b bs sc cb stg ks :
  Ball.radius b = 2 -> Ball.initialSpeed b = 5 -> Ball.maxSpeed b = 10 ->
  Ball.canvasWidth b = 100 -> Ball.canvasHeight b = 100 ->
  Game.initStage 1 (mk st b bs sc cb stg ks)
  = mk st (ballAt 47 0 false) [brickA; brickB] sc 0 1 ks.
Proof.
  intros H1 H2 H3 H4 H5. unfold Game.initStage, mk.
  cbn [Game.with_stage Game.with_brickManager Game.with_paddle Game.with_ball
       Game.with_combo Game.config Game.state Game.previousState Game.paddle
       Game.ball Game.brickManager Game.score Game.lives Game.stage Game.combo
       Game.keys].
  rewrite createBricks_tiny by reflexivity.
  rewrite paddle_reset_tiny, ball_reset_tiny by assumption. reflexivity.
Qed.

Lemma bricks_under_AB j bj :
  nth_error [brickA; brickB] j = Some bj ->
  Brick.getY bj = 30 /\ Brick.getHeight bj = 10
  /\ Brick.getX bj <= 50 <= Brick.getX bj + Brick.getWidth bj.
Proof.
  destruct j as [| [| j]]; simpl; intro H; try (destruct j; discriminate);
    injection H as <-; unfold brickA, brickB; brick_fields; repeat split; lra.
Qed.

(** The run: a click starts the match. *)
Definition s1 : Game.t := mk playing (ballAt 47 0 false) [brickA; brickB] 0 0 1 noKeys.

Lemma run_start : Game.step (Game.Click 0 0) (Game.new tinyConfig) = s1.
Proof.
  change (Game.new tinyConfig) with (mk idle (Ball.new tinyConfig) [] 0 0 1 noKeys).
  unfold Game.step, Game.handleClick, Game.startOrLaunch, Game.start.
  cbn [Game.state mk GameState_eqb negb].
  change (Game.with_state (mk idle (Ball.new tinyConfig) [] 0 0 1 noKeys) playing)
    with (mk playing (Ball.new tinyConfig) [] 0 0 1 noKeys).
  cbn [Game.stage mk].
  rewrite initStage_tiny by reflexivity.
  unfold Game.gameLoop. cbn [Game.state mk GameState_eqb negb].
  erewrite update_tiny by apply ball_follow_tiny. cbv zeta.
  rewrite no_hit_below; [reflexivity | lra | apply bricks_under_AB].
Qed.


(** A second click launches the ball straight up. *)
Definition s2 : Game.t := mk playing (ballAt 47 (-5) true) [brickA; brickB] 0 0 1 noKeys.

Lemma run_launch : Game.step (Game.Click (1/2) 0) s1 = s2.
Proof.
  unfold Game.step, Game.handleClick, Game.startOrLaunch, s1.
  cbn [Game.state Game.ball mk GameState_eqb negb andb Ball.isLaunched
       Ball.launched ballAt].
  rewrite ball_launch_tiny. reflexivity.
Qed.

(** First frame of flight: the ball stops a radius under the bricks. *)
Definition s3 : Game.t := mk playing (ballAt 42 (-5) true) [brickA; brickB] 0 0 1 noKeys.

Lemma run_frame1 : Game.step Game.Frame s2 = s3.
Proof.
  unfold Game.step, Game.gameLoop, s2. cbn [Game.state mk GameState_eqb negb].
  erewrite update_tiny by (apply (@ball_flight_tiny 47 (-5) 42); lra).
  cbv zeta.
  rewrite no_hit_below; [reflexivity | lra | apply bricks_under_AB].
Qed.

(** The ball centre is inside brick [i]: the scan resolves it. *)
Lemma scan_hit_tiny st y vy bs sc cb stg ks i brick :
  ScanFacts.first_hit (mk st (ballAt y vy true) bs sc cb stg ks) i brick ->
  Brick.getY brick = 30 -> Brick.getHeight brick = 10 ->
  Brick.getX brick <= 50 <= Brick.getX brick + Brick.getWidth brick ->
  30 <= y <= 40 ->
  Game.checkBrickCollisions (mk st (ballAt y vy true) bs sc cb stg ks)
  = Game.resolveHit i brick (mk st (ballAt (y - 2) (- vy) true) bs sc cb stg ks).
Proof.
  intros Hfh Hy Hh Hx Hin.
  rewrite (ScanFacts.checkBrickCollisions_first_hit Hfh).
  f_equal. unfold ScanFacts.bounced. cbn [Game.ball mk].
  rewrite BrickGeometry.checkBrickCollision_inside;
    try (unfold ballAt; ball_fields; lra).
  reflexivity.
Qed.

Lemma first_hit_A st y vy sc cb stg ks :
  30 <= y <= 40 ->
  ScanFacts.first_hit (mk st (ballAt y vy true) [brickA; brickB] sc cb stg ks)
    0 brickA.
Proof.
  intro Hy. repeat split.
  - unfold ScanFacts.collides. cbn [Game.ball mk].
    rewrite BrickGeometry.checkBrickCollision_inside; [reflexivity | | |];
      unfold ballAt, brickA; ball_fields; brick_fields; lra.
  - intros j bj Hj. lia.
Qed.

(** Second frame: the ball enters both bricks; only the first is hit. *)
Definition brickA' : Brick.t := snd (Brick.hit brickA).
Definition s4 : Game.t := mk playing (ballAt 35 5 true) [brickA'; brickB] 10 1 1 noKeys.

Lemma run_frame2 : Game.step Game.Frame s3 = s4.
Proof.
  unfold Game.step, Game.gameLoop, s3. cbn [Game.state mk GameState_eqb negb].
  erewrite update_tiny by (apply (@ball_flight_tiny 42 (-5) 37); lra).
  cbv zeta.
  rewrite (@scan_hit_tiny playing 37 (-5) [brickA; brickB] 0 0 1 noKeys 0 brickA);
    try (unfold brickA; brick_fields; lra);
    [| apply first_hit_A; lra].
  replace (37 - 2) with 35 by lra. replace (- -5) with 5 by lra.
  reflexivity.
Qed.


(** Although the ball is inside the second brick too, that brick is
    untouched by the frame. *)
Lemma frame2_overlaps_both :
  ScanFacts.collides (ballAt 37 (-5) true) brickA = true
  /\ ScanFacts.collides (ballAt 37 (-5) true) brickB = true
  /\ ScanFacts.bricksOf (Game.step Game.Frame s3) = [brickA'; brickB].
Proof.
  rewrite run_frame2. split; [| split; [| reflexivity]];
    unfold ScanFacts.collides;
    (rewrite BrickGeometry.checkBrickCollision_inside; [reflexivity | | |]);
    unfold ballAt, brickA, brickB; ball_fields; brick_fields; lra.
Qed.

(** The pause key, pressed after the first brick fell. *)
Definition s5 : Game.t :=
  mk paused (ballAt 35 5 true) [brickA'; brickB] 10 1 1 (Game.set_key "KeyP" true noKeys).

Lemma run_pause : Game.step (Game.KeyDown "KeyP" 0 0) s4 = s5.
Proof. reflexivity. Qed.

Definition pausedRun : list Game.event :=
  [Game.Click 0 0; Game.Click (1/2) 0; Game.Frame; Game.Frame;
   Game.KeyDown "KeyP" 0 0].

Lemma run_pausedRun : Game.run_events pausedRun (Game.new tinyConfig) = s5.
Proof.
  unfold pausedRun, Game.run_events. cbn [fold_left].
  rewrite run_start, run_launch, run_frame1, run_frame2, run_pause. reflexivity.
Qed.

Lemma reachable_run_events config es g :
  Game.reachable config g -> Game.reachable config (Game.run_events es g).
Proof.
  revert g. induction es as [| e es IH]; intros g H; [exact H |].
  apply IH. apply Game.reach_step, H.
Qed.

Lemma reachable_s5 : Game.reachable tinyConfig s5.
Proof.
  rewrite <- run_pausedRun. apply reachable_run_events, Game.reach_new.
Qed.

Lemma reachable_s4 : Game.reachable tinyConfig s4.
Proof.
  rewrite <- run_frame2, <- run_frame1, <- run_launch, <- run_start.
  repeat apply Game.reach_step. apply Game.reach_new.
Qed.



End Trace.

(* ================================================================= *)
(** ** Witnesses on the run, and the combo resets *)

(** In the run, with the combo at 4, the hit on the first brick makes the
    combo 5 and scores the brick's 10 points at x1.5. *)
Lemma combo_score_on_destroy_witness :
  let g := Trace.mk playing (Trace.ballAt 37 (-5) true)
             [Trace.brickA; Trace.brickB] 0 4 1 Trace.noKeys in
  Game.combo (Game.checkBrickCollisions g) = 5%Z
  /\ Game.score (Game.checkBrickCollisions g) = 15%Z.
Proof.
  intro g.
  assert (Hfh : ScanFacts.first_hit g 0 Trace.brickA)
    by (apply Trace.first_hit_A; lra).
  assert (Hd : fst (Brick.hit Trace.brickA) = true) by reflexivity.
  destruct (combo_score_on_destroy Hfh Hd) as (Hc & (m & Hs & Hm & _) & _).
  split; [exact Hc |].
  rewrite Hs, Hm, Hc. reflexivity.
Defined.


(* ================================================================= *)
(** ** Game: every write to the combo counter *)

(** The controller once more, now recording each assignment to
    [this.combo] as it is executed.  The source assigns the counter in
    five places: [this.combo = 0] in [initStage], [handleBallLost],
    [quit] and [restart], and [this.combo += 1] in
    [checkBrickCollisions].  A method below returns the new state and
    the list of the writes it performed, in order; a method that calls
    another one appends the callee's writes.  Methods whose body holds
    no assignment to the counter and no call to a method of the
    controller ([pause], [handleKeyUp], [handleMouseMove]) are taken
    from [Game] as they are, with an empty list. *)
Module ComboLog.
Local Open Scope Z_scope.
Import Game.

(** The method whose body holds a [this.combo = 0]. *)
Inductive site := InInitStage | InHandleBallLost | InQuit | InRestart.

Inductive write :=
| Zero (s : site)
| Increment.

Definition logged : Type := t * list write.

Definition ret (g : t) : logged := (g, []).

Definition bind (m : logged) (f : t -> logged) : logged :=
  let (g, l) := m in
  let (g', l') := f g in
  (g', l ++ l').


Definition initStage (n : Z) (g : t) : logged :=
  let g := with_stage g n in
  let g := with_brickManager g (BrickManager.createBricks n (brickManager g)) in
  let g := with_paddle g (Paddle.reset (paddle g)) in
  let g := with_ball g (Ball.reset (paddle g) (ball g)) in
  (with_combo g 0, [Zero InInitStage]).

Definition handleBallLost (g : t) : logged :=
  let g := with_lives g (lives g - 1) in
  let g := with_combo g 0 in
  (if lives g <=? 0 then with_state g gameover
   else with_ball g (Ball.reset (paddle g) (ball g)),
   [Zero InHandleBallLost]).

Definition handleStageClear (g : t) : logged :=
  if stage g >=? 3 then ret (with_state g clear)
  else initStage (stage g + 1) g.

Definition resolveHit (i : nat) (brick : Brick.t) (g : t) : logged :=
  let (destroyed, brick') := Brick.hit brick in
  let g :=
    with_brickManager g
      (BrickManager.with_bricks (brickManager g)
         (list_set i brick' (BrickManager.bricks (brickManager g)))) in
  if destroyed then
    let g := with_combo g (combo g + 1) in
    let multiplier := comboMultiplier (combo g) in
    let points := Qfloor (inject_Z (Brick.getScore brick') * multiplier) in
    (with_score g (score g + points), [Increment])
  else ret g.

Fixpoint scanBricks (activeBricks : list nat) (g : t) : logged :=
  match activeBricks with
  | [] => ret g
  | i :: rest =>
      match nth_error (BrickManager.bricks (brickManager g)) i with
      | None => scanBricks rest g
      | Some brick =>
          let (hit, ball') :=
            Ball.checkBrickCollision (Brick.getX brick) (Brick.getY brick)
              (Brick.getWidth brick) (Brick.getHeight brick) (ball g) in
          let g := with_ball g ball' in
          if hit then resolveHit i brick g
          else scanBricks rest g
      end
  end.

Definition checkBrickCollisions (g : t) : logged :=
  let activeBricks := BrickManager.getActiveBricks (brickManager g) in
  scanBricks activeBricks g.

Definition update (g : t) : logged :=
  let g := with_paddle g (Paddle.update (paddle g)) in
  let (ballResult, ball') := Ball.update (paddle g) (ball g) in
  let g := with_ball g ball' in
  match ballResult with
  | Ball.ResLost => handleBallLost g
  | Ball.ResPlaying =>
      bind (checkBrickCollisions g) (fun g =>
        if (BrickManager.getRemainingCount (brickManager g) =? 0)%nat
        then handleStageClear g
        else ret g)
  end.

Definition gameLoop (g : t) : logged :=
  if negb (GameState_eqb (state g) playing) then ret g else update g.

Definition start (g : t) : logged :=
  if negb (GameState_eqb (state g) idle) then ret g
  else
    let g := with_state g playing in
    bind (initStage (stage g) g) gameLoop.

Definition pause (g : t) : logged := ret (Game.pause g).

Definition resume (g : t) : logged :=
  if negb (GameState_eqb (state g) paused) then ret g
  else
    let g := with_state g playing in
    gameLoop g.

Definition quit (g : t) : logged :=
  if negb (GameState_eqb (state g) paused)
     && negb (GameState_eqb (state g) gameover)
     && negb (GameState_eqb (state g) clear)
  then ret g
  else
    let g := with_state g idle in
    let g := with_score g 0 in
    let g := with_lives g (cfg_lives (config g)) in
    let g := with_stage g 1 in
    let g := with_combo g 0 in
    let g := with_paddle g (Paddle.reset (paddle g)) in
    (with_ball g (Ball.reset (paddle g) (ball g)), [Zero InQuit]).

Definition restart (g : t) : logged :=
  let g := with_state g idle in
  let g := with_score g 0 in
  let g := with_lives g (cfg_lives (config g)) in
  let g := with_stage g 1 in
  let g := with_combo g 0 in
  let g := with_paddle g (Paddle.reset (paddle g)) in
  (with_ball g (Ball.reset (paddle g) (ball g)), [Zero InRestart]).

Definition startOrLaunch (r1 r2 : R) (g : t) : logged :=
  if GameState_eqb (state g) idle then start g
  else if GameState_eqb (state g) playing && negb (Ball.isLaunched (ball g))
  then ret (with_ball g (Ball.launch r1 r2 (ball g)))
  else ret g.

Definition handleKeyDown (code : string) (r1 r2 : R) (g : t) : logged :=
  let g := with_keys g (set_key code true (keys g)) in
  if (code =? "KeyS")%string && GameState_eqb (state g) scores then
    ret (with_state g (previousState g))
  else if (code =? "KeyS")%string
          && (GameState_eqb (state g) idle
              || GameState_eqb (state g) gameover
              || GameState_eqb (state g) clear) then
    let g := with_previousState g (state g) in
    ret (with_state g scores)
  else if GameState_eqb (state g) scores then
    ret (if (code =? "Escape")%string then with_state g (previousState g) else g)
  else
    let g :=
      if (code =? "ArrowLeft")%string || (code =? "KeyA")%string then
        with_paddle g (Paddle.setDirection (-1)%R (paddle g))
      else if (code =? "ArrowRight")%string || (code =? "KeyD")%string then
        with_paddle g (Paddle.setDirection 1%R (paddle g))
      else g in
    bind (if (code =? "Space")%string then startOrLaunch r1 r2 g else ret g)
      (fun g =>
    bind (if (code =? "Escape")%string || (code =? "KeyP")%string then
            (if GameState_eqb (state g) playing then pause g
             else if GameState_eqb (state g) paused then resume g
             else ret g)
          else ret g)
      (fun g =>
    bind (if (code =? "KeyQ")%string then
            (if GameState_eqb (state g) paused
                || GameState_eqb (state g) gameover
                || GameState_eqb (state g) clear
             then quit g else ret g)
          else ret g)
      (fun g =>
    bind (if (code =? "Escape")%string then
            (if GameState_eqb (state g) gameover || GameState_eqb (state g) clear
             then quit g else ret g)
          else ret g)
      (fun g =>
    if (code =? "KeyR")%string then
      (if GameState_eqb (state g) gameover || GameState_eqb (state g) clear
       then restart g else ret g)
    else ret g)))).

Definition handleKeyUp (code : string) (g : t) : logged :=
  ret (Game.handleKeyUp code g).

Definition handleMouseMove (mouseX : R) (g : t) : logged :=
  ret (Game.handleMouseMove mouseX g).

Definition handleClick (r1 r2 : R) (g : t) : logged := startOrLaunch r1 r2 g.

Definition run (o : ComboFacts.op) (g : t) : logged :=
  match o with
  | ComboFacts.OpHandleKeyDown code r1 r2 => handleKeyDown code r1 r2 g
  | ComboFacts.OpHandleKeyUp code => handleKeyUp code g
  | ComboFacts.OpHandleMouseMove mouseX => handleMouseMove mouseX g
  | ComboFacts.OpHandleClick r1 r2 => handleClick r1 r2 g
  | ComboFacts.OpStart => start g
  | ComboFacts.OpInitStage n => initStage n g
  | ComboFacts.OpPause => pause g
  | ComboFacts.OpResume => resume g
  | ComboFacts.OpQuit => quit g
  | ComboFacts.OpRestart => restart g
  | ComboFacts.OpGameLoop => gameLoop g
  | ComboFacts.OpUpdate => update g
  | ComboFacts.OpHandleBallLost => handleBallLost g
  | ComboFacts.OpHandleStageClear => handleStageClear g
  | ComboFacts.OpCheckBrickCollisions => checkBrickCollisions g
  end.




End ComboLog.

Module ComboLogFacts.
Local Open Scope Z_scope.
Import Game.
Import ComboLog.

(** *** The recording run is the run *)
















(** The blocks of the recording [handleKeyDown], one per [if] of the
    source, as for [Game.handleKeyDown]. *)
Definition keySpace (code : string) (r1 r2 : R) (g : t) : logged :=
  if (code =? "Space")%string then startOrLaunch r1 r2 g else ret g.

Definition keyPause (code : string) (g : t) : logged :=
  if (code =? "Escape")%string || (code =? "KeyP")%string then
    (if GameState_eqb (state g) playing then pause g
     else if GameState_eqb (state g) paused then resume g
     else ret g)
  else ret g.

Definition keyQuit (code : string) (g : t) : logged :=
  if (code =? "KeyQ")%string then
    (if GameState_eqb (state g) paused
        || GameState_eqb (state g) gameover
        || GameState_eqb (state g) clear
     then quit g else ret g)
  else ret g.

Definition keyEscapeQuit (code : string) (g : t) : logged :=
  if (code =? "Escape")%string then
    (if GameState_eqb (state g) gameover || GameState_eqb (state g) clear
     then quit g else ret g)
  else ret g.

Definition keyRestart (code : string) (g : t) : logged :=
  if (code =? "KeyR")%string then
    (if GameState_eqb (state g) gameover || GameState_eqb (state g) clear
     then restart g else ret g)
  else ret g.

Definition keyGameplay (code : string) (r1 r2 : R) (g : t) : logged :=
  bind (keySpace code r1 r2 (ComboPaths.keyMove code g)) (fun g =>
  bind (keyPause code g) (fun g =>
  bind (keyQuit code g) (fun g =>
  bind (keyEscapeQuit code g) (keyRestart code)))).





(** *** The counter changes only through the recorded writes *)






















(** *** Which method's write of 0 an operation can run *)























End ComboLogFacts.




(* ================================================================= *)
(** * Further properties of the simulation core *)

(** ** Brick: counting hits *)

Module BrickHits.
Local Open Scope Z_scope.
Import Brick.

(** [n] calls of [hit()] in a row. *)
Definition hits (n : nat) (b : t) : t :=
  Nat.iter n (fun b => snd (hit b)) b.

Lemma hits_S n b : hits (S n) b = snd (hit (hits n b)).
Proof. reflexivity. Qed.

Lemma hits_durability n b : durability (hits n b) = durability b - Z.of_nat n.
Proof.
  induction n as [| n IH]; [simpl; lia |].
  rewrite hits_S, BrickFacts.hit_durability, IH. lia.
Qed.

Lemma hits_destroyed n b :
  destroyed (hits n b)
  = destroyed b || ((0 <? Z.of_nat n) && (durability b - Z.of_nat n <=? 0)).
Proof.
  induction n as [| n IH]; [cbn; now rewrite orb_false_r |].
  rewrite hits_S, BrickFacts.hit_destroyed, IH, hits_durability.
  destruct (destroyed b); cbn [orb].
  - now rewrite orb_true_r.
  - destruct (Z.leb_spec (durability b - Z.of_nat n - 1) 0);
      destruct (Z.leb_spec (durability b - Z.of_nat (S n)) 0);
      destruct (Z.ltb_spec 0 (Z.of_nat (S n)));
      destruct (Z.ltb_spec 0 (Z.of_nat n));
      destruct (Z.leb_spec (durability b - Z.of_nat n) 0);
      cbn [orb andb]; try reflexivity; lia.
Qed.

(** What [hit()] leaves alone. *)
Lemma hit_frame b :
  position (snd (hit b)) = position b
  /\ width (snd (hit b)) = width b
  /\ height (snd (hit b)) = height b
  /\ config (snd (hit b)) = config b.
Proof.
  unfold hit. simpl. destruct (durability b - 1 <=? 0); repeat split.
Qed.

(** The invariant of a brick: it carries one of the three configurations
    of the table, its durability never exceeds the configured one, and it
    is marked destroyed exactly when the durability is used up. *)
Definition wf (b : t) : Prop :=
  (exists ty, config b = BRICK_CONFIGS ty)
  /\ durability b <= bc_durability (config b)
  /\ (destroyed b = true <-> durability b <= 0).

Lemma wf_new x y w h ty : wf (new x y w h ty).
Proof.
  split; [exists ty; reflexivity |]. split; [simpl; lia |].
  simpl. destruct ty; simpl; split; intro H; try discriminate; lia.
Qed.

Lemma wf_hit b : wf b -> wf (snd (hit b)).
Proof.
  intros (Hc & Hd & Hf).
  destruct (hit_frame b) as (_ & _ & _ & Hcfg).
  split; [rewrite Hcfg; exact Hc |].
  split; [rewrite Hcfg, BrickFacts.hit_durability; lia |].
  rewrite BrickFacts.hit_destroyed, BrickFacts.hit_durability.
  destruct (Z.leb_spec (durability b - 1) 0) as [Hle | Hgt]; simpl.
  - split; [intros _; exact Hle | reflexivity].
  - split; [intro H; apply Hf in H; lia | intro H; lia].
Qed.

Lemma wf_reachable b : reachable b -> wf b.
Proof.
  induction 1 as [x y w h ty | b _ IH]; [apply wf_new | apply wf_hit, IH].
Qed.

Lemma wf_score_pos b : wf b -> 0 < getScore b.
Proof.
  intros ((ty & Hc) & _). unfold getScore. rewrite Hc. destruct ty; simpl; lia.
Qed.

End BrickHits.

(** X1.  A new brick of any type is destroyed by exactly as many hits as
    its type's durability: after [k] hits it is marked destroyed if and
    only if [k] has reached the durability, and hit number [k + 1]
    reports "destroyed" if and only if [k + 1] has reached it. *)
Theorem new_brick_destroyed_on_last_hit
    (x y w h : R) (ty : BrickType) (k : nat) :
  let d := bc_durability (BRICK_CONFIGS ty) in
  let b := BrickHits.hits k (Brick.new x y w h ty) in
  Brick.isDestroyed b = (d <=? Z.of_nat k)%Z
  /\ fst (Brick.hit b) = (d <=? Z.of_nat k + 1)%Z
  /\ Brick.durability b = (d - Z.of_nat k)%Z.
Proof.
  intros d b. subst b. unfold Brick.isDestroyed.
  rewrite BrickFacts.hit_flag, BrickHits.hits_destroyed, BrickHits.hits_durability.
  change (Brick.durability (Brick.new x y w h ty)) with d.
  change (Brick.destroyed (Brick.new x y w h ty)) with false.
  assert (Hd : (1 <= d)%Z) by (subst d; destruct ty; simpl; lia).
  repeat split.
  - destruct (Z.ltb_spec 0 (Z.of_nat k)); destruct (Z.leb_spec (d - Z.of_nat k) 0);
      destruct (Z.leb_spec d (Z.of_nat k)); cbn [orb andb]; try reflexivity; lia.
  - destruct (Z.leb_spec (d - Z.of_nat k - 1) 0);
      destruct (Z.leb_spec d (Z.of_nat k + 1)); try reflexivity; lia.
Qed.

(** X2.  Every brick that can exist (a new brick, hit any number of
    times) keeps its position, size and configuration, carries one of the
    three configurations of the table (so its score is positive), and is
    marked destroyed exactly when its durability is used up. *)
Theorem brick_invariant (b : Brick.t) :
  Brick.reachable b ->
  (exists ty, Brick.config b = BRICK_CONFIGS ty)
  /\ (Brick.isDestroyed b = true <-> (Brick.durability b <= 0)%Z)
  /\ (Brick.durability b <= bc_durability (Brick.config b))%Z
  /\ (0 < Brick.getScore b)%Z
  /\ Brick.position (snd (Brick.hit b)) = Brick.position b
  /\ Brick.width (snd (Brick.hit b)) = Brick.width b
  /\ Brick.height (snd (Brick.hit b)) = Brick.height b
  /\ Brick.config (snd (Brick.hit b)) = Brick.config b.
Proof.
  intro Hr. pose proof (BrickHits.wf_reachable Hr) as Hwf.
  destruct Hwf as (Hc & Hd & Hf).
  destruct (BrickHits.hit_frame b) as (H1 & H2 & H3 & H4).
  split; [exact Hc |]. split; [exact Hf |]. split; [exact Hd |].
  split; [apply BrickHits.wf_score_pos; exact (conj Hc (conj Hd Hf)) |].
  repeat split; assumption.
Qed.

Lemma brick_invariant_witness :
  let b := snd (Brick.hit (Brick.new 0 0 75 20 hard)) in
  (Brick.isDestroyed b = true <-> (Brick.durability b <= 0)%Z)
  /\ (0 < Brick.getScore b)%Z.
Proof.
  intro b.
  assert (Hr : Brick.reachable b) by (apply Brick.reach_hit, Brick.reach_new).
  destruct (brick_invariant Hr) as (_ & Hf & _ & Hs & _).
  split; [exact Hf | exact Hs].
Defined.

(* ================================================================= *)
(** ** BrickManager: the generated field *)

Module FieldFacts.
Local Open Scope R_scope.
Import BrickManager.

(** The left edge of the grid and the brick of a cell, as [createBricks]
    computes them. *)
Definition startX (m : t) : R :=
  (canvasWidth m - (INR (cols m) * (brickWidth m + gap m) - gap m)) / 2.

Definition cell (stage : Z) (m : t) (row col : nat) : Brick.t :=
  Brick.new (startX m + INR col * (brickWidth m + gap m))
    (topOffset m + INR row * (brickHeight m + gap m))
    (brickWidth m) (brickHeight m) (getBrickType stage row col).

Lemma createBricks_bricks stage m :
  bricks (createBricks stage m)
  = flat_map (fun row => map (cell stage m row) (seq 0 (cols m))) (seq 0 (rows m)).
Proof. reflexivity. Qed.

Lemma flat_map_length_const {A B} (f : A -> list B) c l :
  (forall a, length (f a) = c) -> length (flat_map f l) = (length l * c)%nat.
Proof.
  intro H. induction l as [| a l IH]; simpl; [reflexivity |].
  rewrite length_app, H, IH. reflexivity.
Qed.

Lemma nth_error_flat_map_const {A B} (f : A -> list B) c l :
  (forall a, length (f a) = c) ->
  forall i j, (j < c)%nat ->
    nth_error (flat_map f l) (i * c + j)
    = match nth_error l i with
      | Some a => nth_error (f a) j
      | None => None
      end.
Proof.
  intro H. induction l as [| a l IH]; intros i j Hj.
  - simpl. destruct i; simpl; now rewrite ?nth_error_nil.
  - destruct i as [| i]; simpl.
    + rewrite nth_error_app1 by (rewrite H; exact Hj). reflexivity.
    + rewrite nth_error_app2 by (rewrite H; lia).
      rewrite H. replace (c + i * c + j - c)%nat with (i * c + j)%nat by lia.
      apply IH, Hj.
Qed.

Lemma nth_error_seq0 n i : (i < n)%nat -> nth_error (seq 0 n) i = Some i.
Proof.
  intro H. rewrite nth_error_nth' with (d := O) by (rewrite length_seq; exact H).
  rewrite seq_nth by exact H. reflexivity.
Qed.

Lemma createBricks_length stage m :
  length (bricks (createBricks stage m)) = (rows m * cols m)%nat.
Proof.
  rewrite createBricks_bricks.
  rewrite (@flat_map_length_const _ _ _ (cols m)).
  - now rewrite length_seq.
  - intro a. now rewrite length_map, length_seq.
Qed.

Lemma createBricks_cell stage m row col :
  (row < rows m)%nat -> (col < cols m)%nat ->
  nth_error (bricks (createBricks stage m)) (row * cols m + col)
  = Some (cell stage m row col).
Proof.
  intros Hr Hc. rewrite createBricks_bricks.
  rewrite (@nth_error_flat_map_const _ _ _ (cols m));
    [| intro a; now rewrite length_map, length_seq | exact Hc].
  rewrite nth_error_seq0 by exact Hr.
  rewrite nth_error_map, nth_error_seq0 by exact Hc. reflexivity.
Qed.

(** Every slot of the generated array is a cell of the grid. *)
Lemma createBricks_slot stage m i b :
  nth_error (bricks (createBricks stage m)) i = Some b ->
  exists row col,
    (row < rows m)%nat /\ (col < cols m)%nat
    /\ i = (row * cols m + col)%nat /\ b = cell stage m row col.
Proof.
  intro H.
  assert (Hi : (i < rows m * cols m)%nat).
  { rewrite <- (createBricks_length stage m). apply nth_error_Some. congruence. }
  assert (Hc : (0 < cols m)%nat) by nia.
  exists (i / cols m)%nat, (i mod cols m)%nat.
  assert (Hm : (i mod cols m < cols m)%nat) by (apply Nat.mod_upper_bound; lia).
  assert (Hd : (i / cols m < rows m)%nat)
    by (apply Nat.Div0.div_lt_upper_bound; lia).
  assert (Hi' : i = (i / cols m * cols m + i mod cols m)%nat).
  { pose proof (Nat.div_mod_eq i (cols m)). lia. }
  split; [exact Hd |]. split; [exact Hm |]. split; [exact Hi' |].
  rewrite Hi' in H at 1. rewrite createBricks_cell in H by assumption.
  congruence.
Qed.

Lemma filter_map_S (f : nat -> bool) l :
  filter f (map S l) = map S (filter (fun i => f (S i)) l).
Proof.
  induction l as [| a l IH]; simpl; [reflexivity |].
  destruct (f (S a)); simpl; now rewrite IH.
Qed.

(** The references of [getActiveBricks] are as many as the bricks that
    are not destroyed. *)
Lemma active_refs_length (bs : list Brick.t) :
  length
    (filter
       (fun i => match nth_error bs i with
                 | Some brick => negb (Brick.isDestroyed brick)
                 | None => false
                 end)
       (seq 0 (length bs)))
  = length (filter (fun b => negb (Brick.isDestroyed b)) bs).
Proof.
  induction bs as [| b bs IH]; [reflexivity |].
  cbn [length seq]. rewrite <- seq_shift. cbn [filter nth_error].
  rewrite filter_map_S. cbn [nth_error].
  destruct (negb (Brick.isDestroyed b)); cbn [length];
    rewrite length_map, IH; reflexivity.
Qed.

Lemma remaining_filter m :
  getRemainingCount m
  = length (filter (fun b => negb (Brick.isDestroyed b)) (bricks m)).
Proof. apply active_refs_length. Qed.

Lemma filter_list_set {A} (f : A -> bool) i b b' (l : list A) :
  nth_error l i = Some b ->
  (length (filter f (list_set i b' l)) + (if f b then 1 else 0)
   = length (filter f l) + (if f b' then 1 else 0))%nat.
Proof.
  revert i. induction l as [| a l IH]; intros [| i] H; simpl in *;
    try discriminate.
  - injection H as ->. destruct (f b), (f b'); simpl; lia.
  - specialize (IH i H). destruct (f a); simpl; lia.
Qed.

Lemma createBricks_all_active stage m :
  filter (fun b => negb (Brick.isDestroyed b)) (bricks (createBricks stage m))
  = bricks (createBricks stage m).
Proof.
  rewrite createBricks_bricks.
  assert (Hrow : forall row l,
            filter (fun b => negb (Brick.isDestroyed b)) (map (cell stage m row) l)
            = map (cell stage m row) l).
  { intros row l. induction l as [| col l IH]; [reflexivity |].
    cbn [map filter].
    change (negb (Brick.isDestroyed (cell stage m row col))) with true.
    cbv iota. now rewrite IH. }
  induction (seq 0 (rows m)) as [| row l IH]; [reflexivity |].
  cbn [flat_map]. rewrite filter_app, IH, Hrow. reflexivity.
Qed.

(** Two different cells of the grid are separated along x or along y. *)
Lemma cells_separated s1 s2 m r1 c1 r2 c2 :
  0 <= gap m -> 0 <= brickWidth m -> 0 <= brickHeight m ->
  (r1, c1) <> (r2, c2) ->
  let bi := cell s1 m r1 c1 in
  let bj := cell s2 m r2 c2 in
  Brick.getX bi + Brick.getWidth bi <= Brick.getX bj
  \/ Brick.getX bj + Brick.getWidth bj <= Brick.getX bi
  \/ Brick.getY bi + Brick.getHeight bi <= Brick.getY bj
  \/ Brick.getY bj + Brick.getHeight bj <= Brick.getY bi.
Proof.
  intros Hg Hw Hh Hne bi bj. subst bi bj. unfold cell. brick_fields.
  set (w := brickWidth m) in *. set (h := brickHeight m) in *.
  set (g := gap m) in *.
  assert (Hstep : forall a b : nat, (a < b)%nat -> forall s : R, 0 <= s ->
            INR a * s + s <= INR b * s).
  { intros a b Hab s Hs.
    assert (INR a + 1 <= INR b) by (rewrite <- S_INR; apply le_INR; lia).
    nra. }
  destruct (Nat.lt_trichotomy c1 c2) as [Hc | [Hc | Hc]].
  - left. pose proof (Hstep c1 c2 Hc (w + g) ltac:(lra)). lra.
  - subst c2. destruct (Nat.lt_trichotomy r1 r2) as [Hr | [Hr | Hr]].
    + right; right; left. pose proof (Hstep r1 r2 Hr (h + g) ltac:(lra)). lra.
    + subst r2. congruence.
    + right; right; right. pose proof (Hstep r2 r1 Hr (h + g) ltac:(lra)). lra.
  - right; left. pose proof (Hstep c2 c1 Hc (w + g) ltac:(lra)). lra.
Qed.

End FieldFacts.

(** X3.  [createBricks(stage)] discards the old array and builds a full
    grid: [rows * cols] bricks, every one new (not destroyed, at its
    type's full durability), so the remaining count is [rows * cols]; the
    result does not depend on the bricks held before. *)
Theorem createBricks_full_grid (stage : Z) (m : BrickManager.t) :
  let m' := BrickManager.createBricks stage m in
  length (BrickManager.bricks m') = (BrickManager.rows m * BrickManager.cols m)%nat
  /\ BrickManager.getRemainingCount m'
     = (BrickManager.rows m * BrickManager.cols m)%nat
  /\ (forall b, In b (BrickManager.bricks m') ->
        Brick.isDestroyed b = false
        /\ Brick.durability b = bc_durability (Brick.config b)
        /\ Brick.getWidth b = BrickManager.brickWidth m
        /\ Brick.getHeight b = BrickManager.brickHeight m)
  /\ (forall bs, BrickManager.createBricks stage (BrickManager.with_bricks m bs) = m').
Proof.
  intro m'. subst m'. split; [apply FieldFacts.createBricks_length |].
  split.
  { rewrite FieldFacts.remaining_filter, FieldFacts.createBricks_all_active.
    apply FieldFacts.createBricks_length. }
  split; [| intro bs; reflexivity].
  intros b Hin. apply In_nth_error in Hin as [i Hi].
  destruct (FieldFacts.createBricks_slot _ _ _ Hi) as (row & col & _ & _ & _ & ->).
  repeat split.
Qed.

(** X4.  The layout of the generated grid: the brick of row [row] and
    column [col] is element [row * cols + col] of the array, at
    [x = startX + col * (width + gap)] and
    [y = topOffset + row * (height + gap)], of the type
    [getBrickType(stage, row)]; the grid is centred: the margin left of
    column 0 equals the margin right of the last column. *)
Theorem createBricks_layout (stage : Z) (m : BrickManager.t) (row col : nat) :
  (row < BrickManager.rows m)%nat -> (col < BrickManager.cols m)%nat ->
  let w := BrickManager.brickWidth m in
  let h := BrickManager.brickHeight m in
  let gap := BrickManager.gap m in
  let startX :=
    ((BrickManager.canvasWidth m - (INR (BrickManager.cols m) * (w + gap) - gap)) / 2)%R in
  nth_error (BrickManager.bricks (BrickManager.createBricks stage m))
    (row * BrickManager.cols m + col)
  = Some (Brick.new (startX + INR col * (w + gap))
            (BrickManager.topOffset m + INR row * (h + gap)) w h
            (BrickManager.getBrickType stage row col))
  /\ (startX + INR (BrickManager.cols m - 1) * (w + gap) + w
      = BrickManager.canvasWidth m - startX)%R.
Proof.
  intros Hr Hc w h gap startX. split.
  - apply (FieldFacts.createBricks_cell stage m Hr Hc).
  - subst startX. rewrite minus_INR by lia. simpl INR. lra.
Qed.

Lemma createBricks_layout_witness :
  let m := BrickManager.new 75 20 5 10 2 50 800 in
  nth_error (BrickManager.bricks (BrickManager.createBricks 3 m)) 13
  = Some (Brick.new ((800 - (INR 10 * (75 + 2) - 2)) / 2 + INR 3 * (75 + 2))
            (50 + INR 1 * (20 + 2)) 75 20 hard).
Proof.
  intro m.
  assert (Hr : (1 < BrickManager.rows m)%nat) by (simpl; lia).
  assert (Hc : (3 < BrickManager.cols m)%nat) by (simpl; lia).
  exact (proj1 (createBricks_layout 3 m Hr Hc)).
Defined.

(** X5.  With a non-negative gap and non-negative brick sizes, two
    different bricks of a generated grid never overlap: they are
    separated along the x axis or along the y axis. *)
Theorem createBricks_disjoint (stage : Z) (m : BrickManager.t)
    (i j : nat) (bi bj : Brick.t) :
  (0 <= BrickManager.gap m)%R ->
  (0 <= BrickManager.brickWidth m)%R ->
  (0 <= BrickManager.brickHeight m)%R ->
  i <> j ->
  nth_error (BrickManager.bricks (BrickManager.createBricks stage m)) i = Some bi ->
  nth_error (BrickManager.bricks (BrickManager.createBricks stage m)) j = Some bj ->
  (Brick.getX bi + Brick.getWidth bi <= Brick.getX bj
   \/ Brick.getX bj + Brick.getWidth bj <= Brick.getX bi
   \/ Brick.getY bi + Brick.getHeight bi <= Brick.getY bj
   \/ Brick.getY bj + Brick.getHeight bj <= Brick.getY bi)%R.
Proof.
  intros Hg Hw Hh Hij Hi Hj.
  destruct (FieldFacts.createBricks_slot _ _ _ Hi) as (r1 & c1 & _ & _ & E1 & ->).
  destruct (FieldFacts.createBricks_slot _ _ _ Hj) as (r2 & c2 & _ & _ & E2 & ->).
  apply FieldFacts.cells_separated; try assumption.
  intro E. injection E as -> ->. congruence.
Qed.

Lemma createBricks_disjoint_witness :
  let m := BrickManager.new 75 20 5 10 2 50 800 in
  let bi := FieldFacts.cell 1 m 0 0 in
  let bj := FieldFacts.cell 1 m 0 1 in
  (Brick.getX bi + Brick.getWidth bi <= Brick.getX bj
   \/ Brick.getX bj + Brick.getWidth bj <= Brick.getX bi
   \/ Brick.getY bi + Brick.getHeight bi <= Brick.getY bj
   \/ Brick.getY bj + Brick.getHeight bj <= Brick.getY bi)%R.
Proof.
  intros m bi bj.
  assert (Hr : (0 < BrickManager.rows m)%nat) by (simpl; lia).
  assert (H0 : (0 < BrickManager.cols m)%nat) by (simpl; lia).
  assert (H1 : (1 < BrickManager.cols m)%nat) by (simpl; lia).
  apply (@createBricks_disjoint 1 m 0 1 bi bj); try (simpl; lra).
  - lia.
  - exact (FieldFacts.createBricks_cell 1 m Hr H0).
  - exact (FieldFacts.createBricks_cell 1 m Hr H1).
Defined.

(* ================================================================= *)
(** ** Game: the scan and the remaining count *)

Module CountFacts.
Local Open Scope Z_scope.
Import Game.

Definition remaining (g : t) : nat :=
  BrickManager.getRemainingCount (brickManager g).

Lemma remaining_resolveHit i brick g :
  nth_error (ScanFacts.bricksOf g) i = Some brick ->
  Brick.isDestroyed brick = false ->
  (remaining (resolveHit i brick g)
   + (if Brick.isDestroyed (snd (Brick.hit brick)) then 1 else 0)
   = remaining g)%nat.
Proof.
  intros Hn Hd. unfold remaining.
  rewrite !FieldFacts.remaining_filter.
  fold (ScanFacts.bricksOf (resolveHit i brick g)). fold (ScanFacts.bricksOf g).
  rewrite ScanFacts.resolveHit_bricks.
  pose proof (@FieldFacts.filter_list_set _ (fun b => negb (Brick.isDestroyed b))
                i brick (snd (Brick.hit brick)) (ScanFacts.bricksOf g) Hn) as H.
  cbv beta in H. rewrite Hd in H. cbn [negb] in H.
  destruct (Brick.isDestroyed (snd (Brick.hit brick))); cbn [negb] in H; lia.
Qed.

Lemma hit_flag_destroyed brick :
  Brick.isDestroyed brick = false ->
  Brick.isDestroyed (snd (Brick.hit brick)) = fst (Brick.hit brick).
Proof.
  unfold Brick.isDestroyed. intro H.
  rewrite BrickFacts.hit_destroyed, BrickFacts.hit_flag, H. apply orb_false_r.
Qed.

End CountFacts.

(** X6.  The brick scan trades remaining bricks for combo one to one: the
    number of active bricks plus the combo counter is the same before
    and after [checkBrickCollisions], the remaining count never grows
    and drops by at most one. *)
Theorem scan_conserves_remaining_plus_combo (g : Game.t) :
  let g' := Game.checkBrickCollisions g in
  (Z.of_nat (CountFacts.remaining g') + Game.combo g'
   = Z.of_nat (CountFacts.remaining g) + Game.combo g)%Z
  /\ (CountFacts.remaining g' <= CountFacts.remaining g)%nat
  /\ (CountFacts.remaining g <= CountFacts.remaining g' + 1)%nat.
Proof.
  intro g'. subst g'.
  destruct (ScanFacts.checkBrickCollisions_cases g)
    as [[_ ->] | (i & brick & (Hn & Hd & Hc & _) & ->)]; [lia |].
  assert (Hrem := @CountFacts.remaining_resolveHit i brick
                    (Game.with_ball g (ScanFacts.bounced (Game.ball g) brick)) Hn Hd).
  rewrite (CountFacts.hit_flag_destroyed _ Hd) in Hrem.
  change (CountFacts.remaining
            (Game.with_ball g (ScanFacts.bounced (Game.ball g) brick)))
    with (CountFacts.remaining g) in Hrem.
  destruct (fst (Brick.hit brick)) eqn:Hf.
  - destruct (@ScanFacts.resolveHit_destroyed i brick
                (Game.with_ball g (ScanFacts.bounced (Game.ball g) brick)) Hf)
      as [Hcombo _].
    rewrite Hcombo. cbn [Game.combo Game.with_ball]. lia.
  - destruct (@ScanFacts.resolveHit_damaged i brick
                (Game.with_ball g (ScanFacts.bounced (Game.ball g) brick)) Hf)
      as [Hcombo _].
    rewrite Hcombo. cbn [Game.combo Game.with_ball]. lia.
Qed.

(* ================================================================= *)
(** ** Game: what holds in every state of the controller *)

(** Reduce the field reads and writes of a controller state. *)
Ltac game_fields :=
  cbn [Game.config Game.state Game.previousState Game.paddle Game.ball
       Game.brickManager Game.score Game.lives Game.stage Game.combo Game.keys
       Game.with_state Game.with_previousState Game.with_paddle Game.with_ball
       Game.with_brickManager Game.with_score Game.with_lives Game.with_stage
       Game.with_combo Game.with_keys] in *.

Module GameInv.
Local Open Scope Z_scope.
Import Game.

(** The state that counts for the match: under the scoreboard overlay,
    the state the overlay was entered from. *)
Definition effState (g : t) : GameState :=
  if GameState_eqb (state g) scores then previousState g else state g.

(** [b] is the brick [c] after some number of hits. *)
Definition hitsOf (b c : Brick.t) : Prop := exists k, b = BrickHits.hits k c.

(** The field is empty (before the first stage) or it is the grid of
    some stage, each brick hit some number of times. *)
Definition shaped (m : BrickManager.t) : Prop :=
  BrickManager.bricks m = []
  \/ exists s, Forall2 hitsOf (BrickManager.bricks m)
                 (BrickManager.bricks (BrickManager.createBricks s m)).

Definition managerOf (cfg : GameConfig) : BrickManager.t :=
  BrickManager.new (brick_width cfg) (brick_height cfg) (brick_rows cfg)
    (brick_cols cfg) (brick_gap cfg) (brick_topOffset cfg) (canvas_width cfg).

Record Inv (cfg : GameConfig) (g : t) : Prop := {
  inv_config : config g = cfg;
  inv_manager : BrickManager.with_bricks (brickManager g) [] = managerOf cfg;
  inv_paddle : Paddle.reachable cfg (paddle g);
  inv_ball : Ball.reachable cfg (ball g);
  inv_shaped : shaped (brickManager g);
  inv_stage : 1 <= stage g <= 3;
  inv_score : 0 <= score g;
  inv_combo : 0 <= combo g;
  inv_lives : 0 <= lives g <= cfg_lives cfg;
  inv_over : lives g = 0 <-> effState g = gameover;
  inv_prev : state g = scores ->
             previousState g = idle \/ previousState g = gameover
             \/ previousState g = clear;
  inv_idle : effState g = idle ->
             score g = 0 /\ lives g = cfg_lives cfg /\ stage g = 1
             /\ combo g = 0 /\ Ball.launched (ball g) = false;
  inv_clear : effState g = clear ->
              stage g = 3
              /\ BrickManager.getRemainingCount (brickManager g) = 0%nat;
  inv_field : effState g <> idle ->
              Forall2 hitsOf (BrickManager.bricks (brickManager g))
                (BrickManager.bricks
                   (BrickManager.createBricks (stage g) (brickManager g)))
}.

Lemma GameState_eqb_eq a b : GameState_eqb a b = true <-> a = b.
Proof. destruct a, b; simpl; split; intro H; try reflexivity; discriminate. Qed.

Lemma GameState_eqb_spec a b : reflect (a = b) (GameState_eqb a b).
Proof. destruct a, b; simpl; constructor; try reflexivity; discriminate. Qed.

(** *** Bricks *)

Lemma hitsOf_refl c : hitsOf c c.
Proof. exists 0%nat. reflexivity. Qed.

Lemma hitsOf_hit b c : hitsOf b c -> hitsOf (snd (Brick.hit b)) c.
Proof. intros [k ->]. exists (S k). reflexivity. Qed.

Lemma hitsOf_wf b c : BrickHits.wf c -> hitsOf b c -> BrickHits.wf b.
Proof.
  intros Hc [k ->]. induction k as [| k IH]; [exact Hc |].
  rewrite BrickHits.hits_S. apply BrickHits.wf_hit, IH.
Qed.

Lemma hitsOf_geometry b c :
  hitsOf b c ->
  Brick.position b = Brick.position c /\ Brick.width b = Brick.width c
  /\ Brick.height b = Brick.height c /\ Brick.config b = Brick.config c.
Proof.
  intros [k ->]. induction k as [| k IH]; [repeat split |].
  rewrite BrickHits.hits_S.
  destruct (BrickHits.hit_frame (BrickHits.hits k c)) as (-> & -> & -> & ->).
  exact IH.
Qed.

Lemma Forall2_refl {A} (R : A -> A -> Prop) l :
  (forall a, R a a) -> Forall2 R l l.
Proof. intro H. induction l; constructor; auto. Qed.

Lemma Forall2_nth_error {A B} (R : A -> B -> Prop) l l' i a :
  Forall2 R l l' -> nth_error l i = Some a ->
  exists b, nth_error l' i = Some b /\ R a b.
Proof.
  intro H. revert i. induction H as [| x y l l' Hxy _ IH]; intros [| i] Hn;
    simpl in *; try discriminate.
  - injection Hn as <-. exists y. split; [reflexivity | exact Hxy].
  - apply IH, Hn.
Qed.

Lemma Forall2_list_set {A B} (R : A -> B -> Prop) l l' i a a' :
  Forall2 R l l' -> nth_error l i = Some a ->
  (forall b, R a b -> R a' b) ->
  Forall2 R (list_set i a' l) l'.
Proof.
  intro H. revert i. induction H as [| x y l l' Hxy Hrest IH]; intros [| i] Hn Hstep;
    simpl in *; try discriminate.
  - injection Hn as <-. constructor; [apply Hstep, Hxy | exact Hrest].
  - constructor; [exact Hxy | apply IH; assumption].
Qed.

Lemma shaped_slot m i b :
  shaped m -> nth_error (BrickManager.bricks m) i = Some b ->
  exists s row col,
    (row < BrickManager.rows m)%nat /\ (col < BrickManager.cols m)%nat
    /\ i = (row * BrickManager.cols m + col)%nat
    /\ hitsOf b (FieldFacts.cell s m row col).
Proof.
  intros [Hnil | [s Hs]] Hn.
  - rewrite Hnil in Hn. destruct i; discriminate.
  - destruct (Forall2_nth_error _ Hs Hn) as (c & Hc & Hbc).
    destruct (FieldFacts.createBricks_slot _ _ _ Hc) as (row & col & Hr & Hcl & Hi & ->).
    exists s, row, col. repeat split; assumption.
Qed.

Lemma shaped_wf m i b :
  shaped m -> nth_error (BrickManager.bricks m) i = Some b -> BrickHits.wf b.
Proof.
  intros Hs Hn. destruct (shaped_slot _ Hs Hn) as (s & row & col & _ & _ & _ & Hb).
  apply (hitsOf_wf (BrickHits.wf_new _ _ _ _ _) Hb).
Qed.

Lemma shaped_hit m i b :
  shaped m -> nth_error (BrickManager.bricks m) i = Some b ->
  shaped (BrickManager.with_bricks m
            (list_set i (snd (Brick.hit b)) (BrickManager.bricks m))).
Proof.
  intros [Hnil | [s Hs]] Hn.
  - rewrite Hnil in Hn. destruct i; discriminate.
  - right. exists s. cbn [BrickManager.bricks BrickManager.with_bricks].
    change (BrickManager.createBricks s
              (BrickManager.with_bricks m
                 (list_set i (snd (Brick.hit b)) (BrickManager.bricks m))))
      with (BrickManager.createBricks s m).
    apply (Forall2_list_set _ _ Hs Hn). intro c. apply hitsOf_hit.
Qed.

Lemma shaped_createBricks s m : shaped (BrickManager.createBricks s m).
Proof.
  right. exists s.
  change (BrickManager.createBricks s (BrickManager.createBricks s m))
    with (BrickManager.createBricks s m).
  apply Forall2_refl, hitsOf_refl.
Qed.

Lemma points_nonneg sc c :
  0 <= sc -> 0 <= Qfloor (inject_Z sc * comboMultiplier c).
Proof.
  intro H. unfold comboMultiplier.
  destruct (c >=? 10); [| destruct (c >=? 5)];
    unfold Qfloor, Qmult, inject_Z; cbn [Qnum Qden Pos.mul];
    apply Z.div_pos; lia.
Qed.


(** *** Preservation by the operations of the controller *)

Ltac inv_open H :=
  destruct H as [Hcfg Hman Hpad Hball Hshape Hstage Hscore Hcombo Hliv Hover
                 Hprev Hidle Hclear Hfield].

Ltac inv_same H :=
  inv_open H; constructor; unfold effState in *; game_fields; try assumption.

Lemma with_state_same g : with_state g (state g) = g.
Proof. destruct g; reflexivity. Qed.

Lemma Forall2_hit_slot m s i b :
  Forall2 hitsOf (BrickManager.bricks m)
    (BrickManager.bricks (BrickManager.createBricks s m)) ->
  nth_error (BrickManager.bricks m) i = Some b ->
  Forall2 hitsOf (list_set i (snd (Brick.hit b)) (BrickManager.bricks m))
    (BrickManager.bricks (BrickManager.createBricks s m)).
Proof.
  intros Hs Hn. apply (Forall2_list_set _ _ Hs Hn). intro c. apply hitsOf_hit.
Qed.

Section Preservation.
Variable cfg : GameConfig.
Hypothesis Hlives : 1 <= cfg_lives cfg.

Lemma ginv_new : Inv cfg (new cfg).
Proof.
  constructor; unfold effState; cbn; try reflexivity; try lia;
    try discriminate.
  - apply Paddle.reach_new.
  - apply Ball.reach_new.
  - left. reflexivity.
  - split; intro H; [lia | discriminate].
  - intro H. contradiction.
Qed.

Lemma ginv_keys g k : Inv cfg g -> Inv cfg (with_keys g k).
Proof. intro H. inv_same H. Qed.

Lemma ginv_paddle_run o g :
  Inv cfg g -> Inv cfg (with_paddle g (Paddle.run o (paddle g))).
Proof. intro H. inv_same H. apply Paddle.reach_run, Hpad. Qed.

(** The ball is only touched while playing. *)
Lemma ginv_ball_run o g :
  state g = playing ->
  Inv cfg g -> Inv cfg (with_ball g (Ball.run o (ball g))).
Proof.
  intros Hst H. inv_same H.
  - apply Ball.reach_run, Hball.
  - rewrite Hst. discriminate.
Qed.

Lemma alive_lives g : Inv cfg g -> effState g <> gameover -> 1 <= lives g.
Proof.
  intros H He. inv_open H.
  destruct (Z.eq_dec (lives g) 0) as [E | E]; [apply Hover in E; contradiction | lia].
Qed.

(** Between [playing] and [paused]. *)
Lemma ginv_with_state g s :
  Inv cfg g -> state g = playing \/ state g = paused ->
  s = playing \/ s = paused ->
  Inv cfg (with_state g s).
Proof.
  intros H Hst Hs.
  assert (He : effState g <> gameover)
    by (unfold effState; destruct Hst as [-> | ->]; discriminate).
  pose proof (alive_lives H He) as Hpos.
  inv_open H. unfold effState in *.
  assert (Hs' : GameState_eqb s scores = false)
    by (destruct Hs as [-> | ->]; reflexivity).
  assert (Hg : GameState_eqb (state g) scores = false)
    by (destruct Hst as [-> | ->]; reflexivity).
  rewrite Hg in *.
  constructor; unfold effState; game_fields; try assumption; rewrite ?Hs'.
  - split; intro E; [lia | destruct Hs as [-> | ->]; discriminate].
  - intro E. destruct Hs as [-> | ->]; discriminate.
  - intro E. destruct Hs as [-> | ->]; discriminate.
  - intro E. destruct Hs as [-> | ->]; discriminate.
  - intros _. apply Hfield. destruct Hst as [-> | ->]; discriminate.
Qed.

Lemma ginv_scan g :
  state g = playing -> Inv cfg g -> Inv cfg (checkBrickCollisions g).
Proof.
  intros Hst H.
  destruct (ScanFacts.checkBrickCollisions_cases g)
    as [[_ ->] | (i & brick & (Hn & Hd & Hc & _) & ->)]; [exact H |].
  assert (Hb : Inv cfg (with_ball g (ScanFacts.bounced (ball g) brick))).
  { apply (@ginv_ball_run
             (Ball.OpCheckBrickCollision (Brick.getX brick) (Brick.getY brick)
                (Brick.getWidth brick) (Brick.getHeight brick)) g Hst H). }
  clear H. set (g1 := with_ball g (ScanFacts.bounced (ball g) brick)) in *.
  assert (Hst1 : state g1 = playing) by exact Hst.
  assert (Hn1 : nth_error (BrickManager.bricks (brickManager g1)) i = Some brick)
    by exact Hn.
  inv_open Hb.
  pose proof (shaped_wf _ Hshape Hn1) as Hwf.
  pose proof (BrickHits.wf_score_pos Hwf) as Hpos.
  pose proof (shaped_hit _ Hshape Hn1) as Hshape'.
  assert (Hf0 : effState g1 <> idle)
    by (unfold effState; rewrite Hst1; discriminate).
  pose proof (@Forall2_hit_slot _ _ _ _ (Hfield Hf0) Hn1) as Hfield'.
  unfold resolveHit.
  pose proof (BrickHits.hit_frame brick) as (_ & _ & _ & Hcfgb).
  pose proof (@points_nonneg (Brick.getScore (snd (Brick.hit brick))) (combo g1 + 1)) as Hp.
  unfold Brick.getScore in *. rewrite <- Hcfgb in Hpos.
  specialize (Hp ltac:(lia)).
  destruct (Brick.hit brick) as [d brick'] eqn:Hh. cbn [snd] in *.
  destruct d; constructor; unfold effState in *; game_fields; try assumption;
    try lia; rewrite ?Hst1 in *; cbn [GameState_eqb] in *;
    try (intro E; discriminate E);
    try (intros _; exact Hfield').
Qed.

Lemma ginv_handleBallLost g :
  state g = playing -> Inv cfg g -> Inv cfg (handleBallLost g).
Proof.
  intros Hst H.
  assert (Hpos : 1 <= lives g)
    by (apply (alive_lives H); unfold effState; rewrite Hst; discriminate).
  inv_open H. unfold effState in *. rewrite Hst in *. cbn [GameState_eqb] in *.
  specialize (Hfield ltac:(discriminate)).
  unfold handleBallLost. game_fields.
  destruct (Z.leb_spec (lives g - 1) 0) as [Hle | Hgt];
    constructor; unfold effState; game_fields; try assumption; try lia;
    try rewrite Hst; cbn [GameState_eqb];
    try discriminate;
    try (split; intro E; first [reflexivity | lia | discriminate]);
    try (intros _; exact Hfield).
  apply (Ball.reach_run (Ball.OpReset (paddle g))), Hball.
Qed.

(** A stage is initialized right after the state became [playing], or
    while playing. *)
Lemma ginv_initStage n g0 :
  1 <= n <= 3 -> Inv cfg g0 -> effState g0 <> gameover ->
  state g0 <> scores ->
  Inv cfg (initStage n (with_state g0 playing)).
Proof.
  intros Hn H He Hsc. pose proof (alive_lives H He) as Hpos.
  inv_open H. unfold initStage.
  constructor; unfold effState in *; game_fields; cbn [GameState_eqb];
    try assumption; try lia; try discriminate.
  - apply (Paddle.reach_run Paddle.OpReset), Hpad.
  - apply (Ball.reach_run (Ball.OpReset (Paddle.reset (paddle g0)))), Hball.
  - apply shaped_createBricks.
  - split; intro E; [lia | discriminate].
  - intros _.
    change (BrickManager.createBricks n
              (BrickManager.createBricks n (brickManager g0)))
      with (BrickManager.createBricks n (brickManager g0)).
    apply Forall2_refl, hitsOf_refl.
Qed.

Lemma ginv_handleStageClear g :
  state g = playing ->
  BrickManager.getRemainingCount (brickManager g) = 0%nat ->
  Inv cfg g -> Inv cfg (handleStageClear g).
Proof.
  intros Hst Hcount H. unfold handleStageClear.
  assert (He : effState g <> gameover)
    by (unfold effState; rewrite Hst; discriminate).
  destruct (Z.geb_spec (stage g) 3) as [Hge | Hlt].
  - pose proof (alive_lives H He) as Hpos.
    inv_open H. unfold effState in *. rewrite Hst in *. cbn [GameState_eqb] in *.
    specialize (Hfield ltac:(discriminate)).
    constructor; unfold effState; game_fields; cbn [GameState_eqb];
      try assumption; try discriminate.
    + split; intro E; [lia | discriminate].
    + intros _. split; [lia | exact Hcount].
    + intros _. exact Hfield.
  - rewrite <- (with_state_same g) at 2. rewrite Hst.
    apply ginv_initStage; try assumption.
    + destruct H. lia.
    + rewrite Hst. discriminate.
Qed.

Lemma ginv_afterBall g :
  state g = playing -> Inv cfg g -> Inv cfg (UpdateFacts.afterBall g).
Proof.
  intros Hst H. unfold UpdateFacts.afterBall.
  apply (@ginv_ball_run (Ball.OpUpdate (Paddle.update (paddle g)))
           (with_paddle g (Paddle.update (paddle g))) Hst).
  apply (@ginv_paddle_run Paddle.OpUpdate g H).
Qed.

Lemma ginv_update g : state g = playing -> Inv cfg g -> Inv cfg (update g).
Proof.
  intros Hst H. pose proof (ginv_afterBall Hst H) as H1.
  destruct (UpdateFacts.ballResult_cases g) as [Hr | Hr].
  - rewrite (UpdateFacts.update_lost g Hr).
    apply ginv_handleBallLost; [exact Hst | exact H1].
  - rewrite (UpdateFacts.update_alive g Hr).
    pose proof (@ginv_scan (UpdateFacts.afterBall g) Hst H1) as H2.
    fold (UpdateFacts.afterScan g) in H2.
    destruct (Nat.eqb_spec
                (BrickManager.getRemainingCount
                   (brickManager (UpdateFacts.afterScan g))) 0) as [Hz | _];
      [| exact H2].
    apply ginv_handleStageClear; [| exact Hz | exact H2].
    destruct (StageFacts.afterScan_other g) as (-> & _). exact Hst.
Qed.

Lemma ginv_gameLoop g : Inv cfg g -> Inv cfg (gameLoop g).
Proof.
  intro H. unfold gameLoop.
  destruct (GameState_eqb_spec (state g) playing) as [Hst | _]; cbn [negb];
    [apply ginv_update; assumption | exact H].
Qed.

Lemma ginv_start g : Inv cfg g -> Inv cfg (start g).
Proof.
  intro H. unfold start.
  destruct (GameState_eqb_spec (state g) idle) as [Hst | _]; cbn [negb];
    [| exact H].
  apply ginv_gameLoop. game_fields.
  apply ginv_initStage; try assumption.
  - destruct H. lia.
  - unfold effState. rewrite Hst. discriminate.
  - rewrite Hst. discriminate.
Qed.

Lemma ginv_pause g : Inv cfg g -> Inv cfg (pause g).
Proof.
  intro H. unfold pause.
  destruct (GameState_eqb_spec (state g) playing) as [Hst | _]; cbn [negb];
    [| exact H].
  apply ginv_with_state; [exact H | left; exact Hst | right; reflexivity].
Qed.

Lemma ginv_resume g : Inv cfg g -> Inv cfg (resume g).
Proof.
  intro H. unfold resume.
  destruct (GameState_eqb_spec (state g) paused) as [Hst | _]; cbn [negb];
    [| exact H].
  apply ginv_gameLoop, ginv_with_state;
    [exact H | right; exact Hst | left; reflexivity].
Qed.

Lemma ginv_restart g : Inv cfg g -> Inv cfg (restart g).
Proof.
  intro H. inv_open H. unfold restart.
  constructor; unfold effState; game_fields; cbn [GameState_eqb];
    try assumption; try lia; try discriminate.
  - apply (Paddle.reach_run Paddle.OpReset), Hpad.
  - apply (Ball.reach_run (Ball.OpReset (Paddle.reset (paddle g)))), Hball.
  - rewrite Hcfg. lia.
  - rewrite Hcfg. split; intro E; [lia | discriminate].
  - intros _. rewrite Hcfg. repeat split.
  - intro E. contradiction.
Qed.

Lemma ginv_quit g : Inv cfg g -> Inv cfg (quit g).
Proof.
  intro H.
  destruct (state g) eqn:Hst;
    try (rewrite (GameFacts.quit_restart g) by auto; apply ginv_restart, H);
    unfold quit; rewrite Hst; exact H.
Qed.

Lemma ginv_startOrLaunch r1 r2 g : Inv cfg g -> Inv cfg (startOrLaunch r1 r2 g).
Proof.
  intro H. unfold startOrLaunch.
  destruct (GameState_eqb (state g) idle); [apply ginv_start, H |].
  destruct (GameState_eqb_spec (state g) playing) as [Hst | _];
    cbn [andb]; [| exact H].
  destruct (negb (Ball.isLaunched (ball g))); [| exact H].
  apply (@ginv_ball_run (Ball.OpLaunch r1 r2) g Hst H).
Qed.

Lemma ginv_keyGameplay code r1 r2 g :
  Inv cfg g -> Inv cfg (ComboPaths.keyGameplay code r1 r2 g).
Proof.
  intro H. unfold ComboPaths.keyGameplay.
  assert (H1 : Inv cfg (ComboPaths.keyMove code g)).
  { unfold ComboPaths.keyMove.
    destruct ((code =? "ArrowLeft")%string || (code =? "KeyA")%string);
      [apply (@ginv_paddle_run (Paddle.OpSetDirection (-1)) g H) |].
    destruct ((code =? "ArrowRight")%string || (code =? "KeyD")%string);
      [apply (@ginv_paddle_run (Paddle.OpSetDirection 1) g H) | exact H]. }
  revert H1. generalize (ComboPaths.keyMove code g). clear g H. intros g H.
  assert (H1 : Inv cfg (ComboPaths.keySpace code r1 r2 g)).
  { unfold ComboPaths.keySpace. destruct ((code =? "Space")%string);
      [apply ginv_startOrLaunch, H | exact H]. }
  revert H1. generalize (ComboPaths.keySpace code r1 r2 g). clear g H. intros g H.
  assert (H1 : Inv cfg (ComboPaths.keyPause code g)).
  { unfold ComboPaths.keyPause.
    destruct ((code =? "Escape")%string || (code =? "KeyP")%string); [| exact H].
    destruct (GameState_eqb (state g) playing); [apply ginv_pause, H |].
    destruct (GameState_eqb (state g) paused); [apply ginv_resume, H | exact H]. }
  revert H1. generalize (ComboPaths.keyPause code g). clear g H. intros g H.
  assert (H1 : Inv cfg (ComboPaths.keyQuit code g)).
  { unfold ComboPaths.keyQuit.
    repeat match goal with |- context [if ?c then _ else _] => destruct c end;
      try exact H; apply ginv_quit, H. }
  revert H1. generalize (ComboPaths.keyQuit code g). clear g H. intros g H.
  assert (H1 : Inv cfg (ComboPaths.keyEscapeQuit code g)).
  { unfold ComboPaths.keyEscapeQuit.
    repeat match goal with |- context [if ?c then _ else _] => destruct c end;
      try exact H; apply ginv_quit, H. }
  revert H1. generalize (ComboPaths.keyEscapeQuit code g). clear g H. intros g H.
  unfold ComboPaths.keyRestart.
  repeat match goal with |- context [if ?c then _ else _] => destruct c end;
    try exact H; apply ginv_restart, H.
Qed.

Lemma ginv_enter_scores g :
  state g = idle \/ state g = gameover \/ state g = clear ->
  Inv cfg g -> Inv cfg (with_state (with_previousState g (state g)) scores).
Proof.
  intros Hst H. inv_open H.
  assert (Hne : GameState_eqb (state g) scores = false)
    by (destruct Hst as [-> | [-> | ->]]; reflexivity).
  unfold effState in *. rewrite Hne in *.
  constructor; unfold effState; game_fields; cbn [GameState_eqb];
    try assumption.
  intros _. exact Hst.
Qed.

Lemma ginv_leave_scores g :
  state g = scores -> Inv cfg g -> Inv cfg (with_state g (previousState g)).
Proof.
  intros Hst H. inv_open H.
  specialize (Hprev Hst).
  assert (Hne : GameState_eqb (previousState g) scores = false)
    by (destruct Hprev as [-> | [-> | ->]]; reflexivity).
  unfold effState in *. rewrite Hst in *. cbn [GameState_eqb] in *.
  constructor; unfold effState; game_fields; rewrite ?Hne; try assumption.
  intro E. rewrite E in Hne. discriminate.
Qed.

Lemma ginv_handleKeyDown code r1 r2 g :
  Inv cfg g -> Inv cfg (handleKeyDown code r1 r2 g).
Proof.
  intro H. rewrite ComboPaths.handleKeyDown_blocks. cbv zeta.
  apply (ginv_keys (set_key code true (keys g))) in H.
  revert H. generalize (with_keys g (set_key code true (keys g))).
  clear g. intros g H.
  destruct (GameState_eqb_spec (state g) scores) as [Hsc | Hsc].
  - rewrite andb_true_r.
    destruct ((code =? "KeyS")%string); [apply ginv_leave_scores; assumption |].
    cbn [andb].
    destruct ((code =? "Escape")%string);
      [apply ginv_leave_scores; assumption | exact H].
  - rewrite andb_false_r.
    destruct ((code =? "KeyS")%string); cbn [andb].
    + destruct (GameState_eqb_spec (state g) idle) as [Hi | Hi]; cbn [orb].
      { apply ginv_enter_scores; [left; exact Hi | exact H]. }
      destruct (GameState_eqb_spec (state g) gameover) as [Hg | Hg]; cbn [orb].
      { apply ginv_enter_scores; [right; left; exact Hg | exact H]. }
      destruct (GameState_eqb_spec (state g) clear) as [Hc | Hc].
      { apply ginv_enter_scores; [right; right; exact Hc | exact H]. }
      apply ginv_keyGameplay, H.
    + apply ginv_keyGameplay, H.
Qed.

Lemma ginv_handleKeyUp code g : Inv cfg g -> Inv cfg (handleKeyUp code g).
Proof.
  intro H. unfold handleKeyUp.
  apply (ginv_keys (set_key code false (keys g))) in H.
  revert H. generalize (with_keys g (set_key code false (keys g))).
  clear g. intros g H.
  repeat match goal with |- context [if ?c then _ else _] => destruct c end;
    try exact H;
    first [ apply (@ginv_paddle_run (Paddle.OpSetDirection 0) g H)
          | apply (@ginv_paddle_run (Paddle.OpSetDirection 1) g H)
          | apply (@ginv_paddle_run (Paddle.OpSetDirection (-1)) g H) ].
Qed.

Lemma ginv_handleMouseMove x g : Inv cfg g -> Inv cfg (handleMouseMove x g).
Proof.
  intro H. unfold handleMouseMove.
  destruct (negb (GameState_eqb (state g) playing)); [exact H |].
  apply (@ginv_paddle_run (Paddle.OpSetPositionX x) g H).
Qed.

Lemma ginv_step e g : Inv cfg g -> Inv cfg (step e g).
Proof.
  intro H. destruct e; simpl.
  - apply ginv_handleKeyDown, H.
  - apply ginv_handleKeyUp, H.
  - apply ginv_handleMouseMove, H.
  - apply ginv_startOrLaunch, H.
  - apply ginv_gameLoop, H.
Qed.

Lemma ginv_reachable g : reachable cfg g -> Inv cfg g.
Proof.
  induction 1 as [| e g _ IH]; [apply ginv_new | apply ginv_step, IH].
Qed.

End Preservation.

End GameInv.

Module ControllerFacts.
Local Open Scope Z_scope.
Import Game.

Lemma Forall2_nth_error_r {A B} (R : A -> B -> Prop) l l' i b :
  Forall2 R l l' -> nth_error l' i = Some b ->
  exists a, nth_error l i = Some a /\ R a b.
Proof.
  intro H. revert i. induction H as [| x y l l' Hxy _ IH]; intros [| i] Hn;
    simpl in *; try discriminate.
  - injection Hn as <-. exists x. split; [reflexivity | exact Hxy].
  - apply IH, Hn.
Qed.

(** The static fields of the brick manager are those of the
    configuration. *)
Lemma manager_static cfg m :
  BrickManager.with_bricks m [] = GameInv.managerOf cfg ->
  forall s, BrickManager.bricks (BrickManager.createBricks s m)
            = BrickManager.bricks (BrickManager.createBricks s (GameInv.managerOf cfg)).
Proof.
  intros H s. rewrite <- H. reflexivity.
Qed.

Lemma manager_fields cfg m :
  BrickManager.with_bricks m [] = GameInv.managerOf cfg ->
  BrickManager.rows m = brick_rows cfg /\ BrickManager.cols m = brick_cols cfg
  /\ BrickManager.gap m = brick_gap cfg
  /\ BrickManager.brickWidth m = brick_width cfg
  /\ BrickManager.brickHeight m = brick_height cfg.
Proof.
  intro H.
  pose proof (f_equal BrickManager.rows H) as H1.
  pose proof (f_equal BrickManager.cols H) as H2.
  pose proof (f_equal BrickManager.gap H) as H3.
  pose proof (f_equal BrickManager.brickWidth H) as H4.
  pose proof (f_equal BrickManager.brickHeight H) as H5.
  repeat split; assumption.
Qed.

(** A frame never lowers the score. *)
Lemma update_score_mono cfg g :
  GameInv.Inv cfg g -> state g = playing -> score g <= score (update g).
Proof.
  intros H Hst.
  destruct (UpdateFacts.ballResult_cases g) as [Hr | Hr].
  - rewrite (UpdateFacts.update_lost g Hr). unfold handleBallLost.
    game_fields.
    destruct (lives (UpdateFacts.afterBall g) - 1 <=? 0); cbn; lia.
  - rewrite (UpdateFacts.update_alive g Hr).
    assert (Hs : score g <= score (UpdateFacts.afterScan g)).
    { unfold UpdateFacts.afterScan.
      pose proof (GameInv.ginv_afterBall Hst H) as H1.
      destruct (ScanFacts.checkBrickCollisions_cases (UpdateFacts.afterBall g))
        as [[_ ->] | (i & brick & (Hn & _) & ->)]; [cbn; lia |].
      pose proof (GameInv.shaped_wf _ (GameInv.inv_shaped H1) Hn) as Hwf.
      pose proof (BrickHits.wf_score_pos Hwf) as Hpos.
      destruct (fst (Brick.hit brick)) eqn:Hd.
      - destruct (@ScanFacts.resolveHit_destroyed i brick
                    (with_ball (UpdateFacts.afterBall g)
                       (ScanFacts.bounced (ball (UpdateFacts.afterBall g)) brick)) Hd)
          as [_ ->].
        pose proof (@GameInv.points_nonneg (Brick.getScore brick)
                      (combo (with_ball (UpdateFacts.afterBall g)
                                (ScanFacts.bounced (ball (UpdateFacts.afterBall g)) brick)) + 1)
                      ltac:(lia)) as Hp.
        cbn [score with_ball UpdateFacts.afterBall with_paddle] in *. lia.
      - destruct (@ScanFacts.resolveHit_damaged i brick
                    (with_ball (UpdateFacts.afterBall g)
                       (ScanFacts.bounced (ball (UpdateFacts.afterBall g)) brick)) Hd)
          as [_ ->].
        cbn. lia. }
    destruct (BrickManager.getRemainingCount _ =? 0)%nat; [| exact Hs].
    unfold handleStageClear.
    destruct (stage (UpdateFacts.afterScan g) >=? 3); cbn; exact Hs.
Qed.

End ControllerFacts.

(** X7.  In every state the controller can reach (with at least one
    configured life), the stage index is 1, 2 or 3, and the match is
    [clear] (possibly behind the scoreboard overlay) only on stage 3
    with no active brick left. *)
Theorem controller_stage_in_range (cfg : GameConfig) (g : Game.t) :
  (1 <= cfg_lives cfg)%Z ->
  Game.reachable cfg g ->
  (1 <= Game.stage g <= 3)%Z
  /\ (GameInv.effState g = clear ->
      Game.stage g = 3%Z
      /\ BrickManager.getRemainingCount (Game.brickManager g) = 0%nat).
Proof.
  intros Hl Hr. pose proof (GameInv.ginv_reachable Hl Hr) as H.
  split; [apply (GameInv.inv_stage H) | apply (GameInv.inv_clear H)].
Qed.

Lemma controller_stage_in_range_witness :
  (1 <= Game.stage Trace.s5 <= 3)%Z.
Proof.
  assert (Hl : (1 <= cfg_lives Trace.tinyConfig)%Z) by (simpl; lia).
  exact (proj1 (controller_stage_in_range Hl Trace.reachable_s5)).
Defined.

(** X8.  In every reachable state the lives are between 0 and the
    configured count, and no life is left exactly when the match is
    [gameover] (possibly behind the scoreboard overlay); so while
    playing or paused at least one life is left. *)
Theorem controller_lives (cfg : GameConfig) (g : Game.t) :
  (1 <= cfg_lives cfg)%Z ->
  Game.reachable cfg g ->
  (0 <= Game.lives g <= cfg_lives cfg)%Z
  /\ (Game.lives g = 0%Z <-> GameInv.effState g = gameover)
  /\ (Game.state g = playing \/ Game.state g = paused -> (1 <= Game.lives g)%Z).
Proof.
  intros Hl Hr. pose proof (GameInv.ginv_reachable Hl Hr) as H.
  split; [apply (GameInv.inv_lives H) |].
  split; [apply (GameInv.inv_over H) |].
  intro Hst. apply (GameInv.alive_lives H).
  unfold GameInv.effState. destruct Hst as [-> | ->]; discriminate.
Qed.

Lemma controller_lives_witness :
  (1 <= Game.lives Trace.s5)%Z.
Proof.
  assert (Hl : (1 <= cfg_lives Trace.tinyConfig)%Z) by (simpl; lia).
  destruct (controller_lives Hl Trace.reachable_s5) as (_ & _ & H).
  apply H. right. reflexivity.
Defined.

(** X9.  Whenever the controller is [idle] (possibly behind the
    scoreboard overlay) the match is a clean slate: score 0, the
    configured lives, stage 1, combo 0 and the ball not launched. *)
Theorem controller_idle_is_fresh (cfg : GameConfig) (g : Game.t) :
  (1 <= cfg_lives cfg)%Z ->
  Game.reachable cfg g ->
  GameInv.effState g = idle ->
  Game.score g = 0%Z /\ Game.lives g = cfg_lives cfg /\ Game.stage g = 1%Z
  /\ Game.combo g = 0%Z /\ Ball.isLaunched (Game.ball g) = false.
Proof.
  intros Hl Hr. apply (GameInv.inv_idle (GameInv.ginv_reachable Hl Hr)).
Qed.

Lemma controller_idle_is_fresh_witness :
  let g := Game.step (Game.KeyDown "KeyQ" 0 0) Trace.s5 in
  Game.score g = 0%Z /\ Game.lives g = 3%Z /\ Game.stage g = 1%Z
  /\ Game.combo g = 0%Z /\ Ball.isLaunched (Game.ball g) = false.
Proof.
  intro g.
  assert (Hl : (1 <= cfg_lives Trace.tinyConfig)%Z) by (simpl; lia).
  assert (Hr : Game.reachable Trace.tinyConfig g)
    by (apply Game.reach_step, Trace.reachable_s5).
  assert (He : GameInv.effState g = idle) by reflexivity.
  exact (controller_idle_is_fresh Hl Hr He).
Defined.

(** X10.  In every reachable state the score and the combo are not
    negative, and a frame never lowers the score. *)
Theorem controller_score_monotone (cfg : GameConfig) (g : Game.t) :
  (1 <= cfg_lives cfg)%Z ->
  Game.reachable cfg g ->
  (0 <= Game.score g)%Z /\ (0 <= Game.combo g)%Z
  /\ (Game.score g <= Game.score (Game.gameLoop g))%Z.
Proof.
  intros Hl Hr. pose proof (GameInv.ginv_reachable Hl Hr) as H.
  split; [apply (GameInv.inv_score H) |].
  split; [apply (GameInv.inv_combo H) |].
  unfold Game.gameLoop.
  destruct (GameInv.GameState_eqb_spec (Game.state g) playing) as [Hst | _];
    cbn [negb]; [| lia].
  apply (ControllerFacts.update_score_mono H Hst).
Qed.

Lemma controller_score_monotone_witness :
  (Game.score Trace.s4 <= Game.score (Game.gameLoop Trace.s4))%Z.
Proof.
  assert (Hl : (1 <= cfg_lives Trace.tinyConfig)%Z) by (simpl; lia).
  exact (proj2 (proj2 (controller_score_monotone Hl Trace.reachable_s4))).
Defined.

Module PaddleMore.
Local Open Scope R_scope.
Import Paddle.

(** What never changes in a paddle built from [config]: its size, its
    speed, and its height on the canvas. *)
Definition fixed (config : GameConfig) (p : t) : Prop :=
  width p = paddle_width config /\ height p = paddle_height config
  /\ speed p = paddle_speed config
  /\ canvasWidth p = canvas_width config
  /\ canvasHeight p = canvas_height config
  /\ getY p = canvas_height config - 50.

Lemma fixed_reachable config p : reachable config p -> fixed config p.
Proof.
  induction 1 as [| o p _ (H1 & H2 & H3 & H4 & H5 & H6)].
  - repeat split.
  - unfold fixed, getY in *.
    destruct o; simpl; try (repeat split; assumption).
    + rewrite H5. repeat split; assumption.
    + unfold update. destruct (Num.eqb (direction p) 0); simpl;
        repeat split; assumption.
Qed.

Lemma in_bounds_reachable config p :
  paddle_width config <= canvas_width config ->
  reachable config p -> in_bounds p.
Proof.
  intros Hcfg. induction 1 as [| o p Hp IH].
  - unfold in_bounds, getX; simpl. lra.
  - apply PaddleFacts.run_in_bounds; [| exact IH].
    destruct (PaddleFacts.reachable_configured Hp) as [-> ->]. exact Hcfg.
Qed.

End PaddleMore.

(** X11.  In every reachable state of the controller the paddle it owns
    is inside the canvas ([0 <= x <= canvasWidth - width], for a paddle
    that fits the canvas), sits at [y = canvasHeight - 50] and has the
    configured size: no event sequence moves it vertically or out of
    bounds. *)
Theorem controller_paddle_in_bounds (cfg : GameConfig) (g : Game.t) :
  (1 <= cfg_lives cfg)%Z ->
  (paddle_width cfg <= canvas_width cfg)%R ->
  Game.reachable cfg g ->
  Paddle.in_bounds (Game.paddle g)
  /\ Paddle.getY (Game.paddle g) = (canvas_height cfg - 50)%R
  /\ Paddle.getWidth (Game.paddle g) = paddle_width cfg
  /\ Paddle.getHeight (Game.paddle g) = paddle_height cfg.
Proof.
  intros Hl Hw Hr. pose proof (GameInv.ginv_reachable Hl Hr) as H.
  pose proof (GameInv.inv_paddle H) as Hp.
  destruct (PaddleMore.fixed_reachable Hp) as (H1 & H2 & _ & _ & _ & H6).
  split; [apply (PaddleMore.in_bounds_reachable Hw Hp) |].
  split; [exact H6 |]. split; assumption.
Qed.

Lemma controller_paddle_in_bounds_witness :
  Paddle.in_bounds (Game.paddle (Game.step (Game.MouseMove 1000) Trace.s4)).
Proof.
  assert (Hl : (1 <= cfg_lives Trace.tinyConfig)%Z) by (simpl; lia).
  assert (Hw : (paddle_width Trace.tinyConfig <= canvas_width Trace.tinyConfig)%R)
    by (simpl; lra).
  assert (Hr : Game.reachable Trace.tinyConfig
                 (Game.step (Game.MouseMove 1000) Trace.s4))
    by (apply Game.reach_step, Trace.reachable_s4).
  exact (proj1 (controller_paddle_in_bounds Hl Hw Hr)).
Defined.

(** X13.  Outside [idle], the brick field of a reachable state is the
    grid of the current stage, each brick hit some number of times: it
    has [rows * cols] slots, and slot [row * cols + col] holds the brick
    that [createBricks(stage)] puts in that cell (same position, size
    and type), possibly damaged or destroyed. *)
Theorem controller_field_is_stage_grid (cfg : GameConfig) (g : Game.t) :
  (1 <= cfg_lives cfg)%Z ->
  Game.reachable cfg g ->
  GameInv.effState g <> idle ->
  length (ScanFacts.bricksOf g) = (brick_rows cfg * brick_cols cfg)%nat
  /\ forall row col,
       (row < brick_rows cfg)%nat -> (col < brick_cols cfg)%nat ->
       exists k,
         nth_error (ScanFacts.bricksOf g) (row * brick_cols cfg + col)
         = Some (BrickHits.hits k
                   (FieldFacts.cell (Game.stage g) (GameInv.managerOf cfg) row col)).
Proof.
  intros Hl Hr He. pose proof (GameInv.ginv_reachable Hl Hr) as H.
  pose proof (GameInv.inv_field H He) as Hf.
  pose proof (GameInv.inv_manager H) as Hm.
  rewrite (ControllerFacts.manager_static Hm) in Hf.
  split.
  - unfold ScanFacts.bricksOf. rewrite (Forall2_length Hf).
    apply FieldFacts.createBricks_length.
  - intros row col Hrow Hcol.
    pose proof (@FieldFacts.createBricks_cell (Game.stage g) (GameInv.managerOf cfg)
                  row col Hrow Hcol) as Hc.
    destruct (ControllerFacts.Forall2_nth_error_r _ Hf Hc) as (b & Hb & [k ->]).
    exists k. exact Hb.
Qed.

Lemma controller_field_is_stage_grid_witness :
  length (ScanFacts.bricksOf Trace.s4) = 2%nat.
Proof.
  assert (Hl : (1 <= cfg_lives Trace.tinyConfig)%Z) by (simpl; lia).
  assert (He : GameInv.effState Trace.s4 <> idle) by discriminate.
  exact (proj1 (controller_field_is_stage_grid Hl Trace.reachable_s4 He)).
Defined.

(** X14.  With a non-negative gap and non-negative brick sizes, the
    bricks of a reachable state never overlap: any two different slots
    of the field hold bricks separated along x or along y. *)
Theorem controller_bricks_never_overlap (cfg : GameConfig) (g : Game.t)
    (i j : nat) (bi bj : Brick.t) :
  (1 <= cfg_lives cfg)%Z ->
  (0 <= brick_gap cfg)%R -> (0 <= brick_width cfg)%R ->
  (0 <= brick_height cfg)%R ->
  Game.reachable cfg g ->
  i <> j ->
  nth_error (ScanFacts.bricksOf g) i = Some bi ->
  nth_error (ScanFacts.bricksOf g) j = Some bj ->
  (Brick.getX bi + Brick.getWidth bi <= Brick.getX bj
   \/ Brick.getX bj + Brick.getWidth bj <= Brick.getX bi
   \/ Brick.getY bi + Brick.getHeight bi <= Brick.getY bj
   \/ Brick.getY bj + Brick.getHeight bj <= Brick.getY bi)%R.
Proof.
  intros Hl Hg Hw Hh Hr Hij Hi Hj.
  pose proof (GameInv.ginv_reachable Hl Hr) as H.
  pose proof (GameInv.inv_shaped H) as Hs.
  destruct (ControllerFacts.manager_fields (GameInv.inv_manager H))
    as (_ & _ & Eg & Ew & Eh).
  destruct (GameInv.shaped_slot _ Hs Hi) as (s1 & r1 & c1 & _ & _ & E1 & Hb1).
  destruct (GameInv.shaped_slot _ Hs Hj) as (s2 & r2 & c2 & _ & _ & E2 & Hb2).
  destruct (GameInv.hitsOf_geometry Hb1) as (P1 & W1 & H1 & _).
  destruct (GameInv.hitsOf_geometry Hb2) as (P2 & W2 & H2 & _).
  unfold Brick.getX, Brick.getY, Brick.getWidth, Brick.getHeight.
  rewrite P1, W1, H1, P2, W2, H2.
  apply (@FieldFacts.cells_separated s1 s2 (Game.brickManager g) r1 c1 r2 c2);
    try (rewrite ?Eg, ?Ew, ?Eh; assumption).
  intro E. injection E as -> ->. congruence.
Qed.

Lemma controller_bricks_never_overlap_witness :
  (Brick.getX Trace.brickA' + Brick.getWidth Trace.brickA' <= Brick.getX Trace.brickB
   \/ Brick.getX Trace.brickB + Brick.getWidth Trace.brickB <= Brick.getX Trace.brickA'
   \/ Brick.getY Trace.brickA' + Brick.getHeight Trace.brickA' <= Brick.getY Trace.brickB
   \/ Brick.getY Trace.brickB + Brick.getHeight Trace.brickB <= Brick.getY Trace.brickA')%R.
Proof.
  assert (Hl : (1 <= cfg_lives Trace.tinyConfig)%Z) by (simpl; lia).
  apply (@controller_bricks_never_overlap Trace.tinyConfig Trace.s4 0 1);
    try (simpl; lra); try assumption.
  - apply Trace.reachable_s4.
  - lia.
  - reflexivity.
  - reflexivity.
Defined.

(** X15.  The scoreboard overlay swallows gameplay input: in the
    [scores] state a key other than [KeyS] and [Escape] is only recorded
    in the key map, and clicks, pointer moves and frames change
    nothing. *)
Theorem scores_overlay_blocks_input (g : Game.t) :
  Game.state g = scores ->
  (forall code r1 r2,
      code <> "KeyS"%string -> code <> "Escape"%string ->
      Game.handleKeyDown code r1 r2 g
      = Game.with_keys g (Game.set_key code true (Game.keys g)))
  /\ (forall r1 r2, Game.handleClick r1 r2 g = g)
  /\ (forall mouseX, Game.handleMouseMove mouseX g = g)
  /\ Game.gameLoop g = g.
Proof.
  intro Hst. split; [| split; [| split]].
  - intros code r1 r2 HS HE. rewrite ComboPaths.handleKeyDown_blocks. cbv zeta.
    game_fields. rewrite Hst.
    apply String.eqb_neq in HS. apply String.eqb_neq in HE.
    rewrite HS, HE. reflexivity.
  - intros r1 r2. unfold Game.handleClick, Game.startOrLaunch. rewrite Hst.
    reflexivity.
  - intro x. unfold Game.handleMouseMove. rewrite Hst. reflexivity.
  - unfold Game.gameLoop. rewrite Hst. reflexivity.
Qed.

Lemma scores_overlay_blocks_input_witness :
  let g := Game.handleKeyDown "KeyS" 0 0 (Game.new DEFAULT_CONFIG) in
  Game.handleClick 0 0 g = g /\ Game.gameLoop g = g.
Proof.
  intro g.
  assert (Hst : Game.state g = scores) by reflexivity.
  destruct (scores_overlay_blocks_input g Hst) as (_ & Hc & _ & Hf).
  split; [apply Hc | exact Hf].
Defined.

(** X16.  A frame of the playing state in which the ball is lost costs
    one life, resets the combo and touches neither the score, the stage
    nor the bricks.  With a life left the controller keeps playing with
    the ball back on the paddle, unlaunched; without, the state becomes
    [gameover] and the ball stays where it was lost. *)
Theorem lost_ball_frame (g : Game.t) :
  UpdateFacts.ballResult g = Ball.ResLost ->
  let paddle' := Paddle.update (Game.paddle g) in
  let ball' := snd (Ball.update paddle' (Game.ball g)) in
  let g' := Game.update g in
  Game.lives g' = (Game.lives g - 1)%Z
  /\ Game.combo g' = 0%Z
  /\ Game.score g' = Game.score g
  /\ Game.stage g' = Game.stage g
  /\ Game.brickManager g' = Game.brickManager g
  /\ Game.paddle g' = paddle'
  /\ ((Game.lives g <= 1)%Z ->
      Game.state g' = gameover /\ Game.ball g' = ball')
  /\ ((1 < Game.lives g)%Z ->
      Game.state g' = Game.state g
      /\ Game.ball g' = Ball.reset paddle' ball'
      /\ Ball.isLaunched (Game.ball g') = false).
Proof.
  intros Hr paddle' ball' g'. subst g'.
  rewrite (UpdateFacts.update_lost g Hr).
  unfold Game.handleBallLost, UpdateFacts.afterBall. fold paddle'. fold ball'.
  game_fields.
  destruct (Z.leb_spec (Game.lives g - 1) 0) as [Hle | Hgt]; game_fields;
    repeat split; intros; try reflexivity; lia.
Qed.

Lemma lost_ball_frame_witness :
  let g := Trace.mk playing (Trace.ballAt 101 5 true)
             [Trace.brickA; Trace.brickB] 0 2 1 Trace.noKeys in
  Game.lives (Game.update g) = 2%Z /\ Game.combo (Game.update g) = 0%Z.
Proof.
  intro g.
  assert (Hb : Ball.update Trace.tinyPaddle (Trace.ballAt 101 5 true)
               = (Ball.ResLost,
                  BallFacts.afterWalls (Trace.ballAt 101 5 true))).
  { rewrite BallFacts.update_launched by reflexivity.
    rewrite BallFacts.afterWalls_free
      by (unfold Trace.ballAt; ball_fields; lra).
    unfold Ball.integrate, Trace.ballAt. ball_fields. num_decide. reflexivity. }
  assert (Hr : UpdateFacts.ballResult g = Ball.ResLost).
  { unfold UpdateFacts.ballResult, g. cbn [Game.paddle Game.ball Trace.mk].
    rewrite Trace.paddle_update_tiny, Hb. reflexivity. }
  destruct (lost_ball_frame g Hr) as (Hl & Hc & _).
  split; [exact Hl | exact Hc].
Defined.

(** X17.  A click, or [Space], never disturbs a ball in flight: outside
    [idle], if the ball is launched the click changes nothing, and the
    key changes only the key map. *)
Theorem click_ignored_in_flight (g : Game.t) (r1 r2 : R) :
  Game.state g <> idle ->
  Ball.isLaunched (Game.ball g) = true ->
  Game.handleClick r1 r2 g = g
  /\ (Game.state g <> scores ->
      Game.handleKeyDown "Space" r1 r2 g
      = Game.with_keys g (Game.set_key "Space" true (Game.keys g))).
Proof.
  intros Hst Hl.
  assert (Hsl : forall k, Game.startOrLaunch r1 r2 (Game.with_keys g k)
                          = Game.with_keys g k).
  { intro k. unfold Game.startOrLaunch. game_fields. rewrite Hl.
    destruct (Game.state g); try contradiction; reflexivity. }
  split.
  - unfold Game.handleClick, Game.startOrLaunch. rewrite Hl.
    destruct (Game.state g); try contradiction; reflexivity.
  - intro Hsc. rewrite ComboPaths.handleKeyDown_blocks. cbv zeta.
    unfold ComboPaths.keyGameplay, ComboPaths.keyRestart,
      ComboPaths.keyEscapeQuit, ComboPaths.keyQuit, ComboPaths.keyPause,
      ComboPaths.keySpace, ComboPaths.keyMove.
    cbn [String.eqb Ascii.eqb Bool.eqb andb orb]. rewrite Hsl.
    game_fields. destruct (Game.state g); try contradiction; reflexivity.
Qed.

Lemma click_ignored_in_flight_witness :
  Game.handleClick (1/2) 0 Trace.s4 = Trace.s4.
Proof.
  assert (Hst : Game.state Trace.s4 <> idle) by discriminate.
  assert (Hl : Ball.isLaunched (Game.ball Trace.s4) = true) by reflexivity.
  exact (proj1 (@click_ignored_in_flight Trace.s4 (1/2)%R 0%R Hst Hl)).
Defined.

(* ================================================================= *)
(** ** Ball: walls, launch, paddle and brick geometry *)

Module NumMore.
Local Open Scope R_scope.

Lemma leb_cases a b :
  (a <= b /\ Num.leb a b = true) \/ (b < a /\ Num.leb a b = false).
Proof.
  destruct (Rle_lt_dec a b) as [H | H].
  - left. split; [exact H | apply NumFacts.leb_true, H].
  - right. split; [exact H | apply NumFacts.leb_false, H].
Qed.

Lemma ltb_cases a b :
  (a < b /\ Num.ltb a b = true) \/ (b <= a /\ Num.ltb a b = false).
Proof.
  destruct (Rlt_le_dec a b) as [H | H].
  - left. split; [exact H | apply NumFacts.ltb_true, H].
  - right. split; [exact H | apply NumFacts.ltb_false, H].
Qed.

End NumMore.

Module BallMore.
Local Open Scope R_scope.
Import Ball.

Lemma bounceSideWalls_spec b :
  0 <= radius b -> 2 * radius b <= canvasWidth b ->
  let b' := bounceSideWalls b in
  radius b <= x b' <= canvasWidth b - radius b
  /\ Rabs (vx b') = Rabs (vx b)
  /\ (x b - radius b <= 0 -> x b' = radius b /\ 0 <= vx b')
  /\ (0 < x b - radius b -> canvasWidth b <= x b + radius b ->
      x b' = canvasWidth b - radius b /\ vx b' <= 0)
  /\ (0 < x b - radius b -> x b + radius b < canvasWidth b -> b' = b)
  /\ y b' = y b /\ vy b' = vy b /\ radius b' = radius b
  /\ canvasWidth b' = canvasWidth b /\ canvasHeight b' = canvasHeight b
  /\ launched b' = launched b.
Proof.
  intros Hr Hw b'. subst b'. unfold bounceSideWalls.
  destruct (NumMore.leb_cases (x b - radius b) 0) as [[H1 ->] | [H1 ->]].
  - unfold x, y, vx, vy in *. simpl.
    rewrite Rabs_Rabsolu. pose proof (Rabs_pos (dx (velocity b))).
    repeat split; try reflexivity; try lra.
  - unfold Num.geb.
    destruct (NumMore.leb_cases (canvasWidth b) (x b + radius b)) as [[H2 ->] | [H2 ->]].
    + unfold x, y, vx, vy in *. simpl.
      rewrite Rabs_Ropp, Rabs_Rabsolu. pose proof (Rabs_pos (dx (velocity b))).
      repeat split; try reflexivity; try lra.
    + repeat split; try reflexivity; lra.
Qed.

Lemma bounceTopWall_spec b :
  let b' := bounceTopWall b in
  radius b <= y b'
  /\ Rabs (vy b') = Rabs (vy b)
  /\ (y b - radius b <= 0 -> y b' = radius b /\ 0 <= vy b')
  /\ (0 < y b - radius b -> b' = b)
  /\ x b' = x b /\ vx b' = vx b /\ radius b' = radius b
  /\ canvasWidth b' = canvasWidth b /\ canvasHeight b' = canvasHeight b
  /\ launched b' = launched b.
Proof.
  intro b'. subst b'. unfold bounceTopWall.
  destruct (NumMore.leb_cases (y b - radius b) 0) as [[H1 ->] | [H1 ->]].
  - unfold x, y, vx, vy in *. simpl.
    rewrite Rabs_Rabsolu. pose proof (Rabs_pos (dy (velocity b))).
    repeat split; try reflexivity; try lra.
  - repeat split; try reflexivity; lra.
Qed.

End BallMore.

(** X18.  Wall reflection.  For a ball that fits the canvas, after the
    Euler step and the wall tests the ball is inside the side walls and
    below the top wall ([radius <= x <= canvasWidth - radius],
    [radius <= y]); each velocity component keeps its magnitude, and a
    component is turned away from a wall that was reached (left: to the
    right, right: to the left, top: down).  The paddle check that follows
    does not change [x], so a launched ball that is not lost ends the
    tick inside the side walls. *)
Theorem wall_reflection (paddle : Paddle.t) (b : Ball.t) :
  (0 <= Ball.radius b)%R -> (2 * Ball.radius b <= Ball.canvasWidth b)%R ->
  let r := Ball.radius b in
  let b' := Ball.bounceTopWall (Ball.bounceSideWalls (Ball.integrate b)) in
  (r <= Ball.x b' <= Ball.canvasWidth b - r)%R
  /\ (r <= Ball.y b')%R
  /\ Rabs (Ball.vx b') = Rabs (Ball.vx b)
  /\ Rabs (Ball.vy b') = Rabs (Ball.vy b)
  /\ ((Ball.x b + Ball.vx b - r <= 0)%R -> (0 <= Ball.vx b')%R)
  /\ ((0 < Ball.x b + Ball.vx b - r)%R ->
      (Ball.canvasWidth b <= Ball.x b + Ball.vx b + r)%R -> (Ball.vx b' <= 0)%R)
  /\ ((Ball.y b + Ball.vy b - r <= 0)%R -> (0 <= Ball.vy b')%R)
  /\ (Ball.launched b = true ->
      (r <= Ball.x (snd (Ball.update paddle b)) <= Ball.canvasWidth b - r)%R).
Proof.
  intros Hr Hw r b'. subst r.
  pose proof (@BallMore.bounceSideWalls_spec (Ball.integrate b)) as Hs.
  change (Ball.radius (Ball.integrate b)) with (Ball.radius b) in Hs.
  change (Ball.canvasWidth (Ball.integrate b)) with (Ball.canvasWidth b) in Hs.
  specialize (Hs Hr Hw). cbv zeta in Hs.
  destruct Hs as (Sx & Sv & Sl & Sr & _ & Sy & Svy & Srad & Scw & _ & _).
  pose proof (BallMore.bounceTopWall_spec (Ball.bounceSideWalls (Ball.integrate b)))
    as Ht. cbv zeta in Ht.
  destruct Ht as (Ty & Tv & Tt & _ & Tx & Tvx & _ & _ & _ & _).
  fold b' in Ty, Tv, Tt, Tx, Tvx.
  rewrite Srad in Ty, Tt.
  change (Ball.x (Ball.integrate b)) with (Ball.x b + Ball.vx b)%R in *.
  change (Ball.y (Ball.integrate b)) with (Ball.y b + Ball.vy b)%R in *.
  change (Ball.vx (Ball.integrate b)) with (Ball.vx b) in *.
  change (Ball.vy (Ball.integrate b)) with (Ball.vy b) in *.
  assert (HX : (Ball.radius b <= Ball.x b' <= Ball.canvasWidth b - Ball.radius b)%R)
    by (rewrite Tx; exact Sx).
  split; [exact HX |]. split; [exact Ty |].
  split; [rewrite Tvx; exact Sv |].
  split; [rewrite Tv, Svy; reflexivity |].
  split; [intro H; rewrite Tvx; apply (Sl H) |].
  split; [intros H1 H2; rewrite Tvx; apply (Sr H1 H2) |].
  split; [intro H; rewrite Sy in Tt; apply (Tt H) |].
  intro Hl. rewrite (BallFacts.update_launched paddle b Hl).
  fold b'. change (BallFacts.afterWalls b) with b'.
  destruct (Num.gtb (Ball.y b' - Ball.radius b') (Ball.canvasHeight b'));
    cbn [snd]; [exact HX |].
  unfold Ball.checkPaddleCollision.
  match goal with |- context [if ?c then _ else _] => destruct c end;
    [| exact HX].
  exact HX.
Qed.

Lemma wall_reflection_witness :
  let b := Ball.with_dx (Ball.with_x BallFacts.lowBall 5) (-5) in
  let b' := Ball.bounceTopWall (Ball.bounceSideWalls (Ball.integrate b)) in
  (8 <= Ball.x b' <= 800 - 8)%R /\ (0 <= Ball.vx b')%R.
Proof.
  intros b b'.
  assert (Hr : (0 <= Ball.radius b)%R) by (simpl; lra).
  assert (Hw : (2 * Ball.radius b <= Ball.canvasWidth b)%R) by (simpl; lra).
  destruct (@wall_reflection (Paddle.new DEFAULT_CONFIG) b Hr Hw)
    as (Hx & _ & _ & _ & Hl & _).
  split; [exact Hx |]. apply Hl.
  unfold b, BallFacts.lowBall. ball_fields. lra.
Defined.

Module BallRest.
Local Open Scope R_scope.
Import Ball.

(** What never changes in a ball built from [config], and what holds
    while it is not launched. *)
Definition fixed (config : GameConfig) (b : t) : Prop :=
  radius b = ball_radius config
  /\ initialSpeed b = ball_initialSpeed config
  /\ maxSpeed b = ball_maxSpeed config
  /\ canvasWidth b = canvas_width config
  /\ canvasHeight b = canvas_height config
  /\ (launched b = false -> vx b = 0 /\ vy b = 0).

Lemma checkBrickCollision_frame bx by_ bw bh b :
  let b' := snd (checkBrickCollision bx by_ bw bh b) in
  radius b' = radius b /\ initialSpeed b' = initialSpeed b
  /\ maxSpeed b' = maxSpeed b /\ canvasWidth b' = canvasWidth b
  /\ canvasHeight b' = canvasHeight b /\ launched b' = launched b
  /\ ((vx b' = - vx b /\ vy b' = vy b /\ y b' = y b)
      \/ (vy b' = - vy b /\ vx b' = vx b /\ x b' = x b)
      \/ b' = b).
Proof.
  intro b'. subst b'. unfold checkBrickCollision.
  repeat match goal with
         | |- context [if Num.ltb ?a ?c then _ else _] => destruct (Num.ltb a c)
         end; cbn [snd]; simpl; intuition.
Qed.

Lemma update_frame paddle b :
  let b' := snd (update paddle b) in
  radius b' = radius b /\ initialSpeed b' = initialSpeed b
  /\ maxSpeed b' = maxSpeed b /\ canvasWidth b' = canvasWidth b
  /\ canvasHeight b' = canvasHeight b /\ launched b' = launched b
  /\ (launched b = false -> velocity b' = velocity b).
Proof.
  intro b'. subst b'. unfold update.
  destruct (launched b) eqn:Hl; cbn [negb].
  - unfold checkPaddleCollision, bounceTopWall, bounceSideWalls.
    repeat match goal with |- context [if ?c then _ else _] => destruct c end;
      cbn [snd]; simpl; intuition discriminate.
  - cbn [snd]. simpl. intuition.
Qed.

Lemma ball_fixed_reachable config b : reachable config b -> fixed config b.
Proof.
  induction 1 as [| o b _ (H1 & H2 & H3 & H4 & H5 & H6)].
  - unfold fixed. simpl. intuition.
  - destruct o; cbn [run].
    + unfold fixed. simpl. intuition.
    + unfold launch. destruct (launched b) eqn:Hl.
      * unfold fixed. intuition congruence.
      * unfold fixed. simpl. intuition discriminate.
    + destruct (update_frame paddle b) as (E1 & E2 & E3 & E4 & E5 & E6 & E7).
      unfold fixed. rewrite E1, E2, E3, E4, E5, E6.
      do 5 (split; [assumption |]).
      intro E. unfold vx, vy. rewrite (E7 E). apply (H6 E).
    + destruct (checkBrickCollision_frame brickX brickY brickWidth brickHeight b)
        as (E1 & E2 & E3 & E4 & E5 & E6 & E7).
      unfold fixed. rewrite E1, E2, E3, E4, E5, E6.
      do 5 (split; [assumption |]).
      intro E. destruct (H6 E) as [Hx Hy].
      destruct E7 as [(Ex & Ey & _) | [(Ey & Ex & _) | ->]];
        [rewrite Ex, Ey, Hx, Hy | rewrite Ex, Ey, Hx, Hy |]; split; lra.
Qed.

End BallRest.

(** X19.  While it is not launched a ball has zero velocity, and
    [update(paddle)] only puts it back on the paddle: the result is
    ['playing'] and the ball is exactly what [reset(paddle)] gives,
    centred on the paddle with its bottom edge one unit above it.  The
    configured radius, speeds and canvas size of a ball never change. *)
Theorem unlaunched_ball_follows_paddle
    (config : GameConfig) (paddle : Paddle.t) (b : Ball.t) :
  Ball.reachable config b ->
  Ball.launched b = false ->
  Ball.update paddle b = (Ball.ResPlaying, Ball.reset paddle b)
  /\ Ball.x (Ball.reset paddle b) = Paddle.getCenterX paddle
  /\ (Ball.y (Ball.reset paddle b) + Ball.radius b + 1 = Paddle.getY paddle)%R
  /\ Ball.velocity b = {| dx := 0; dy := 0 |}
  /\ Ball.radius b = ball_radius config.
Proof.
  intros Hr Hl.
  destruct (BallRest.ball_fixed_reachable Hr) as (H1 & _ & _ & _ & _ & H6).
  destruct (H6 Hl) as [Hx Hy].
  assert (Hv : Ball.velocity b = {| dx := 0; dy := 0 |}).
  { unfold Ball.vx, Ball.vy in *. destruct (Ball.velocity b) as [vx vy].
    simpl in *. subst. reflexivity. }
  split.
  - unfold Ball.update. rewrite Hl. cbn [negb]. f_equal.
    unfold Ball.reset, Ball.with_x, Ball.with_y, Ball.with_launched,
      Ball.with_velocity, Ball.with_position. simpl.
    rewrite Hv, Hl. reflexivity.
  - split; [reflexivity |]. split; [| split; [exact Hv | exact H1]].
    unfold Ball.y, Ball.reset. simpl. lra.
Qed.

Lemma unlaunched_ball_follows_paddle_witness :
  let p := Paddle.setPositionX 300 (Paddle.new DEFAULT_CONFIG) in
  let b := Ball.reset (Paddle.new DEFAULT_CONFIG) (Ball.new DEFAULT_CONFIG) in
  Ball.update p b = (Ball.ResPlaying, Ball.reset p b).
Proof.
  intros p b.
  assert (Hr : Ball.reachable DEFAULT_CONFIG b)
    by (apply (Ball.reach_run (Ball.OpReset (Paddle.new DEFAULT_CONFIG))),
          Ball.reach_new).
  assert (Hl : Ball.launched b = false) by reflexivity.
  exact (proj1 (unlaunched_ball_follows_paddle p Hr Hl)).
Defined.



Module LaunchFacts.
Local Open Scope R_scope.
Import Ball.





End LaunchFacts.



Module PaddleBounce.
Local Open Scope R_scope.
Import Ball.


Definition bounceAngle (paddle : Paddle.t) (b : t) : R :=
  ((x b - Paddle.getX paddle) / Paddle.getWidth paddle - 0.5) * PI * 0.7.






End PaddleBounce.



Module Overlap.
Local Open Scope R_scope.
Import Ball.

(** [Math.max(lo, Math.min(v, hi))]: the point of [lo, hi] nearest to [v]. *)
Definition clamp (lo hi v : R) : R := Rmax lo (Rmin v hi).

Lemma clamp_cases lo hi v :
  lo <= hi ->
  (v < lo /\ clamp lo hi v = lo)
  \/ (lo <= v <= hi /\ clamp lo hi v = v)
  \/ (hi < v /\ clamp lo hi v = hi).
Proof.
  intro H. unfold clamp.
  destruct (Rlt_le_dec v lo) as [H1 | H1].
  - left. rewrite Rmin_left, Rmax_left by lra. split; [exact H1 | reflexivity].
  - destruct (Rle_lt_dec v hi) as [H2 | H2].
    + right; left. rewrite Rmin_left, Rmax_right by lra. split; [lra | reflexivity].
    + right; right. rewrite Rmin_right, Rmax_right by lra. split; [lra | reflexivity].
Qed.


Lemma sqrt_lt_iff D r : 0 <= D -> 0 <= r -> (sqrt D < r <-> D < r * r).
Proof.
  intros HD Hr. split; intro H.
  - apply sqrt_lt_0_alt. rewrite (sqrt_square r Hr). exact H.
  - rewrite <- (sqrt_square r Hr). apply sqrt_lt_1_alt. split; assumption.
Qed.

(** Squared distance from the ball centre to the brick's rectangle. *)
Definition dist2 (bx by_ bw bh : R) (b : t) : R :=
  (x b - clamp bx (bx + bw) (x b)) * (x b - clamp bx (bx + bw) (x b))
  + (y b - clamp by_ (by_ + bh) (y b)) * (y b - clamp by_ (by_ + bh) (y b)).

Lemma dist2_nonneg bx by_ bw bh b : 0 <= dist2 bx by_ bw bh b.
Proof.
  unfold dist2.
  pose proof (Rle_0_sqr (x b - clamp bx (bx + bw) (x b))) as H1.
  pose proof (Rle_0_sqr (y b - clamp by_ (by_ + bh) (y b))) as H2.
  unfold Rsqr in *. lra.
Qed.

Lemma hit_test bx by_ bw bh b :
  fst (checkBrickCollision bx by_ bw bh b)
  = Num.ltb (sqrt (dist2 bx by_ bw bh b)) (radius b).
Proof.
  unfold checkBrickCollision. cbv zeta. fold (clamp bx (bx + bw) (x b)).
  fold (clamp by_ (by_ + bh) (y b)). fold (dist2 bx by_ bw bh b).
  destruct (Num.ltb (sqrt (dist2 bx by_ bw bh b)) (radius b)); [| reflexivity].
  match goal with |- context [if ?c then _ else _] => destruct c end; reflexivity.
Qed.

Lemma hit_iff bx by_ bw bh b :
  0 <= radius b ->
  (fst (checkBrickCollision bx by_ bw bh b) = true
   <-> dist2 bx by_ bw bh b < radius b * radius b).
Proof.
  intro Hr. rewrite hit_test. rewrite <- (sqrt_lt_iff (dist2_nonneg bx by_ bw bh b) Hr).
  destruct (NumFacts.ltb_spec (sqrt (dist2 bx by_ bw bh b)) (radius b)) as [H | H];
    split; intro H'; try assumption; try reflexivity; try discriminate; contradiction.
Qed.

(** The ball centre lies in the brick's closed rectangle. *)
Definition centreInside (bx by_ bw bh : R) (b : t) : Prop :=
  bx <= x b <= bx + bw /\ by_ <= y b <= by_ + bh.

Lemma miss_unchanged bx by_ bw bh b :
  fst (checkBrickCollision bx by_ bw bh b) = false ->
  checkBrickCollision bx by_ bw bh b = (false, b).
Proof.
  intro Hc. unfold checkBrickCollision in *. cbv zeta in *.
  destruct (Num.ltb _ (radius b)); [| reflexivity].
  match type of Hc with context [if ?t then _ else _] => destruct t end;
    discriminate Hc.
Qed.

(** Where the clamp of a point pushed out to a face's distance lands. *)
Lemma clamp_low lo hi v : lo <= hi -> v <= lo -> clamp lo hi v = lo.
Proof.
  intros H Hv. destruct (clamp_cases v H) as [[_ E] | [[H' E] | [H' _]]];
    [exact E | rewrite E; lra | exfalso; lra].
Qed.

Lemma clamp_high lo hi v : lo <= hi -> hi <= v -> clamp lo hi v = hi.
Proof.
  intros H Hv. destruct (clamp_cases v H) as [[H' _] | [[H' E] | [_ E]]];
    [exfalso; lra | rewrite E; lra | exact E].
Qed.

(** After a hit with the centre outside the rectangle, the ball is at
    least a radius away from it. *)
Lemma pushed_out bx by_ bw bh b :
  0 <= bw -> 0 <= bh ->
  ~ centreInside bx by_ bw bh b ->
  sqrt (dist2 bx by_ bw bh b) < radius b ->
  radius b * radius b <= dist2 bx by_ bw bh (snd (checkBrickCollision bx by_ bw bh b)).
Proof.
  intros Hw Hh Hout Hlt.
  assert (Hr : 0 < radius b).
  { pose proof (sqrt_pos (dist2 bx by_ bw bh b)). lra. }
  assert (Hd : dist2 bx by_ bw bh b < radius b * radius b)
    by (apply sqrt_lt_iff; [apply dist2_nonneg | lra | exact Hlt]).
  unfold checkBrickCollision. cbv zeta.
  fold (clamp bx (bx + bw) (x b)). fold (clamp by_ (by_ + bh) (y b)).
  fold (dist2 bx by_ bw bh b).
  rewrite (NumFacts.ltb_true Hlt).
  unfold dist2 in *. unfold centreInside in Hout.
  set (r := radius b) in *.
  assert (Hcx := @clamp_cases bx (bx + bw) (x b) ltac:(lra)).
  assert (Hcy := @clamp_cases by_ (by_ + bh) (y b) ltac:(lra)).
  set (cx := clamp bx (bx + bw) (x b)) in *.
  set (cy := clamp by_ (by_ + bh) (y b)) in *.
  pose proof (Rle_0_sqr (x b - cx)) as Hsx. pose proof (Rle_0_sqr (y b - cy)) as Hsy.
  unfold Rsqr in Hsx, Hsy.
  destruct (NumMore.ltb_cases (r - Rabs (x b - cx)) (r - Rabs (y b - cy)))
    as [[Hax ->] | [Hax ->]]; cbn [snd].
  - (* horizontal bounce *)
    assert (Hnz : x b - cx <> 0).
    { intro E. rewrite E, Rabs_R0 in Hax. pose proof (Rabs_pos (y b - cy)). lra. }
    unfold x, y, with_x, with_dx in *. simpl.
    set (X := px (position b)) in *. set (Y := py (position b)) in *.
    fold cy.
    destruct Hcx as [[H1 E] | [[H1 E] | [H1 E]]]; [| exfalso; lra |].
    + (* left of the brick *)
      unfold Num.gtb. rewrite NumFacts.ltb_false by lra.
      rewrite (Rabs_left (X - cx)) by lra.
      rewrite clamp_low by lra.
      replace (X + - (r - - (X - cx)) - bx) with (- r) by lra. nra.
    + (* right of the brick *)
      unfold Num.gtb. rewrite NumFacts.ltb_true by lra.
      rewrite (Rabs_right (X - cx)) by lra.
      rewrite clamp_high by lra.
      replace (X + (r - (X - cx)) - (bx + bw)) with r by lra. nra.
  - (* vertical bounce *)
    assert (Hnz : y b - cy <> 0).
    { intro E. rewrite E, Rabs_R0 in Hax.
      assert (Ex : x b - cx = 0).
      { destruct (Req_dec (x b - cx) 0) as [E0 | E0]; [exact E0 |].
        pose proof (Rabs_pos_lt _ E0). lra. }
      apply Hout.
      destruct Hcx as [[H1 E1] | [[H1 E1] | [H1 E1]]];
        destruct Hcy as [[H2 E2] | [[H2 E2] | [H2 E2]]]; lra. }
    unfold x, y, with_y, with_dy in *. simpl.
    set (X := px (position b)) in *. set (Y := py (position b)) in *.
    fold cx.
    destruct Hcy as [[H1 E] | [[H1 E] | [H1 E]]]; [| exfalso; lra |].
    + unfold Num.gtb. rewrite NumFacts.ltb_false by lra.
      rewrite (Rabs_left (Y - cy)) by lra.
      rewrite clamp_low by lra.
      replace (Y + - (r - - (Y - cy)) - by_) with (- r) by lra. nra.
    + unfold Num.gtb. rewrite NumFacts.ltb_true by lra.
      rewrite (Rabs_right (Y - cy)) by lra.
      rewrite clamp_high by lra.
      replace (Y + (r - (Y - cy)) - (by_ + bh)) with r by lra. nra.
Qed.

End Overlap.



(** X23.  A brick hit pushes the ball out of the brick.  If the ball
    overlaps a brick of non-negative size while its centre is outside
    the brick's rectangle, then after [checkBrickCollision] has moved it
    the ball no longer overlaps that brick: a second call on the same
    brick returns [false] and leaves the ball alone. *)
Theorem brick_hit_separates
    (brickX brickY brickWidth brickHeight : R) (b : Ball.t) :
  (0 <= brickWidth)%R -> (0 <= brickHeight)%R ->
  ~ Overlap.centreInside brickX brickY brickWidth brickHeight b ->
  fst (Ball.checkBrickCollision brickX brickY brickWidth brickHeight b) = true ->
  let b' := snd (Ball.checkBrickCollision brickX brickY brickWidth brickHeight b) in
  Ball.checkBrickCollision brickX brickY brickWidth brickHeight b' = (false, b').
Proof.
  intros Hw Hh Hout Hhit b'.
  apply Overlap.miss_unchanged. rewrite Overlap.hit_test. apply NumFacts.ltb_false.
  rewrite Overlap.hit_test in Hhit.
  destruct (NumFacts.ltb_spec (sqrt (Overlap.dist2 brickX brickY brickWidth brickHeight b))
              (Ball.radius b)) as [Hlt | Hlt]; [clear Hhit | discriminate Hhit].
  assert (Hr : (0 <= Ball.radius b)%R).
  { pose proof (sqrt_pos (Overlap.dist2 brickX brickY brickWidth brickHeight b)). lra. }
  assert (Er : Ball.radius b' = Ball.radius b).
  { subst b'.
    destruct (BallRest.checkBrickCollision_frame brickX brickY brickWidth brickHeight b)
      as (E & _). exact E. }
  rewrite Er. rewrite <- (sqrt_square (Ball.radius b) Hr).
  apply sqrt_le_1_alt. exact (Overlap.pushed_out Hw Hh Hout Hlt).
Qed.

Lemma brick_hit_separates_witness :
  let b := Ball.with_position (Ball.new DEFAULT_CONFIG) {| px := 100; py := 75 |} in
  let b' := snd (Ball.checkBrickCollision 20 50 75 20 b) in
  Ball.checkBrickCollision 20 50 75 20 b' = (false, b').
Proof.
  intros b b'.
  assert (Hw : (0 <= 75)%R) by lra.
  assert (Hh : (0 <= 20)%R) by lra.
  assert (Hout : ~ Overlap.centreInside 20 50 75 20 b).
  { unfold Overlap.centreInside, b. ball_fields. simpl. lra. }
  assert (Hhit : fst (Ball.checkBrickCollision 20 50 75 20 b) = true).
  { apply Overlap.hit_iff; [unfold b; simpl; lra |].
    unfold Overlap.dist2, b, Overlap.clamp. ball_fields. simpl.
    rewrite (Rmin_right 100 (20 + 75)) by lra. rewrite (Rmax_right 20) by lra.
    rewrite (Rmin_right 75 (50 + 20)) by lra. rewrite (Rmax_right 50) by lra.
    lra. }
  exact (@brick_hit_separates 20 50 75 20 b Hw Hh Hout Hhit).
Defined.

(* ================================================================= *)
(** ** Paddle: pointer and keyboard movement *)

Module PaddleSteps.
Local Open Scope R_scope.
Import Paddle.

Lemma clamp_eq lo hi v : lo <= v <= hi -> Rmax lo (Rmin v hi) = v.
Proof. intro H. rewrite Rmin_left, Rmax_right by lra. reflexivity. Qed.

Lemma clamp_lo lo hi v : lo <= hi -> v <= lo -> Rmax lo (Rmin v hi) = lo.
Proof.
  intros H Hv. rewrite Rmin_left by lra. apply Rmax_left. exact Hv.
Qed.

Lemma clamp_hi lo hi v : lo <= hi -> hi <= v -> Rmax lo (Rmin v hi) = hi.
Proof.
  intros H Hv. rewrite Rmin_right by lra. apply Rmax_right. exact H.
Qed.

(** Clamping moves a value towards the interval, never past a point of it. *)
Lemma clamp_between lo hi v x :
  lo <= x <= hi ->
  (x <= v -> x <= Rmax lo (Rmin v hi) <= v)
  /\ (v <= x -> v <= Rmax lo (Rmin v hi) <= x).
Proof.
  intro Hx. unfold Rmax, Rmin.
  destruct (Rle_dec v hi); destruct (Rle_dec lo _); split; intro; lra.
Qed.

End PaddleSteps.

(** X24.  The pointer centres the paddle.  For a paddle no wider than
    the canvas, [setPositionX(mouseX)] puts the paddle's centre under
    the pointer whenever that keeps the paddle on the canvas, and
    otherwise parks it against the nearer wall; the row, the size and
    the keyboard direction are untouched. *)
Theorem pointer_centres_paddle (mouseX : R) (p : Paddle.t) :
  (0 <= Paddle.width p <= Paddle.canvasWidth p)%R ->
  let p' := Paddle.setPositionX mouseX p in
  ((Paddle.width p / 2 <= mouseX <= Paddle.canvasWidth p - Paddle.width p / 2)%R ->
   Paddle.getCenterX p' = mouseX)
  /\ ((mouseX <= Paddle.width p / 2)%R -> Paddle.getX p' = 0%R)
  /\ ((Paddle.canvasWidth p - Paddle.width p / 2 <= mouseX)%R ->
      (Paddle.getX p' + Paddle.getWidth p' = Paddle.canvasWidth p)%R)
  /\ Paddle.getY p' = Paddle.getY p
  /\ Paddle.getWidth p' = Paddle.getWidth p
  /\ Paddle.direction p' = Paddle.direction p.
Proof.
  intros Hw p'. subst p'.
  unfold Paddle.setPositionX, Paddle.getCenterX, Paddle.getX, Paddle.getY,
    Paddle.getWidth. simpl.
  split; [| split; [| split; [| split; [| split]]]]; try reflexivity; intro H.
  - rewrite PaddleSteps.clamp_eq by lra. lra.
  - apply PaddleSteps.clamp_lo; lra.
  - rewrite PaddleSteps.clamp_hi by lra. lra.
Qed.

Lemma pointer_centres_paddle_witness :
  Paddle.getCenterX (Paddle.setPositionX 300 (Paddle.new DEFAULT_CONFIG)) = 300%R.
Proof.
  assert (Hw : (0 <= Paddle.width (Paddle.new DEFAULT_CONFIG)
                <= Paddle.canvasWidth (Paddle.new DEFAULT_CONFIG))%R)
    by (simpl; lra).
  apply (proj1 (@pointer_centres_paddle 300 (Paddle.new DEFAULT_CONFIG) Hw)).
  simpl. lra.
Defined.



(* ================================================================= *)
(** ** Game: the keyboard direction of the paddle *)

Module DirFacts.
Local Open Scope R_scope.
Import Game.

(** The three values the controller ever passes to [setDirection], and
    the value [reset] writes. *)
Definition dirOK (p : Paddle.t) : Prop :=
  Paddle.direction p = -1 \/ Paddle.direction p = 0 \/ Paddle.direction p = 1.

Lemma dirOK_reset p : dirOK (Paddle.reset p).
Proof. right; left. reflexivity. Qed.

Lemma direction_update p : Paddle.direction (Paddle.update p) = Paddle.direction p.
Proof. unfold Paddle.update. destruct (Num.eqb _ _); reflexivity. Qed.

Lemma paddle_initStage n g : paddle (initStage n g) = Paddle.reset (paddle g).
Proof. reflexivity. Qed.

Lemma paddle_handleBallLost g : paddle (handleBallLost g) = paddle g.
Proof.
  unfold handleBallLost. cbn [lives with_combo with_lives].
  destruct (Z.leb _ _); reflexivity.
Qed.

Lemma paddle_handleStageClear g :
  paddle (handleStageClear g) = paddle g
  \/ paddle (handleStageClear g) = Paddle.reset (paddle g).
Proof.
  unfold handleStageClear. destruct (Z.geb _ _); [left | right]; reflexivity.
Qed.

(** The paddle after one [update] of the controller: moved by the
    keyboard, and centred again when that frame cleared a stage. *)
Lemma paddle_update g :
  paddle (update g) = Paddle.update (paddle g)
  \/ paddle (update g) = Paddle.reset (Paddle.update (paddle g)).
Proof.
  destruct (UpdateFacts.ballResult_cases g) as [Hr | Hr].
  - rewrite (UpdateFacts.update_lost g Hr), paddle_handleBallLost. left. reflexivity.
  - rewrite (UpdateFacts.update_alive g Hr).
    destruct (StageFacts.afterScan_other g) as (_ & _ & _ & Hp).
    destruct (Nat.eqb _ 0); [| left; exact Hp].
    destruct (paddle_handleStageClear (UpdateFacts.afterScan g)) as [E | E];
      rewrite E, Hp; [left | right]; reflexivity.
Qed.

Lemma paddle_gameLoop g :
  paddle (gameLoop g) = paddle g
  \/ paddle (gameLoop g) = Paddle.update (paddle g)
  \/ paddle (gameLoop g) = Paddle.reset (Paddle.update (paddle g)).
Proof.
  unfold gameLoop. destruct (negb _); [left; reflexivity | right; apply paddle_update].
Qed.

Lemma dirOK_update p : dirOK p -> dirOK (Paddle.update p).
Proof. unfold dirOK. rewrite direction_update. exact (fun H => H). Qed.

Lemma dir_gameLoop g : dirOK (paddle g) -> dirOK (paddle (gameLoop g)).
Proof.
  intro H. destruct (paddle_gameLoop g) as [E | [E | E]]; rewrite E;
    [exact H | apply dirOK_update, H | apply dirOK_reset].
Qed.

Lemma dir_start g : dirOK (paddle g) -> dirOK (paddle (start g)).
Proof.
  intro H. unfold start. destruct (negb _); [exact H |].
  apply dir_gameLoop. rewrite paddle_initStage. apply dirOK_reset.
Qed.

Lemma dir_pause g : dirOK (paddle g) -> dirOK (paddle (pause g)).
Proof. intro H. unfold pause. destruct (negb _); exact H. Qed.

Lemma dir_resume g : dirOK (paddle g) -> dirOK (paddle (resume g)).
Proof.
  intro H. unfold resume. destruct (negb _); [exact H |].
  apply dir_gameLoop. exact H.
Qed.

Lemma dir_restart g : dirOK (paddle (restart g)).
Proof. apply dirOK_reset. Qed.

Lemma dir_quit g : dirOK (paddle g) -> dirOK (paddle (quit g)).
Proof.
  intro H. unfold quit.
  destruct (negb _ && negb _ && negb _); [exact H | apply dirOK_reset].
Qed.

Lemma dir_startOrLaunch r1 r2 g :
  dirOK (paddle g) -> dirOK (paddle (startOrLaunch r1 r2 g)).
Proof.
  intro H. unfold startOrLaunch.
  destruct (GameState_eqb (state g) idle); [apply dir_start, H |].
  destruct (_ && _); exact H.
Qed.

Lemma dir_keyGameplay code r1 r2 g :
  dirOK (paddle g) -> dirOK (paddle (ComboPaths.keyGameplay code r1 r2 g)).
Proof.
  intro H. unfold ComboPaths.keyGameplay.
  assert (H1 : dirOK (paddle (ComboPaths.keyMove code g))).
  { unfold ComboPaths.keyMove.
    destruct (_ || _); [left; reflexivity |].
    destruct (_ || _); [right; right; reflexivity | exact H]. }
  assert (H2 : dirOK (paddle (ComboPaths.keySpace code r1 r2 (ComboPaths.keyMove code g)))).
  { unfold ComboPaths.keySpace. destruct (String.eqb _ _);
      [apply dir_startOrLaunch, H1 | exact H1]. }
  set (g2 := ComboPaths.keySpace code r1 r2 (ComboPaths.keyMove code g)) in *.
  assert (H3 : dirOK (paddle (ComboPaths.keyPause code g2))).
  { unfold ComboPaths.keyPause. destruct (_ || _); [| exact H2].
    destruct (GameState_eqb (state g2) playing); [apply dir_pause, H2 |].
    destruct (GameState_eqb (state g2) paused); [apply dir_resume, H2 | exact H2]. }
  set (g3 := ComboPaths.keyPause code g2) in *.
  assert (H4 : dirOK (paddle (ComboPaths.keyQuit code g3))).
  { unfold ComboPaths.keyQuit. destruct (String.eqb _ _); [| exact H3].
    destruct (_ || _); [apply dir_quit, H3 | exact H3]. }
  set (g4 := ComboPaths.keyQuit code g3) in *.
  assert (H5 : dirOK (paddle (ComboPaths.keyEscapeQuit code g4))).
  { unfold ComboPaths.keyEscapeQuit. destruct (String.eqb _ _); [| exact H4].
    destruct (_ || _); [apply dir_quit, H4 | exact H4]. }
  set (g5 := ComboPaths.keyEscapeQuit code g4) in *.
  unfold ComboPaths.keyRestart. destruct (String.eqb _ _); [| exact H5].
  destruct (_ || _); [apply dir_restart | exact H5].
Qed.

Lemma dir_handleKeyDown code r1 r2 g :
  dirOK (paddle g) -> dirOK (paddle (handleKeyDown code r1 r2 g)).
Proof.
  intro H. rewrite ComboPaths.handleKeyDown_blocks. cbv zeta.
  destruct (_ && _); [exact H |].
  destruct (_ && _); [exact H |].
  destruct (GameState_eqb _ scores).
  - destruct (String.eqb _ _); exact H.
  - apply dir_keyGameplay. exact H.
Qed.

Lemma dir_handleKeyUp code g : dirOK (paddle (handleKeyUp code g)) \/
                               paddle (handleKeyUp code g) = paddle g.
Proof.
  unfold handleKeyUp. cbv zeta.
  destruct (_ || _).
  - left. destruct (_ && _); [right; left | right; right]; reflexivity.
  - destruct (_ || _); [| right; reflexivity].
    left. destruct (_ && _); [right; left | left]; reflexivity.
Qed.

Lemma dir_handleMouseMove x g :
  dirOK (paddle g) -> dirOK (paddle (handleMouseMove x g)).
Proof. intro H. unfold handleMouseMove. destruct (negb _); exact H. Qed.

Lemma dir_step e g : dirOK (paddle g) -> dirOK (paddle (step e g)).
Proof.
  intro H. destruct e; cbn [step].
  - apply dir_handleKeyDown, H.
  - destruct (dir_handleKeyUp code g) as [H' | E]; [exact H' | rewrite E; exact H].
  - apply dir_handleMouseMove, H.
  - apply dir_startOrLaunch, H.
  - apply dir_gameLoop, H.
Qed.

Lemma dir_reachable cfg g : reachable cfg g -> dirOK (paddle g).
Proof.
  induction 1 as [| e g _ IH]; [right; left; reflexivity | apply dir_step, IH].
Qed.

End DirFacts.

(** X26.  The keyboard direction of the paddle is always -1, 0 or 1.
    So in every reachable state of the controller one [update()] of the
    paddle moves it by at most the configured speed, and a frame leaves
    the paddle where it was (not playing), moves it by that keyboard
    step, or, when the frame cleared a stage, centres it again. *)
Theorem controller_paddle_direction (cfg : GameConfig) (g : Game.t) :
  (1 <= cfg_lives cfg)%Z ->
  (0 <= paddle_speed cfg)%R ->
  (paddle_width cfg <= canvas_width cfg)%R ->
  Game.reachable cfg g ->
  let p := Game.paddle g in
  let p' := Game.paddle (Game.step Game.Frame g) in
  DirFacts.dirOK p
  /\ (Rabs (Paddle.getX (Paddle.update p) - Paddle.getX p) <= paddle_speed cfg)%R
  /\ (p' = p \/ p' = Paddle.update p \/ p' = Paddle.reset (Paddle.update p)).
Proof.
  intros Hl Hs Hw Hr p p'. subst p p'.
  pose proof (DirFacts.dir_reachable Hr) as Hd.
  pose proof (GameInv.inv_paddle (GameInv.ginv_reachable Hl Hr)) as Hp.
  destruct (PaddleMore.fixed_reachable Hp) as (_ & _ & Hsp & _).
  pose proof (PaddleMore.in_bounds_reachable Hw Hp) as Hb.
  split; [exact Hd |]. split; [| apply DirFacts.paddle_gameLoop].
  rewrite <- Hsp in *. clear Hsp Hp Hr.
  set (q := Game.paddle g) in *.
  unfold Paddle.update, Num.eqb.
  destruct (Req_dec_T (Paddle.direction q) 0) as [E | E].
  - replace (Paddle.getX q - Paddle.getX q)%R with 0%R by ring.
    rewrite Rabs_R0. exact Hs.
  - unfold Paddle.getX, Paddle.in_bounds in *. simpl.
    destruct (@PaddleSteps.clamp_between 0 (Paddle.canvasWidth q - Paddle.width q)
                (px (Paddle.position q) + Paddle.direction q * Paddle.speed q)%R
                (px (Paddle.position q)) Hb) as [Hup Hdown].
    apply Rabs_le.
    destruct Hd as [D | [D | D]]; [| contradiction |]; rewrite D in *.
    + specialize (Hdown ltac:(lra)). lra.
    + specialize (Hup ltac:(lra)). lra.
Qed.

Lemma controller_paddle_direction_witness :
  DirFacts.dirOK (Game.paddle (Game.step (Game.KeyDown "ArrowLeft" 0 0) Trace.s4)).
Proof.
  assert (Hl : (1 <= cfg_lives Trace.tinyConfig)%Z) by (simpl; lia).
  assert (Hs : (0 <= paddle_speed Trace.tinyConfig)%R) by (simpl; lra).
  assert (Hw : (paddle_width Trace.tinyConfig <= canvas_width Trace.tinyConfig)%R)
    by (simpl; lra).
  assert (Hr : Game.reachable Trace.tinyConfig
                 (Game.step (Game.KeyDown "ArrowLeft" 0 0) Trace.s4))
    by (apply Game.reach_step, Trace.reachable_s4).
  exact (proj1 (controller_paddle_direction Hl Hs Hw Hr)).
Defined.

Module KeyFacts.
Import Game.

Definition leftHeld (g : t) : bool := keys g "ArrowLeft" || keys g "KeyA".
Definition rightHeld (g : t) : bool := keys g "ArrowRight" || keys g "KeyD".
Definition isLeft (code : string) : bool :=
  (code =? "ArrowLeft")%string || (code =? "KeyA")%string.
Definition isRight (code : string) : bool :=
  (code =? "ArrowRight")%string || (code =? "KeyD")%string.

Lemma set_key_same code v k : set_key code v k code = v.
Proof. unfold set_key. rewrite String.eqb_refl. reflexivity. Qed.

Lemma set_key_other code v k c : c <> code -> set_key code v k c = k c.
Proof.
  intro H. unfold set_key. destruct (String.eqb_spec c code); [contradiction | reflexivity].
Qed.

Lemma isLeft_cases code :
  isLeft code = true -> code = "ArrowLeft"%string \/ code = "KeyA"%string.
Proof.
  unfold isLeft. intro H. apply orb_true_iff in H.
  destruct H as [H | H]; apply String.eqb_eq in H; [left | right]; exact H.
Qed.

Lemma isRight_cases code :
  isRight code = true -> code = "ArrowRight"%string \/ code = "KeyD"%string.
Proof.
  unfold isRight. intro H. apply orb_true_iff in H.
  destruct H as [H | H]; apply String.eqb_eq in H; [left | right]; exact H.
Qed.

End KeyFacts.

(** X27.  Releasing a key.  [handleKeyUp] records the release and, for
    a movement key only, sets the direction from the keys of the other
    side: releasing a left key makes the paddle go right when a right
    key is down and stops it otherwise, and symmetrically.  The keys of
    the same side are not consulted, so with both left keys down the
    release of one stops the paddle while the other is still held.
    Nothing else of the controller changes, in any state. *)
Theorem key_release_direction (code : string) (g : Game.t) :
  let g' := Game.handleKeyUp code g in
  (KeyFacts.isLeft code = true ->
   Paddle.direction (Game.paddle g')
   = if KeyFacts.rightHeld g then 1%R else 0%R)
  /\ (KeyFacts.isRight code = true ->
      Paddle.direction (Game.paddle g')
      = if KeyFacts.leftHeld g then (-1)%R else 0%R)
  /\ (KeyFacts.isLeft code = true -> KeyFacts.rightHeld g = false ->
      KeyFacts.leftHeld g' = true ->
      Paddle.direction (Game.paddle g') = 0%R)
  /\ (KeyFacts.isLeft code = false -> KeyFacts.isRight code = false ->
      Game.paddle g' = Game.paddle g)
  /\ Game.keys g' code = false
  /\ (forall c, c <> code -> Game.keys g' c = Game.keys g c)
  /\ Paddle.position (Game.paddle g') = Paddle.position (Game.paddle g)
  /\ Game.state g' = Game.state g /\ Game.ball g' = Game.ball g
  /\ Game.score g' = Game.score g /\ Game.lives g' = Game.lives g.
Proof.
  intro g'. subst g'.
  assert (Hleft : KeyFacts.isLeft code = true ->
                  Paddle.direction (Game.paddle (Game.handleKeyUp code g))
                  = if KeyFacts.rightHeld g then 1%R else 0%R).
  { intro H. unfold Game.handleKeyUp. cbv zeta. fold (KeyFacts.isLeft code).
    rewrite H. cbn [Game.keys Game.with_keys].
    unfold KeyFacts.rightHeld.
    destruct (KeyFacts.isLeft_cases code H) as [-> | ->];
      rewrite !KeyFacts.set_key_other by discriminate;
      destruct (Game.keys g "ArrowRight"), (Game.keys g "KeyD"); reflexivity. }
  assert (Hright : KeyFacts.isRight code = true ->
                   Paddle.direction (Game.paddle (Game.handleKeyUp code g))
                   = if KeyFacts.leftHeld g then (-1)%R else 0%R).
  { intro H. unfold Game.handleKeyUp. cbv zeta.
    fold (KeyFacts.isLeft code). fold (KeyFacts.isRight code). rewrite H.
    assert (Hn : KeyFacts.isLeft code = false)
      by (destruct (KeyFacts.isRight_cases code H) as [-> | ->]; reflexivity).
    rewrite Hn. cbn [Game.keys Game.with_keys].
    unfold KeyFacts.leftHeld.
    destruct (KeyFacts.isRight_cases code H) as [-> | ->];
      rewrite !KeyFacts.set_key_other by discriminate;
      destruct (Game.keys g "ArrowLeft"), (Game.keys g "KeyA"); reflexivity. }
  split; [exact Hleft |]. split; [exact Hright |].
  split; [intros H Hr _; rewrite (Hleft H), Hr; reflexivity |].
  unfold Game.handleKeyUp. cbv zeta.
  fold (KeyFacts.isLeft code). fold (KeyFacts.isRight code).
  split.
  { intros -> ->. reflexivity. }
  destruct (KeyFacts.isLeft code); [| destruct (KeyFacts.isRight code)];
    match goal with
    | |- context [if ?c then _ else _] => destruct c
    | _ => idtac
    end; cbn [Game.keys Game.with_keys Game.with_paddle Game.paddle Game.state
              Game.ball Game.score Game.lives];
    (split; [apply KeyFacts.set_key_same |]);
    (split; [intros c Hc; apply KeyFacts.set_key_other, Hc |]);
    repeat split.
Qed.

(* ================================================================= *)
(** ** Server: the high-score file *)

(** [StorageService] of [storage.ts].  The file [highscores.json] is
    [None] while it does not exist, and otherwise holds the array of
    entries.  Scores are finite numbers, taken as reals.
    [Array.prototype.sort] is stable: entries that compare equal keep
    their order.  It is modelled by insertion from the left, which
    yields the one array a stable sort can yield. *)
Module Storage.
Local Open Scope R_scope.

Record ScoreEntry := {
  name : string;
  score : R;
  date : string
}.

Definition file := option (list ScoreEntry).

Definition getScores (f : file) : list ScoreEntry :=
  match f with
  | None => []
  | Some scores_ => scores_
  end.

(** The comparator [(a, b) => b.score - a.score]. *)
Definition compare (a b : ScoreEntry) : R := score b - score a.

(** [x] goes before the first entry it compares below zero with. *)
Fixpoint insert (x : ScoreEntry) (l : list ScoreEntry) : list ScoreEntry :=
  match l with
  | [] => [x]
  | y :: l' => if Num.ltb (compare x y) 0 then x :: y :: l' else y :: insert x l'
  end.

Definition sort (l : list ScoreEntry) : list ScoreEntry :=
  fold_left (fun acc x => insert x acc) l [].

(** [addScore(name, score)]; [now] is [new Date().toISOString()].
    Returns the new entry and the file as written. *)
Definition addScore (name_ : string) (score_ : R) (now : string) (f : file)
  : ScoreEntry * file :=
  let scores_ := getScores f in
  let newEntry := {| name := name_; score := score_; date := now |} in
  let scores_ := scores_ ++ [newEntry] in
  let scores_ := sort scores_ in
  let topScores := firstn 10 scores_ in
  (newEntry, Some topScores).

(** The files the service can leave behind, starting without a file. *)
Inductive reachable : file -> Prop :=
| reach_none : reachable None
| reach_add name_ score_ now f :
    reachable f -> reachable (snd (addScore name_ score_ now f)).

(** Best score first. *)
Fixpoint descending (l : list ScoreEntry) : Prop :=
  match l with
  | [] => True
  | x :: l' => (forall y, In y l' -> score y <= score x) /\ descending l'
  end.

End Storage.

Module StorageFacts.
Local Open Scope R_scope.
Import Storage.

Lemma insert_before x y l :
  score y < score x -> insert x (y :: l) = x :: y :: l.
Proof.
  intro H. cbn [insert]. unfold compare. rewrite NumFacts.ltb_true by lra. reflexivity.
Qed.

Lemma insert_after x y l :
  score x <= score y -> insert x (y :: l) = y :: insert x l.
Proof.
  intro H. cbn [insert]. unfold compare. rewrite NumFacts.ltb_false by lra. reflexivity.
Qed.

Lemma insert_cases x y l :
  (score y < score x /\ insert x (y :: l) = x :: y :: l)
  \/ (score x <= score y /\ insert x (y :: l) = y :: insert x l).
Proof.
  destruct (Rlt_le_dec (score y) (score x)) as [H | H].
  - left. split; [exact H | apply insert_before, H].
  - right. split; [exact H | apply insert_after, H].
Qed.

Lemma insert_In x l a : In a (insert x l) <-> a = x \/ In a l.
Proof.
  induction l as [| y l IH].
  - simpl. intuition.
  - destruct (insert_cases x y l) as [[_ ->] | [_ ->]].
    + simpl. intuition.
    + simpl. rewrite IH. intuition.
Qed.

Lemma insert_length x l : length (insert x l) = S (length l).
Proof.
  induction l as [| y l IH]; [reflexivity |].
  destruct (insert_cases x y l) as [[_ ->] | [_ ->]]; simpl; [| rewrite IH]; reflexivity.
Qed.

Lemma insert_descending x l : descending l -> descending (insert x l).
Proof.
  induction l as [| y l IH]; intro H.
  - simpl. split; [intros y [] | exact I].
  - destruct H as [Hy Hl].
    destruct (insert_cases x y l) as [[Hc ->] | [Hc ->]].
    + split; [| split; assumption].
      intros z [<- | Hz]; [lra | specialize (Hy z Hz); lra].
    + split; [| apply IH, Hl].
      intros z Hz. apply insert_In in Hz. destruct Hz as [-> | Hz];
        [exact Hc | apply Hy, Hz].
Qed.

(** Where the new entry lands: after every entry that is not worse,
    before the first one that is. *)
Lemma insert_split x l :
  descending l ->
  exists l1 l2,
    l = l1 ++ l2 /\ insert x l = l1 ++ x :: l2
    /\ (forall y, In y l1 -> score x <= score y)
    /\ (forall y, In y l2 -> score y < score x).
Proof.
  induction l as [| y l IH]; intro H.
  - exists [], []. repeat split; intros y [].
  - destruct H as [Hy Hl].
    destruct (insert_cases x y l) as [[Hc ->] | [Hc ->]].
    + exists [], (y :: l). repeat split; [intros z [] |].
      intros z [<- | Hz]; [exact Hc | specialize (Hy z Hz); lra].
    + destruct (IH Hl) as (l1 & l2 & E1 & E2 & H1 & H2).
      exists (y :: l1), l2. rewrite E2, E1. repeat split; [| exact H2].
      intros z [<- | Hz]; [exact Hc | apply H1, Hz].
Qed.

Lemma sort_app l x : sort (l ++ [x]) = insert x (sort l).
Proof. unfold sort. rewrite fold_left_app. reflexivity. Qed.

Lemma sort_descending l : descending (sort l).
Proof.
  induction l as [| x l IH] using rev_ind; [exact I |].
  rewrite sort_app. apply insert_descending, IH.
Qed.

Lemma sort_length l : length (sort l) = length l.
Proof.
  induction l as [| x l IH] using rev_ind; [reflexivity |].
  rewrite sort_app, insert_length, length_app, IH. simpl. lia.
Qed.

(** Appending to a board in order leaves it in order: every entry is
    inserted behind all earlier ones. *)
Lemma insert_last x l :
  (forall y, In y l -> score x <= score y) -> insert x l = l ++ [x].
Proof.
  induction l as [| y l IH]; intro H; [reflexivity |].
  rewrite insert_after by (apply H; left; reflexivity).
  simpl. rewrite IH; [reflexivity |]. intros z Hz. apply H. right. exact Hz.
Qed.

Lemma sort_sorted l : descending l -> sort l = l.
Proof.
  induction l as [| x l IH] using rev_ind; intro H; [reflexivity |].
  assert (Hd : descending l /\ forall y, In y l -> score x <= score y).
  { clear IH. induction l as [| z l IHl]; [split; [exact I | intros y []] |].
    destruct H as [Hz Hl]. destruct (IHl Hl) as [H1 H2].
    split.
    - split; [| exact H1]. intros y Hy. apply Hz, in_or_app. left. exact Hy.
    - intros y [<- | Hy]; [| apply H2, Hy].
      apply Hz, in_or_app. right. left. reflexivity. }
  destruct Hd as [Hl Hx].
  rewrite sort_app, (IH Hl). apply insert_last, Hx.
Qed.

Lemma descending_firstn n l : descending l -> descending (firstn n l).
Proof.
  revert l. induction n as [| n IH]; intros [| x l] H; try exact I.
  destruct H as [Hx Hl]. simpl. split; [| apply IH, Hl].
  intros y Hy. apply Hx. revert Hy. clear. revert l.
  induction n as [| n IH]; intros [| z l] Hy; try contradiction.
  destruct Hy as [<- | Hy]; [left; reflexivity | right; apply (IH l), Hy].
Qed.

(** What [addScore] writes, for a file that is in order. *)
Lemma addScore_written name_ score_ now f :
  descending (getScores f) ->
  snd (addScore name_ score_ now f)
  = Some (firstn 10 (insert {| name := name_; score := score_; date := now |}
                       (getScores f))).
Proof.
  intro H. unfold addScore. cbv zeta. cbn [snd].
  rewrite sort_app, (sort_sorted _ H). reflexivity.
Qed.

Definition wellKept (f : file) : Prop :=
  descending (getScores f) /\ (length (getScores f) <= 10)%nat.

Lemma wellKept_addScore name_ score_ now f :
  wellKept (snd (addScore name_ score_ now f)).
Proof.
  unfold addScore. cbv zeta. cbn [snd getScores]. split.
  - apply descending_firstn, sort_descending.
  - apply firstn_le_length.
Qed.

Lemma wellKept_reachable f : reachable f -> wellKept f.
Proof.
  induction 1 as [| n s d f _ _]; [split; [exact I | simpl; lia] |].
  apply wellKept_addScore.
Qed.

End StorageFacts.

(** X28.  The high-score file is always a top ten.  Whatever scores are
    submitted, in whatever order, the file written by [addScore] holds
    at most ten entries, best score first; and without a file the list
    of scores is empty. *)
Theorem scoreboard_file_top_ten (f : Storage.file) :
  Storage.reachable f ->
  Storage.descending (Storage.getScores f)
  /\ (length (Storage.getScores f) <= 10)%nat
  /\ Storage.getScores None = [].
Proof.
  intro H. destruct (StorageFacts.wellKept_reachable H) as [H1 H2].
  split; [exact H1 |]. split; [exact H2 | reflexivity].
Qed.

Lemma scoreboard_file_top_ten_witness :
  (length (Storage.getScores
             (snd (Storage.addScore "AAA" 120 "2025-01-01T00:00:00.000Z" None)))
   <= 10)%nat.
Proof.
  assert (Hr : Storage.reachable
                 (snd (Storage.addScore "AAA" 120 "2025-01-01T00:00:00.000Z" None)))
    by (apply Storage.reach_add, Storage.reach_none).
  exact (proj1 (proj2 (scoreboard_file_top_ten Hr))).
Defined.

(** X29.  What happens to a submitted score.  [addScore] always returns
    the new entry.  While the file holds fewer than ten entries the new
    entry is added and every old one is kept.  With ten entries on file
    a score that beats at least one of them gets in (and the file stays
    at ten), while a score that beats none, a tie with the last place
    included, leaves the file exactly as it was. *)
Theorem addScore_outcome
    (name_ : string) (score_ : R) (now : string) (f : Storage.file) :
  Storage.reachable f ->
  let e := {| Storage.name := name_; Storage.score := score_; Storage.date := now |} in
  let old := Storage.getScores f in
  let new := Storage.getScores (snd (Storage.addScore name_ score_ now f)) in
  fst (Storage.addScore name_ score_ now f) = e
  /\ ((length old < 10)%nat ->
      new = Storage.insert e old /\ In e new /\ length new = S (length old)
      /\ forall a, In a old -> In a new)
  /\ (length old = 10%nat ->
      (forall y, In y old -> (score_ <= Storage.score y)%R) -> new = old)
  /\ (length old = 10%nat ->
      (exists y, In y old /\ (Storage.score y < score_)%R) ->
      In e new /\ length new = 10%nat).
Proof.
  intros Hr e old new.
  destruct (StorageFacts.wellKept_reachable Hr) as [Hd Hlen].
  assert (Hnew : new = firstn 10 (Storage.insert e old)).
  { subst new. rewrite (StorageFacts.addScore_written name_ score_ now f Hd).
    reflexivity. }
  fold old in Hd, Hlen.
  split; [reflexivity |].
  split; [| split].
  - intro Hlt.
    assert (E : new = Storage.insert e old).
    { rewrite Hnew. apply firstn_all2.
      rewrite StorageFacts.insert_length. lia. }
    split; [exact E |]. rewrite E.
    split; [apply StorageFacts.insert_In; left; reflexivity |].
    split; [apply StorageFacts.insert_length |].
    intros a Ha. apply StorageFacts.insert_In. right. exact Ha.
  - intros Hfull Hworst.
    rewrite Hnew, (StorageFacts.insert_last e old Hworst).
    rewrite firstn_app, Hfull. replace (10 - 10)%nat with 0%nat by lia.
    rewrite <- Hfull at 1. rewrite firstn_all. simpl. apply app_nil_r.
  - intros Hfull (y & Hy & Hbeats).
    destruct (@StorageFacts.insert_split e old Hd) as (l1 & l2 & E1 & E2 & H1 & H2).
    assert (Hl2 : (length l1 < 10)%nat).
    { destruct l2 as [| z l2].
      - exfalso. rewrite app_nil_r in E1. rewrite E1 in Hy.
        specialize (H1 y Hy). simpl in H1. lra.
      - rewrite <- Hfull, E1, length_app. simpl. lia. }
    rewrite Hnew, E2, firstn_app.
    rewrite (firstn_all2 l1) by lia.
    destruct (10 - length l1)%nat as [| k] eqn:Ek; [lia |].
    split.
    + apply in_or_app. right. left. reflexivity.
    + rewrite length_app. cbn [firstn length].
      rewrite length_firstn.
      assert (length l2 = 10 - length l1)%nat
        by (rewrite <- Hfull, E1, length_app; lia).
      lia.
Qed.

Lemma addScore_outcome_witness :
  In {| Storage.name := "AAA"; Storage.score := 120;
        Storage.date := "2025-01-01T00:00:00.000Z" |}
     (Storage.getScores
        (snd (Storage.addScore "AAA" 120 "2025-01-01T00:00:00.000Z" None))).
Proof.
  assert (Hlt : (length (Storage.getScores None) < 10)%nat) by (simpl; lia).
  destruct (@addScore_outcome "AAA" 120 "2025-01-01T00:00:00.000Z" None
              Storage.reach_none) as (_ & H & _).
  exact (proj1 (proj2 (H Hlt))).
Defined.
